(** * The component-model marshaling core of [wasm-component-model]

    A shallow embedding of
    [wasm-component-model/src/common/componentModel.ts]: the type
    descriptors ([ComponentModelType]), their four operations ([load],
    [store], [liftFlat], [lowerFlat]) and the function adapter
    ([FunctionType.callService], [FunctionType.callWasm]).

    JavaScript values are modelled as follows.
    - a [number] is an integral value ([Int], exact; every wire integer of
      the library is below 2^53), another finite value ([Frac]) or one of
      [NaN], [Infinity], [NegInfinity]; rounding of doubles and the sign of
      zero are not modelled;
    - a [bigint] is a [Z];
    - a string is the list of its UTF-16 code units;
    - an exception is the [Throw] branch of the [Exn] monad;
    - the linear memory is passed explicitly and returned by every
      operation that writes into it. *)

From Stdlib Require Import ZArith List String Bool Lia QArith.
From Stdlib Require Import Permutation Ascii.
Import ListNotations.
Open Scope Z_scope.

Set Implicit Arguments.
Set Warnings "-register-all".

(* ================================================================== *)
(** ** Exceptions *)

Inductive Error : Type :=
| ComponentModelError (message : string)   (* new ComponentModelError(...) *)
| JsError (message : string)               (* new Error(...) *)
| RangeError                               (* raised by DataView and typed arrays *)
| TypeError.                               (* raised by number/bigint mix-ups *)

Inductive Exn (A : Type) : Type :=
| Ok (a : A)
| Throw (e : Error).

Arguments Ok {A} a.
Arguments Throw {A} e.

Definition bind {A B : Type} (m : Exn A) (k : A -> Exn B) : Exn B :=
  match m with
  | Ok a => k a
  | Throw e => Throw e
  end.

Notation "x <- m ;; k" := (bind m (fun x => k))
  (at level 61, m at next level, right associativity).
Notation "' p <- m ;; k" := (bind m (fun p => k))
  (at level 61, p pattern, m at next level, right associativity).

Definition throws {A : Type} (m : Exn A) : Prop :=
  exists e, m = Throw e.

Definition is_ComponentModelError {A : Type} (m : Exn A) : Prop :=
  exists msg, m = Throw (ComponentModelError msg).

(* ================================================================== *)
(** ** Numbers *)

Inductive number : Type :=
| Int (z : Z)
| Frac (q : Q)
| NaN
| Infinity
| NegInfinity.

Module Number.

Definition isInteger_num (n : number) : bool :=
  match n with Int _ => true | _ => false end.

Definition isNaN_num (n : number) : bool :=
  match n with NaN => true | _ => false end.

(** The abstract relational comparison on numbers; [None] is the
    "undefined" outcome that a NaN operand produces. *)
Definition compare (a b : number) : option comparison :=
  match a, b with
  | NaN, _ | _, NaN => None
  | Infinity, Infinity => Some Eq
  | Infinity, _ => Some Gt
  | _, Infinity => Some Lt
  | NegInfinity, NegInfinity => Some Eq
  | NegInfinity, _ => Some Lt
  | _, NegInfinity => Some Gt
  | Int x, Int y => Some (x ?= y)
  | Int x, Frac q => Some (Qcompare (inject_Z x) q)
  | Frac q, Int y => Some (Qcompare q (inject_Z y))
  | Frac p, Frac q => Some (Qcompare p q)
  end.

(** Number.MAX_VALUE, the largest finite double, (2^53 - 1) * 2^971. *)
Definition MAX_VALUE : Z := (2 ^ 53 - 1) * 2 ^ 971.

(** Truncation towards zero of a finite number, 0 for the others
    (the ToIntegerOrInfinity-then-modulo step of ToInt32/ToUint32). *)
Definition trunc (n : number) : Z :=
  match n with
  | Int z => z
  | Frac q => Z.quot (Qnum q) (Z.pos (Qden q))
  | _ => 0
  end.

End Number.

Definition ToUint8 (n : number) : Z := Number.trunc n mod 2 ^ 8.
Definition ToUint16 (n : number) : Z := Number.trunc n mod 2 ^ 16.
Definition ToUint32 (n : number) : Z := Number.trunc n mod 2 ^ 32.

(** Two's complement reading of a [w]-bit pattern. *)
Definition signed (w : Z) (bits : Z) : Z :=
  if bits <? 2 ^ (w - 1) then bits else bits - 2 ^ w.

Definition ToInt32 (n : number) : Z := signed 32 (ToUint32 n).

(* ================================================================== *)
(** ** Flat (wasm) values and native (JavaScript) values *)

Inductive wasmTypeName : Type := i32 | i64 | f32 | f64.

Definition wasmTypeName_eqb (a b : wasmTypeName) : bool :=
  match a, b with
  | i32, i32 | i64, i64 | f32, f32 | f64, f64 => true
  | _, _ => false
  end.

(** The per-flag accessors of a flags value close over a local variable
    [bits]. [createSingle] copies the initial number into the property
    [_bits] and lets the accessors work on the captured variable, so the
    two are separate cells; [createArray] stores the very array the
    accessors capture, so there is one cell. *)
Inductive JType : Type :=
| JNumber (n : number)
| JBigInt (i : Z)
| JString (s : list Z)
| JBoolean (b : bool)
| JArray (items : list JType)                  (* JArray and JTuple *)
| JRecord (props : list (string * JType))
| JVariantCase (case : JType) (value : JType)  (* { case, value } *)
| JOption (case : JType) (value : JType)       (* option.OptionImpl *)
| JResult (case : JType) (value : JType)       (* result.ResultImpl *)
| JEmptyFlags                                  (* Object.create(null) *)
| JSingleFlags (_bits : JType) (bits : JType)
| JArrayFlags (bits : list JType)
| JUndefined.

(** [wasmType = i32 | i64 | f32 | f64] is the TypeScript alias of
    [number | bigint]; it is erased at run time, where a flat slot holds
    whatever value was pushed. *)
Definition wasmType : Type := JType.

(** *** The JavaScript operators the library applies to these values *)

Module Js.

(** ToNumber on the primitives that reach an arithmetic position here.
    Strings and objects never do (the TypeScript signatures exclude
    them); they are read as NaN. A bigint has no ToNumber: the mixed
    comparison is handled in [compare]. *)
Definition ToNumber (v : JType) : number :=
  match v with
  | JNumber n => n
  | JBoolean b => Int (if b then 1 else 0)
  | _ => NaN
  end.

Definition compare (a b : JType) : option comparison :=
  match a, b with
  | JBigInt x, JBigInt y => Some (x ?= y)
  | JBigInt x, _ => Number.compare (Int x) (ToNumber b)
  | _, JBigInt y => Number.compare (ToNumber a) (Int y)
  | _, _ => Number.compare (ToNumber a) (ToNumber b)
  end.

(** [a < b], [a > b], [a <= b], [a >= b] *)
Definition lt (a b : JType) : bool :=
  match compare a b with Some Lt => true | _ => false end.
Definition gt (a b : JType) : bool :=
  match compare a b with Some Gt => true | _ => false end.
Definition le (a b : JType) : bool :=
  match compare a b with Some Lt | Some Eq => true | _ => false end.
Definition ge (a b : JType) : bool :=
  match compare a b with Some Gt | Some Eq => true | _ => false end.

(** [a === b] on primitives; two objects are never the same object
    here, since the library only compares against literals. *)
Definition strictEquals (a b : JType) : bool :=
  match a, b with
  | JNumber x, JNumber y =>
      match Number.compare x y with Some Eq => true | _ => false end
  | JBigInt x, JBigInt y => x =? y
  | JBoolean x, JBoolean y => Bool.eqb x y
  | JString x, JString y => if list_eq_dec Z.eq_dec x y then true else false
  | JUndefined, JUndefined => true
  | _, _ => false
  end.

Definition isInteger (v : JType) : bool :=
  match v with JNumber n => Number.isInteger_num n | _ => false end.

Definition isNaN (v : JType) : bool :=
  match v with JNumber n => Number.isNaN_num n | _ => false end.

Definition isUndefined (v : JType) : bool :=
  match v with JUndefined => true | _ => false end.

(** ToBoolean *)
Definition truthy (v : JType) : bool :=
  match v with
  | JUndefined => false
  | JBoolean b => b
  | JNumber (Int 0) | JNumber NaN => false
  | JBigInt 0 => false
  | JString [] => false
  | _ => true
  end.

(** [typeof v === 'number'] *)
Definition typeofNumber (v : JType) : bool :=
  match v with JNumber _ => true | _ => false end.

(** ToInt32, as applied by the bitwise operators. *)
Definition ToInt32 (v : JType) : Z := ToInt32 (ToNumber v).

(** [a | b], [a & b], [~a], [a << b], [a >>> b] *)
Definition bitor (a b : JType) : JType :=
  JNumber (Int (Z.lor (ToInt32 a) (ToInt32 b))).
Definition bitand (a b : JType) : JType :=
  JNumber (Int (Z.land (ToInt32 a) (ToInt32 b))).
Definition bitnot (a : JType) : JType :=
  JNumber (Int (Z.lnot (ToInt32 a))).
Definition shl (a b : Z) : Z :=
  signed 32 (Z.shiftl a (b mod 32) mod 2 ^ 32).
Definition ushr (a b : Z) : Z :=
  Z.shiftr (a mod 2 ^ 32) (b mod 32).

End Js.

Definition num (z : Z) : JType := JNumber (Int z).

Module JsE.

(** ToNumber where a bigint operand raises a TypeError (DataView
    setters, typed-array stores). *)
Definition ToNumber (v : JType) : Exn number :=
  match v with
  | JBigInt _ => Throw TypeError
  | _ => Ok (Js.ToNumber v)
  end.

(** ToBigInt (DataView.setBigInt64 and friends). *)
Definition ToBigInt (v : JType) : Exn Z :=
  match v with
  | JBigInt i => Ok i
  | JBoolean b => Ok (if b then 1 else 0)
  | _ => Throw TypeError
  end.

(** [BigInt(v)] *)
Definition BigInt (v : JType) : Exn JType :=
  match v with
  | JBigInt i => Ok (JBigInt i)
  | JBoolean b => Ok (JBigInt (if b then 1 else 0))
  | JNumber (Int z) => Ok (JBigInt z)
  | JNumber _ => Throw RangeError
  | _ => Throw TypeError
  end.

(** [Number(v)] *)
Definition Number (v : JType) : JType :=
  match v with
  | JBigInt i => JNumber (Int i)
  | _ => JNumber (Js.ToNumber v)
  end.

End JsE.

(* ================================================================== *)
(** ** IEEE 754 binary interchange formats

    The encoding that [DataView.setFloat32]/[getFloat32] and
    [setFloat64]/[getFloat64] apply, for a format with [p] significand
    bits (hidden bit included) and [w] exponent bits. *)

Module Ieee.

Definition ofQ (q : Q) : number :=
  let r := Qred q in
  match Qden r with
  | 1%positive => Int (Qnum r)
  | _ => Frac r
  end.

Definition toQ (n : number) : Q :=
  match n with
  | Int z => inject_Z z
  | Frac q => q
  | _ => 0%Q
  end.

(** m * 2^k as a rational *)
Definition scale (m k : Z) : Q :=
  if 0 <=? k then inject_Z (m * 2 ^ k)
  else Qmake m (Z.to_pos (2 ^ (- k))).

Definition decode (p w : Z) (bits : Z) : number :=
  let bias := 2 ^ (w - 1) - 1 in
  let F := bits mod 2 ^ (p - 1) in
  let E := (bits / 2 ^ (p - 1)) mod 2 ^ w in
  let neg := Z.odd (bits / 2 ^ (p - 1 + w)) in
  if E =? 2 ^ w - 1 then
    if F =? 0 then (if neg then NegInfinity else Infinity) else NaN
  else
    let m := if E =? 0 then F else 2 ^ (p - 1) + F in
    let e := (if E =? 0 then 1 else E) - bias - (p - 1) in
    ofQ (scale (if neg then - m else m) e).

(** floor (log2 (n / d)) for positive [n], [d] *)
Definition floorLog2 (n d : Z) : Z :=
  let k := Z.log2 n - Z.log2 d in
  let below := if 0 <=? k then n <? d * 2 ^ k else n * 2 ^ (- k) <? d in
  if below then k - 1 else k.

(** n / d rounded to the nearest integer, ties to even *)
Definition roundHalfEven (n d : Z) : Z :=
  let q := n / d in
  let r := n mod d in
  match 2 * r ?= d with
  | Lt => q
  | Gt => q + 1
  | Eq => if Z.even q then q else q + 1
  end.

Definition canonicalNaN (p w : Z) : Z :=
  (2 ^ w - 1) * 2 ^ (p - 1) + 2 ^ (p - 2).

Definition encodeFinite (p w : Z) (q : Q) : Z :=
  let bias := 2 ^ (w - 1) - 1 in
  let sign := if (Qnum q <? 0) then 2 ^ (p - 1 + w) else 0 in
  let n := Z.abs (Qnum q) in
  let d := Z.pos (Qden q) in
  if n =? 0 then 0
  else
    let e := Z.max (floorLog2 n d) (1 - bias) in
    let s := e - (p - 1) in
    let m := if 0 <=? s then roundHalfEven n (d * 2 ^ s)
             else roundHalfEven (n * 2 ^ (- s)) d in
    let '(m, e) := if m =? 2 ^ p then (2 ^ (p - 1), e + 1) else (m, e) in
    if bias <? e then sign + (2 ^ w - 1) * 2 ^ (p - 1)
    else if m <? 2 ^ (p - 1) then sign + m
    else sign + (e + bias) * 2 ^ (p - 1) + (m - 2 ^ (p - 1)).

Definition encode (p w : Z) (n : number) : Z :=
  match n with
  | NaN => canonicalNaN p w
  | Infinity => (2 ^ w - 1) * 2 ^ (p - 1)
  | NegInfinity => 2 ^ (p - 1 + w) + (2 ^ w - 1) * 2 ^ (p - 1)
  | _ => encodeFinite p w (toQ n)
  end.

Definition float32ToBits : number -> Z := encode 24 8.
Definition bitsToFloat32 : Z -> number := decode 24 8.
Definition float64ToBits : number -> Z := encode 53 11.
Definition bitsToFloat64 : Z -> number := decode 53 11.

End Ieee.

(* ================================================================== *)
(** ** Linear memory *)

Definition ptr : Type := Z.

(** [interface Memory]: the bytes of [buffer] (seen through [raw] and
    [view]) and the embedder's [alloc] hook. The hook is a function of the
    allocator state [heap], which the library never inspects. *)
Record Memory : Type := {
  raw : Z -> Z;
  byteLength : Z;
  heap : Z;
  allocHook : Z -> Z -> Z -> ptr * Z
}.

Definition withRaw (m : Memory) (r : Z -> Z) : Memory :=
  {| raw := r; byteLength := byteLength m; heap := heap m;
     allocHook := allocHook m |}.

(** [memory.alloc(align, size)] *)
Definition Memory_alloc (m : Memory) (align size : Z) : ptr * Memory :=
  let '(p, h) := allocHook m align size (heap m) in
  (p, {| raw := raw m; byteLength := byteLength m; heap := h;
         allocHook := allocHook m |}).

Definition inBounds (m : Memory) (p n : Z) : bool :=
  (0 <=? p) && (p + n <=? byteLength m).

Fixpoint bytesAt (r : Z -> Z) (p : Z) (n : nat) : list Z :=
  match n with
  | O => []
  | S k => r p :: bytesAt r (p + 1) k
  end.

Fixpoint poke (r : Z -> Z) (p : Z) (bs : list Z) : Z -> Z :=
  match bs with
  | [] => r
  | b :: rest => poke (fun a => if a =? p then b else r a) (p + 1) rest
  end.

Fixpoint fromLE (bs : list Z) : Z :=
  match bs with
  | [] => 0
  | b :: rest => b + 256 * fromLE rest
  end.

Fixpoint toLE (n : nat) (v : Z) : list Z :=
  match n with
  | O => []
  | S k => v mod 256 :: toLE k (v / 256)
  end.

(** Byte order of a DataView access: the [littleEndian] argument, which
    is [false] (big-endian) when the call omits it. *)
Definition ordered (littleEndian : bool) (bs : list Z) : list Z :=
  if littleEndian then bs else rev bs.

Module DataView.

Definition getBits (n : nat) (m : Memory) (p : ptr) (littleEndian : bool)
  : Exn Z :=
  if inBounds m p (Z.of_nat n)
  then Ok (fromLE (ordered littleEndian (bytesAt (raw m) p n)))
  else Throw RangeError.

Definition setBits (n : nat) (m : Memory) (p : ptr) (bits : Z)
  (littleEndian : bool) : Exn Memory :=
  if inBounds m p (Z.of_nat n)
  then Ok (withRaw m (poke (raw m) p (ordered littleEndian (toLE n bits))))
  else Throw RangeError.

Definition getUint8 m p := getBits 1 m p true.
Definition getUint16 m p le := getBits 2 m p le.
Definition getUint32 m p le := getBits 4 m p le.
Definition getBigUint64 m p le := getBits 8 m p le.
Definition getInt8 m p := b <- getBits 1 m p true ;; Ok (signed 8 b).
Definition getInt16 m p le := b <- getBits 2 m p le ;; Ok (signed 16 b).
Definition getInt32 m p le := b <- getBits 4 m p le ;; Ok (signed 32 b).
Definition getBigInt64 m p le := b <- getBits 8 m p le ;; Ok (signed 64 b).
Definition getFloat32 m p le :=
  b <- getBits 4 m p le ;; Ok (Ieee.bitsToFloat32 b).
Definition getFloat64 m p le :=
  b <- getBits 8 m p le ;; Ok (Ieee.bitsToFloat64 b).

(** The integer setters convert with ToNumber and wrap modulo 2^n, so
    the signed and unsigned setter of a width write the same bytes. *)
Definition setInt (n : nat) m p (v : JType) le : Exn Memory :=
  x <- JsE.ToNumber v ;;
  setBits n m p (Number.trunc x mod 2 ^ (8 * Z.of_nat n)) le.
Definition setBigInt (n : nat) m p (v : JType) le : Exn Memory :=
  x <- JsE.ToBigInt v ;;
  setBits n m p (x mod 2 ^ (8 * Z.of_nat n)) le.

Definition setUint8 m p v := setInt 1 m p v true.
Definition setUint16 m p v le := setInt 2 m p v le.
Definition setUint32 m p v le := setInt 4 m p v le.
Definition setBigUint64 m p v le := setBigInt 8 m p v le.
Definition setInt8 m p v := setInt 1 m p v true.
Definition setInt16 m p v le := setInt 2 m p v le.
Definition setInt32 m p v le := setInt 4 m p v le.
Definition setBigInt64 m p v le := setBigInt 8 m p v le.
Definition setFloat32 m p (v : JType) le : Exn Memory :=
  x <- JsE.ToNumber v ;; setBits 4 m p (Ieee.float32ToBits x) le.
Definition setFloat64 m p (v : JType) le : Exn Memory :=
  x <- JsE.ToNumber v ;; setBits 8 m p (Ieee.float64ToBits x) le.

End DataView.

(* ================================================================== *)
(** ** Options, alignment, reinterpretation of flat values *)

Inductive encodings : Type := utf_8 | utf_16 | latin1_utf_16.

Record Options : Type := {
  encoding : encodings;
  keepOption : option bool          (* keepOption?: boolean *)
}.

Definition keepOption_set (o : Options) : bool :=
  match keepOption o with Some true => true | _ => false end.

(** [Math.ceil(ptr / alignment) * alignment] *)
Definition align (p : ptr) (alignment : Z) : ptr :=
  ((p + alignment - 1) / alignment) * alignment.

Module BigInts.

Definition MAX_VALUE_AS_BIGINT : JType := JBigInt Number.MAX_VALUE.

Definition asNumber (value : JType) : Exn JType :=
  if Js.gt value MAX_VALUE_AS_BIGINT
  then Throw (ComponentModelError "Value too big for number")
  else Ok (JsE.Number value).

End BigInts.

Module WasmTypes.

Definition reinterpret_i32_as_f32 (v : JType) : Exn JType :=
  x <- JsE.ToNumber v ;;
  Ok (JNumber (Ieee.bitsToFloat32 (ToUint32 x))).

Definition reinterpret_f32_as_i32 (v : JType) : Exn JType :=
  x <- JsE.ToNumber v ;;
  Ok (JNumber (Int (signed 32 (Ieee.float32ToBits x)))).

Definition convert_i64_to_i32 (v : JType) : Exn JType :=
  BigInts.asNumber v.

Definition convert_i32_to_i64 (v : JType) : Exn JType :=
  JsE.BigInt v.

Definition reinterpret_i64_as_f32 (v : JType) : Exn JType :=
  x <- convert_i64_to_i32 v ;;
  reinterpret_i32_as_f32 x.

Definition reinterpret_f32_as_i64 (v : JType) : Exn JType :=
  x <- reinterpret_f32_as_i32 v ;;
  convert_i32_to_i64 x.

Definition reinterpret_i64_as_f64 (v : JType) : Exn JType :=
  x <- JsE.ToBigInt v ;;
  Ok (JNumber (Ieee.bitsToFloat64 (x mod 2 ^ 64))).

Definition reinterpret_f64_as_i64 (v : JType) : Exn JType :=
  x <- JsE.ToNumber v ;;
  Ok (JBigInt (signed 64 (Ieee.float64ToBits x))).

End WasmTypes.

(* ================================================================== *)
(** ** Flat value iterators

    [FlatValuesIter = Iterator<wasmType, wasmType>]. The library meets two
    implementations: the iterator of an array ([array.values()]) and
    [CoerceValueIter], which wraps another iterator and shares it with its
    creator. [next] returns the iterator in its new state; the state of a
    wrapped iterator is read back with [underlying]. *)

Record IteratorResult : Type := {
  done : bool;
  value : JType
}.

Inductive FlatValuesIter : Type :=
| ArrayIterator (remaining : list wasmType)
| CoerceValueIter (values : FlatValuesIter)
    (haveFlatTypes wantFlatTypes : list wasmTypeName) (index : nat).

(** [array.values()] *)
Definition Array_values (a : list wasmType) : FlatValuesIter :=
  ArrayIterator a.

(** [new CoerceValueIter(values, haveFlatTypes, wantFlatTypes)] *)
Definition new_CoerceValueIter (values : FlatValuesIter)
  (haveFlatTypes wantFlatTypes : list wasmTypeName) : Exn FlatValuesIter :=
  if (List.length haveFlatTypes <? List.length wantFlatTypes)%nat
  then Throw (ComponentModelError "Invalid coercion")
  else Ok (CoerceValueIter values haveFlatTypes wantFlatTypes 0).

Fixpoint next (it : FlatValuesIter) : Exn (IteratorResult * FlatValuesIter) :=
  match it with
  | ArrayIterator [] =>
      Ok ({| done := true; value := JUndefined |}, ArrayIterator [])
  | ArrayIterator (v :: rest) =>
      Ok ({| done := false; value := v |}, ArrayIterator rest)
  | CoerceValueIter values have want index =>
      '(r, values) <- next values ;;
      if done r then Ok (r, CoerceValueIter values have want index)
      else
        let haveType := nth_error have index in
        let wantType := nth_error want index in
        let this := CoerceValueIter values have want (S index) in
        match haveType, wantType with
        | Some i32, Some f32 =>
            v <- WasmTypes.reinterpret_i32_as_f32 (value r) ;;
            Ok ({| done := false; value := v |}, this)
        | Some i64, Some i32 =>
            v <- WasmTypes.convert_i64_to_i32 (value r) ;;
            Ok ({| done := false; value := v |}, this)
        | Some i64, Some f32 =>
            v <- WasmTypes.reinterpret_i64_as_f32 (value r) ;;
            Ok ({| done := false; value := v |}, this)
        | Some i64, Some f64 =>
            v <- WasmTypes.reinterpret_i64_as_f64 (value r) ;;
            Ok ({| done := false; value := v |}, this)
        | _, _ => Ok (r, this)
        end
  end.

(** The iterator a [CoerceValueIter] was built on, in its current state. *)
Definition underlying (it : FlatValuesIter) : FlatValuesIter :=
  match it with
  | CoerceValueIter values _ _ _ => values
  | _ => it
  end.

(** [values.next().value] *)
Definition nextValue (values : FlatValuesIter)
  : Exn (JType * FlatValuesIter) :=
  '(r, values) <- next values ;; Ok (value r, values).

(* ================================================================== *)
(** ** Type descriptors *)

Inductive ComponentModelTypeKind : Type :=
| kind_bool | kind_u8 | kind_u16 | kind_u32 | kind_u64
| kind_s8 | kind_s16 | kind_s32 | kind_s64
| kind_float32 | kind_float64 | kind_char | kind_string
| kind_list | kind_record | kind_tuple | kind_variant | kind_enum
| kind_flags | kind_option | kind_result
| kind_resource | kind_borrow | kind_own.

(** [interface ComponentModelType<J>], at [J = any]
    ([GenericComponentModelType]). [store] returns the memory it wrote,
    [lowerFlat] the array it pushed to and the memory, [liftFlat] the
    iterator it advanced, [alloc] the pointer and the memory. *)
Record ComponentModelType : Type := {
  kind : ComponentModelTypeKind;
  size : Z;
  alignment : Z;
  flatTypes : list wasmTypeName;
  load : Memory -> ptr -> Options -> Exn JType;
  liftFlat : Memory -> FlatValuesIter -> Options
             -> Exn (JType * FlatValuesIter);
  alloc : Memory -> ptr * Memory;
  store : Memory -> ptr -> JType -> Options -> Exn Memory;
  lowerFlat : list wasmType -> Memory -> JType -> Options
              -> Exn (list wasmType * Memory)
}.

Definition GenericComponentModelType : Type := ComponentModelType.

(** The members of a descriptor under qualified names, for the classes
    that declare members of the same names. *)
Module CMT.
Definition size := size.
Definition alignment := alignment.
Definition flatTypes := flatTypes.
Definition load := load.
Definition liftFlat := liftFlat.
Definition store := store.
Definition lowerFlat := lowerFlat.
End CMT.

(** [result.push(v)] *)
Definition push {A : Type} (result : list A) (v : A) : list A :=
  result ++ [v].

(** *** bool *)

Definition bool_ : ComponentModelType := {|
  kind := kind_bool;
  size := 1;
  alignment := 1;
  flatTypes := [i32];
  load := fun memory p _ =>
    b <- DataView.getUint8 memory p ;;
    Ok (JBoolean (negb (Js.strictEquals (num b) (num 0))));
  liftFlat := fun _memory values _ =>
    '(value, values) <- nextValue values ;;
    if Js.lt value (num 0) then Throw (JsError "Invalid bool value")
    else Ok (JBoolean (negb (Js.strictEquals value (num 0))), values);
  alloc := fun memory => Memory_alloc memory 1 1;
  store := fun memory p value _ =>
    DataView.setUint8 memory p (num (if Js.truthy value then 1 else 0));
  lowerFlat := fun result memory value _ =>
    Ok (push result (num (if Js.truthy value then 1 else 0)), memory)
|}.

(** *** Unsigned integers *)

Module _u8.
Definition kind := kind_u8.
Definition size := 1.
Definition alignment := 1.
Definition flatTypes := [i32].
Definition LOW_VALUE := num 0.
Definition HIGH_VALUE := num 255.

Definition load (memory : Memory) (p : ptr) (_ : Options) : Exn JType :=
  v <- DataView.getUint8 memory p ;; Ok (num v).

Definition liftFlat (_memory : Memory) (values : FlatValuesIter)
  (_ : Options) : Exn (JType * FlatValuesIter) :=
  '(value, values) <- nextValue values ;;
  if Js.lt value LOW_VALUE || Js.gt value HIGH_VALUE
     || negb (Js.isInteger value)
  then Throw (JsError "Invalid u8 value")
  else Ok (value, values).

Definition alloc (memory : Memory) := Memory_alloc memory alignment size.

Definition store (memory : Memory) (p : ptr) (value : JType) (_ : Options)
  : Exn Memory :=
  DataView.setUint8 memory p value.

Definition lowerFlat (result : list wasmType) (_memory : Memory)
  (value : JType) (_ : Options) : Exn (list wasmType * Memory) :=
  if Js.lt value LOW_VALUE || Js.gt value HIGH_VALUE
     || negb (Js.isInteger value)
  then Throw (JsError "Invalid u8 value")
  else Ok (push result value, _memory).
End _u8.

Definition u8 : ComponentModelType := {|
  kind := _u8.kind; size := _u8.size; alignment := _u8.alignment;
  flatTypes := _u8.flatTypes; load := _u8.load; liftFlat := _u8.liftFlat;
  alloc := _u8.alloc; store := _u8.store; lowerFlat := _u8.lowerFlat
|}.

Module _u16.
Definition kind := kind_u16.
Definition size := 2.
Definition alignment := 2.
Definition flatTypes := [i32].
Definition LOW_VALUE := num 0.
Definition HIGH_VALUE := num 65535.

Definition load (memory : Memory) (p : ptr) (_ : Options) : Exn JType :=
  v <- DataView.getUint16 memory p true ;; Ok (num v).

Definition liftFlat (_memory : Memory) (values : FlatValuesIter)
  (_ : Options) : Exn (JType * FlatValuesIter) :=
  '(value, values) <- nextValue values ;;
  if Js.lt value LOW_VALUE || Js.gt value HIGH_VALUE
     || negb (Js.isInteger value)
  then Throw (JsError "Invalid u16 value")
  else Ok (value, values).

Definition alloc (memory : Memory) := Memory_alloc memory alignment size.

Definition store (memory : Memory) (p : ptr) (value : JType) (_ : Options)
  : Exn Memory :=
  DataView.setUint16 memory p value true.

Definition lowerFlat (result : list wasmType) (_memory : Memory)
  (value : JType) (_ : Options) : Exn (list wasmType * Memory) :=
  if Js.lt value LOW_VALUE || Js.gt value HIGH_VALUE
     || negb (Js.isInteger value)
  then Throw (JsError "Invalid u16 value")
  else Ok (push result value, _memory).
End _u16.

Definition u16 : ComponentModelType := {|
  kind := _u16.kind; size := _u16.size; alignment := _u16.alignment;
  flatTypes := _u16.flatTypes; load := _u16.load; liftFlat := _u16.liftFlat;
  alloc := _u16.alloc; store := _u16.store; lowerFlat := _u16.lowerFlat
|}.

Module _u32.
Definition kind := kind_u32.
Definition size := 4.
Definition alignment := 4.
Definition flatTypes := [i32].
Definition LOW_VALUE := num 0.
Definition HIGH_VALUE := num 4294967295.

Definition load (memory : Memory) (p : ptr) (_ : Options) : Exn JType :=
  v <- DataView.getUint32 memory p true ;; Ok (num v).

Definition liftFlat (_memory : Memory) (values : FlatValuesIter)
  (_ : Options) : Exn (JType * FlatValuesIter) :=
  '(value, values) <- nextValue values ;;
  if Js.lt value LOW_VALUE || Js.gt value HIGH_VALUE
     || negb (Js.isInteger value)
  then Throw (JsError "Invalid u32 value")
  else Ok (value, values).

Definition alloc (memory : Memory) := Memory_alloc memory alignment size.

Definition store (memory : Memory) (p : ptr) (value : JType) (_ : Options)
  : Exn Memory :=
  DataView.setUint32 memory p value true.

Definition lowerFlat (result : list wasmType) (_memory : Memory)
  (value : JType) (_ : Options) : Exn (list wasmType * Memory) :=
  if Js.lt value LOW_VALUE || Js.gt value HIGH_VALUE
     || negb (Js.isInteger value)
  then Throw (JsError "Invalid u32 value")
  else Ok (push result value, _memory).
End _u32.

Definition u32 : ComponentModelType := {|
  kind := _u32.kind; size := _u32.size; alignment := _u32.alignment;
  flatTypes := _u32.flatTypes; load := _u32.load; liftFlat := _u32.liftFlat;
  alloc := _u32.alloc; store := _u32.store; lowerFlat := _u32.lowerFlat
|}.

Module _u64.
Definition kind := kind_u64.
Definition size := 8.
Definition alignment := 8.
Definition flatTypes := [i64].
Definition LOW_VALUE := JBigInt 0.
Definition HIGH_VALUE := JBigInt 18446744073709551615.

Definition load (memory : Memory) (p : ptr) (_ : Options) : Exn JType :=
  v <- DataView.getBigUint64 memory p true ;; Ok (JBigInt v).

Definition liftFlat (_memory : Memory) (values : FlatValuesIter)
  (_ : Options) : Exn (JType * FlatValuesIter) :=
  '(value, values) <- nextValue values ;;
  if Js.lt value LOW_VALUE
  then Throw (JsError "Invalid u64 value")
  else Ok (value, values).

Definition alloc (memory : Memory) := Memory_alloc memory alignment size.

Definition store (memory : Memory) (p : ptr) (value : JType) (_ : Options)
  : Exn Memory :=
  DataView.setBigUint64 memory p value true.

Definition lowerFlat (result : list wasmType) (_memory : Memory)
  (value : JType) (_ : Options) : Exn (list wasmType * Memory) :=
  if Js.lt value LOW_VALUE
  then Throw (JsError "Invalid u64 value")
  else Ok (push result value, _memory).
End _u64.

Definition u64 : ComponentModelType := {|
  kind := _u64.kind; size := _u64.size; alignment := _u64.alignment;
  flatTypes := _u64.flatTypes; load := _u64.load; liftFlat := _u64.liftFlat;
  alloc := _u64.alloc; store := _u64.store; lowerFlat := _u64.lowerFlat
|}.

(** *** Signed integers *)

Module NumberOps.

(** [a + b] on numbers (exact on the finite ones) *)
Definition add (a b : number) : number :=
  match a, b with
  | NaN, _ | _, NaN => NaN
  | Infinity, NegInfinity | NegInfinity, Infinity => NaN
  | Infinity, _ | _, Infinity => Infinity
  | NegInfinity, _ | _, NegInfinity => NegInfinity
  | Int x, Int y => Int (x + y)
  | _, _ => Ieee.ofQ (Qplus (Ieee.toQ a) (Ieee.toQ b))
  end.

Definition neg (a : number) : number :=
  match a with
  | Int x => Int (- x)
  | Frac q => Frac (Qopp q)
  | NaN => NaN
  | Infinity => NegInfinity
  | NegInfinity => Infinity
  end.

End NumberOps.

(** [a + b] and [a - b]; mixing a bigint with a number is a TypeError. *)
Definition Js_add (a b : JType) : Exn JType :=
  match a, b with
  | JBigInt x, JBigInt y => Ok (JBigInt (x + y))
  | JBigInt _, _ | _, JBigInt _ => Throw TypeError
  | _, _ => Ok (JNumber (NumberOps.add (Js.ToNumber a) (Js.ToNumber b)))
  end.

Definition Js_sub (a b : JType) : Exn JType :=
  match a, b with
  | JBigInt x, JBigInt y => Ok (JBigInt (x - y))
  | JBigInt _, _ | _, JBigInt _ => Throw TypeError
  | _, _ =>
      Ok (JNumber (NumberOps.add (Js.ToNumber a)
                     (NumberOps.neg (Js.ToNumber b))))
  end.

Module _s8.
Definition kind := kind_s8.
Definition size := 1.
Definition alignment := 1.
Definition flatTypes := [i32].
Definition LOW_VALUE := num (-128).
Definition HIGH_VALUE := num 127.

Definition load (memory : Memory) (p : ptr) (_ : Options) : Exn JType :=
  v <- DataView.getInt8 memory p ;; Ok (num v).

Definition liftFlat (_memory : Memory) (values : FlatValuesIter)
  (_ : Options) : Exn (JType * FlatValuesIter) :=
  '(value, values) <- nextValue values ;;
  if Js.lt value _u8.LOW_VALUE || Js.gt value _u8.HIGH_VALUE
     || negb (Js.isInteger value)
  then Throw (JsError "Invalid u8 value")
  else if Js.le value HIGH_VALUE then Ok (value, values)
  else r <- Js_sub value (num 256) ;; Ok (r, values).

Definition alloc (memory : Memory) := Memory_alloc memory alignment size.

Definition store (memory : Memory) (p : ptr) (value : JType) (_ : Options)
  : Exn Memory :=
  DataView.setInt8 memory p value.

Definition lowerFlat (result : list wasmType) (_memory : Memory)
  (value : JType) (_ : Options) : Exn (list wasmType * Memory) :=
  if Js.lt value LOW_VALUE || Js.gt value HIGH_VALUE
     || negb (Js.isInteger value)
  then Throw (JsError "Invalid s8 value")
  else
    v <- (if Js.lt value (num 0) then Js_add value (num 256)
          else Ok value) ;;
    Ok (push result v, _memory).
End _s8.

Definition s8 : ComponentModelType := {|
  kind := _s8.kind; size := _s8.size; alignment := _s8.alignment;
  flatTypes := _s8.flatTypes; load := _s8.load; liftFlat := _s8.liftFlat;
  alloc := _s8.alloc; store := _s8.store; lowerFlat := _s8.lowerFlat
|}.

Module _s16.
Definition kind := kind_s16.
Definition size := 2.
Definition alignment := 2.
Definition flatTypes := [i32].
Definition LOW_VALUE := num (-32768).
Definition HIGH_VALUE := num 32767.

Definition load (memory : Memory) (p : ptr) (_ : Options) : Exn JType :=
  v <- DataView.getInt16 memory p true ;; Ok (num v).

Definition liftFlat (_memory : Memory) (values : FlatValuesIter)
  (_ : Options) : Exn (JType * FlatValuesIter) :=
  '(value, values) <- nextValue values ;;
  if Js.lt value _u16.LOW_VALUE || Js.gt value _u16.HIGH_VALUE
     || negb (Js.isInteger value)
  then Throw (JsError "Invalid s16 value")
  else if Js.le value HIGH_VALUE then Ok (value, values)
  else r <- Js_sub value (num 65536) ;; Ok (r, values).

Definition alloc (memory : Memory) := Memory_alloc memory alignment size.

Definition store (memory : Memory) (p : ptr) (value : JType) (_ : Options)
  : Exn Memory :=
  DataView.setInt16 memory p value true.

Definition lowerFlat (result : list wasmType) (_memory : Memory)
  (value : JType) (_ : Options) : Exn (list wasmType * Memory) :=
  if Js.lt value LOW_VALUE || Js.gt value HIGH_VALUE
     || negb (Js.isInteger value)
  then Throw (JsError "Invalid s16 value")
  else
    v <- (if Js.lt value (num 0) then Js_add value (num 65536)
          else Ok value) ;;
    Ok (push result v, _memory).
End _s16.

Definition s16 : ComponentModelType := {|
  kind := _s16.kind; size := _s16.size; alignment := _s16.alignment;
  flatTypes := _s16.flatTypes; load := _s16.load; liftFlat := _s16.liftFlat;
  alloc := _s16.alloc; store := _s16.store; lowerFlat := _s16.lowerFlat
|}.

Module _s32.
Definition kind := kind_s32.
Definition size := 4.
Definition alignment := 4.
Definition flatTypes := [i32].
Definition LOW_VALUE := num (-2147483648).
Definition HIGH_VALUE := num 2147483647.

Definition load (memory : Memory) (p : ptr) (_ : Options) : Exn JType :=
  v <- DataView.getInt32 memory p true ;; Ok (num v).

Definition liftFlat (_memory : Memory) (values : FlatValuesIter)
  (_ : Options) : Exn (JType * FlatValuesIter) :=
  '(value, values) <- nextValue values ;;
  if Js.lt value _u32.LOW_VALUE || Js.gt value _u32.HIGH_VALUE
     || negb (Js.isInteger value)
  then Throw (JsError "Invalid s32 value")
  else if Js.le value HIGH_VALUE then Ok (value, values)
  else r <- Js_sub value (num 4294967296) ;; Ok (r, values).

Definition alloc (memory : Memory) := Memory_alloc memory alignment size.

Definition store (memory : Memory) (p : ptr) (value : JType) (_ : Options)
  : Exn Memory :=
  DataView.setInt32 memory p value true.

Definition lowerFlat (result : list wasmType) (_memory : Memory)
  (value : JType) (_ : Options) : Exn (list wasmType * Memory) :=
  if Js.lt value LOW_VALUE || Js.gt value HIGH_VALUE
     || negb (Js.isInteger value)
  then Throw (JsError "Invalid s32 value")
  else
    v <- (if Js.lt value (num 0) then Js_add value (num 4294967296)
          else Ok value) ;;
    Ok (push result v, _memory).
End _s32.

Definition s32 : ComponentModelType := {|
  kind := _s32.kind; size := _s32.size; alignment := _s32.alignment;
  flatTypes := _s32.flatTypes; load := _s32.load; liftFlat := _s32.liftFlat;
  alloc := _s32.alloc; store := _s32.store; lowerFlat := _s32.lowerFlat
|}.

Module _s64.
Definition kind := kind_s64.
Definition size := 8.
Definition alignment := 8.
Definition flatTypes := [i64].
Definition LOW_VALUE := JBigInt (-9223372036854775808).
Definition HIGH_VALUE := JBigInt 9223372036854775807.

Definition load (memory : Memory) (p : ptr) (_ : Options) : Exn JType :=
  v <- DataView.getBigInt64 memory p true ;; Ok (JBigInt v).

Definition liftFlat (_memory : Memory) (values : FlatValuesIter)
  (_ : Options) : Exn (JType * FlatValuesIter) :=
  '(value, values) <- nextValue values ;;
  if Js.lt value _u64.LOW_VALUE
  then Throw (JsError "Invalid s64 value")
  else if Js.le value HIGH_VALUE then Ok (value, values)
  else r <- Js_sub value (JBigInt 18446744073709551616) ;; Ok (r, values).

Definition alloc (memory : Memory) := Memory_alloc memory alignment size.

Definition store (memory : Memory) (p : ptr) (value : JType) (_ : Options)
  : Exn Memory :=
  DataView.setBigInt64 memory p value true.

Definition lowerFlat (result : list wasmType) (_memory : Memory)
  (value : JType) (_ : Options) : Exn (list wasmType * Memory) :=
  if Js.lt value LOW_VALUE || Js.gt value HIGH_VALUE
  then Throw (JsError "Invalid s64 value")
  else
    v <- (if Js.lt value (num 0)
          then Js_add value (JBigInt 18446744073709551616)
          else Ok value) ;;
    Ok (push result v, _memory).
End _s64.

Definition s64 : ComponentModelType := {|
  kind := _s64.kind; size := _s64.size; alignment := _s64.alignment;
  flatTypes := _s64.flatTypes; load := _s64.load; liftFlat := _s64.liftFlat;
  alloc := _s64.alloc; store := _s64.store; lowerFlat := _s64.lowerFlat
|}.

(** *** Floating point *)

Module _float32.
Definition kind := kind_float32.
Definition size := 4.
Definition alignment := 4.
Definition flatTypes := [f32].
(** -3.4028234663852886e+38 and 3.4028234663852886e+38, the doubles
    -(2^24 - 1) * 2^104 and (2^24 - 1) * 2^104 *)
Definition LOW_VALUE := num (- ((2 ^ 24 - 1) * 2 ^ 104)).
Definition HIGH_VALUE := num ((2 ^ 24 - 1) * 2 ^ 104).
(** The number literal [0x7fc00000] *)
Definition NAN := num 2143289344.

Definition load (memory : Memory) (p : ptr) (_ : Options) : Exn JType :=
  v <- DataView.getFloat32 memory p true ;; Ok (JNumber v).

Definition liftFlat (_memory : Memory) (values : FlatValuesIter)
  (_ : Options) : Exn (JType * FlatValuesIter) :=
  '(value, values) <- nextValue values ;;
  if Js.lt value LOW_VALUE || Js.gt value HIGH_VALUE
  then Throw (JsError "Invalid float32 value")
  else Ok (if Js.strictEquals value NAN then JNumber NaN else value,
           values).

Definition alloc (memory : Memory) := Memory_alloc memory alignment size.

Definition store (memory : Memory) (p : ptr) (value : JType) (_ : Options)
  : Exn Memory :=
  DataView.setFloat32 memory p value true.

Definition lowerFlat (result : list wasmType) (_memory : Memory)
  (value : JType) (_ : Options) : Exn (list wasmType * Memory) :=
  if Js.lt value LOW_VALUE || Js.gt value HIGH_VALUE
  then Throw (JsError "Invalid float32 value")
  else Ok (push result (if Js.isNaN value then NAN else value), _memory).
End _float32.

Definition float32 : ComponentModelType := {|
  kind := _float32.kind; size := _float32.size;
  alignment := _float32.alignment; flatTypes := _float32.flatTypes;
  load := _float32.load; liftFlat := _float32.liftFlat;
  alloc := _float32.alloc; store := _float32.store;
  lowerFlat := _float32.lowerFlat
|}.

Module _float64.
Definition kind := kind_float64.
Definition size := 8.
Definition alignment := 8.
Definition flatTypes := [f64].
Definition LOW_VALUE := num (-1 * Number.MAX_VALUE).
Definition HIGH_VALUE := num Number.MAX_VALUE.
(** The number literal [0x7ff8000000000000] *)
Definition NAN := num 9221120237041090560.

Definition load (memory : Memory) (p : ptr) (_ : Options) : Exn JType :=
  v <- DataView.getFloat64 memory p true ;; Ok (JNumber v).

Definition liftFlat (_memory : Memory) (values : FlatValuesIter)
  (_ : Options) : Exn (JType * FlatValuesIter) :=
  '(value, values) <- nextValue values ;;
  if Js.lt value LOW_VALUE || Js.gt value HIGH_VALUE
  then Throw (JsError "Invalid float64 value")
  else Ok (if Js.strictEquals value NAN then JNumber NaN else value,
           values).

Definition alloc (memory : Memory) := Memory_alloc memory alignment size.

Definition store (memory : Memory) (p : ptr) (value : JType) (_ : Options)
  : Exn Memory :=
  DataView.setFloat64 memory p value true.

Definition lowerFlat (result : list wasmType) (_memory : Memory)
  (value : JType) (_ : Options) : Exn (list wasmType * Memory) :=
  if Js.lt value LOW_VALUE || Js.gt value HIGH_VALUE
  then Throw (JsError "Invalid float64 value")
  else Ok (push result (if Js.isNaN value then NAN else value), _memory).
End _float64.

Definition float64 : ComponentModelType := {|
  kind := _float64.kind; size := _float64.size;
  alignment := _float64.alignment; flatTypes := _float64.flatTypes;
  load := _float64.load; liftFlat := _float64.liftFlat;
  alloc := _float64.alloc; store := _float64.store;
  lowerFlat := _float64.lowerFlat
|}.

(** *** char *)

Module JsString.

(** [str.length] (also of an array) *)
Definition length (v : JType) : JType :=
  match v with
  | JString s => num (Z.of_nat (List.length s))
  | JArray a => num (Z.of_nat (List.length a))
  | _ => JUndefined
  end.

(** [String.fromCodePoint(code)] *)
Definition fromCodePoint (code : JType) : Exn JType :=
  match code with
  | JNumber (Int c) =>
      if (c <? 0) || (1114111 <? c) then Throw RangeError
      else if c <? 65536 then Ok (JString [c])
      else Ok (JString [55296 + (c - 65536) / 1024;
                        56320 + (c - 65536) mod 1024])
  | _ => Throw RangeError
  end.

(** [str.codePointAt(0)] *)
Definition codePointAt0 (v : JType) : Exn JType :=
  match v with
  | JString [] => Ok JUndefined
  | JString [u] => Ok (num u)
  | JString (u :: l :: _) =>
      if (55296 <=? u) && (u <=? 56319) && (56320 <=? l) && (l <=? 57343)
      then Ok (num ((u - 55296) * 1024 + (l - 56320) + 65536))
      else Ok (num u)
  | _ => Throw TypeError
  end.

End JsString.

Module _wchar.
Definition kind := kind_char.
Definition size := 4.
Definition alignment := 4.
Definition flatTypes := [i32].

Definition fromCodePoint (code : JType) : Exn JType :=
  if Js.ge code (num 0x110000)
     || (Js.le (num 0xD800) code && Js.le code (num 0xDFFF))
  then Throw (ComponentModelError "Invalid code point")
  else JsString.fromCodePoint code.

Definition asCodePoint (str : JType) : Exn JType :=
  if negb (Js.strictEquals (JsString.length str) (num 1))
  then Throw (ComponentModelError "String length must be 1")
  else
    code <- JsString.codePointAt0 str ;;
    if negb (Js.le code (num 0xD7FF)
             || (Js.le (num 0xD800) code && Js.le code (num 0x10FFFF)))
    then Throw (ComponentModelError "Invalid code point")
    else Ok code.

Definition load (memory : Memory) (p : ptr) (options : Options)
  : Exn JType :=
  code <- load u32 memory p options ;; fromCodePoint code.

Definition liftFlat (memory : Memory) (values : FlatValuesIter)
  (options : Options) : Exn (JType * FlatValuesIter) :=
  '(code, values) <- liftFlat u32 memory values options ;;
  s <- fromCodePoint code ;; Ok (s, values).

Definition alloc (memory : Memory) := alloc u32 memory.

Definition store (memory : Memory) (p : ptr) (value : JType)
  (options : Options) : Exn Memory :=
  code <- asCodePoint value ;; store u32 memory p code options.

Definition lowerFlat (result : list wasmType) (memory : Memory)
  (value : JType) (options : Options) : Exn (list wasmType * Memory) :=
  code <- asCodePoint value ;; lowerFlat u32 result memory code options.
End _wchar.

Definition wchar : ComponentModelType := {|
  kind := _wchar.kind; size := _wchar.size; alignment := _wchar.alignment;
  flatTypes := _wchar.flatTypes; load := _wchar.load;
  liftFlat := _wchar.liftFlat; alloc := _wchar.alloc;
  store := _wchar.store; lowerFlat := _wchar.lowerFlat
|}.

(** *** Typed-array views and loops *)

(** An unchecked [as ptr] / [as u32] cast of a flat slot. The typed
    interface only ever puts an integral number there; for anything else
    the model stops with a TypeError instead of following the coercions
    JavaScript would apply to the index. *)
Definition asIndex (v : JType) : Exn Z :=
  match v with
  | JNumber (Int z) => Ok z
  | _ => Throw TypeError
  end.

(** [new Uint8Array(memory.buffer, data, length)] and its 16-bit sibling:
    the range must lie in the buffer and be aligned to the element. *)
Definition viewInBounds (m : Memory) (elementSize data length : Z) : bool :=
  (0 <=? data) && (0 <=? length) && (data mod elementSize =? 0)
  && (data + length * elementSize <=? byteLength m).

(** [for (let i = 0; i < n; i++) body], leaving at the first exception. *)
Fixpoint iterate {S : Type} (body : S -> Exn S) (n : positive) (s : S)
  : Exn S :=
  match n with
  | xH => body s
  | xO k => s <- iterate body k s ;; iterate body k s
  | xI k => s <- body s ;; s <- iterate body k s ;; iterate body k s
  end.

Definition forLoop {S : Type} (n : Z) (body : S -> Exn S) (s : S) : Exn S :=
  match n with
  | Zpos k => iterate body k s
  | _ => Ok s
  end.

(** Little-endian 16-bit elements of a [Uint16Array] over the buffer. *)
Fixpoint units16At (r : Z -> Z) (p : Z) (n : nat) : list Z :=
  match n with
  | O => []
  | S k => (r p + 256 * r (p + 1)) :: units16At r (p + 2) k
  end.

Fixpoint units16Bytes (units : list Z) : list Z :=
  match units with
  | [] => []
  | u :: rest => (u mod 2 ^ 16) mod 256 :: (u mod 2 ^ 16) / 256
                 :: units16Bytes rest
  end.

(** *** string *)

(** The text codecs obtained from the runtime abstraction layer
    ([RAL().TextDecoder.create('utf-8')], [RAL().TextEncoder.create('utf-8')]),
    on strings as lists of UTF-16 code units and byte lists. *)
Record RAL : Type := {
  utf8Decoder_decode : list Z -> list Z;
  utf8Encoder_encode : list Z -> list Z
}.

Section WString.

Variable ral : RAL.

Definition wstring_offsets_data : Z := 0.
Definition wstring_offsets_codeUnits : Z := 4.

Definition wstring_loadFromRange (memory : Memory) (data codeUnits : Z)
  (options : Options) : Exn JType :=
  match encoding options with
  | latin1_utf_16 =>
      Throw (JsError "latin1+utf-16 encoding not yet supported")
  | utf_8 =>
      let byteLength := codeUnits in
      if viewInBounds memory 1 data byteLength
      then Ok (JString (utf8Decoder_decode ral
                          (bytesAt (raw memory) data
                             (Z.to_nat byteLength))))
      else Throw RangeError
  | utf_16 =>
      if viewInBounds memory 2 data codeUnits
      then Ok (JString (units16At (raw memory) data (Z.to_nat codeUnits)))
      else Throw RangeError
  end.

Definition wstring_storeIntoRange (memory : Memory) (str : JType)
  (options : Options) : Exn ((ptr * Z) * Memory) :=
  match encoding options with
  | latin1_utf_16 =>
      Throw (JsError "latin1+utf-16 encoding not yet supported")
  | utf_8 =>
      match str with
      | JString s =>
          let data := utf8Encoder_encode ral s in
          let len := Z.of_nat (List.length data) in
          let '(dataPtr, memory) :=
            Memory_alloc memory _u8.alignment len in
          if viewInBounds memory 1 dataPtr len
          then Ok ((dataPtr, len),
                   withRaw memory (poke (raw memory) dataPtr data))
          else Throw RangeError
      | _ => Throw TypeError
      end
  | utf_16 =>
      match str with
      | JString s =>
          let len := Z.of_nat (List.length s) in
          let '(dataPtr, memory) :=
            Memory_alloc memory _u8.alignment (len * 2) in
          if viewInBounds memory 2 dataPtr len
          then Ok ((dataPtr, len),
                   withRaw memory
                     (poke (raw memory) dataPtr (units16Bytes s)))
          else Throw RangeError
      | _ => Throw TypeError
      end
  end.

Definition wstring_load (memory : Memory) (p : ptr) (options : Options)
  : Exn JType :=
  dataPtr <- DataView.getUint32 memory (p + wstring_offsets_data) false ;;
  codeUnits <-
    DataView.getUint32 memory (p + wstring_offsets_codeUnits) false ;;
  wstring_loadFromRange memory dataPtr codeUnits options.

Definition wstring_liftFlat (memory : Memory) (values : FlatValuesIter)
  (options : Options) : Exn (JType * FlatValuesIter) :=
  '(dataPtr, values) <- nextValue values ;;
  '(codeUnits, values) <- nextValue values ;;
  dataPtr <- asIndex dataPtr ;;
  codeUnits <- asIndex codeUnits ;;
  s <- wstring_loadFromRange memory dataPtr codeUnits options ;;
  Ok (s, values).

Definition wstring_alloc (memory : Memory) := Memory_alloc memory 4 8.

Definition wstring_store (memory : Memory) (p : ptr) (str : JType)
  (options : Options) : Exn Memory :=
  '((data, codeUnits), memory) <-
    wstring_storeIntoRange memory str options ;;
  memory <- DataView.setUint32 memory (p + wstring_offsets_data)
              (num data) true ;;
  DataView.setUint32 memory (p + wstring_offsets_codeUnits)
    (num codeUnits) true.

Definition wstring_lowerFlat (result : list wasmType) (memory : Memory)
  (str : JType) (options : Options) : Exn (list wasmType * Memory) :=
  '((data, codeUnits), memory) <-
    wstring_storeIntoRange memory str options ;;
  Ok (result ++ [num data; num codeUnits], memory).

Definition wstring : ComponentModelType := {|
  kind := kind_string;
  size := 8;
  alignment := 4;
  flatTypes := [i32; i32];
  load := wstring_load;
  liftFlat := wstring_liftFlat;
  alloc := wstring_alloc;
  store := wstring_store;
  lowerFlat := wstring_lowerFlat
|}.

End WString.

(** *** list *)

Module ListType.

Definition offsets_data : Z := 0.
Definition offsets_length : Z := 4.

Section Methods.

Variable elementType : ComponentModelType.

Definition loadFromRange (memory : Memory) (data length : Z)
  (options : Options) : Exn JType :=
  '(result, _) <-
    forLoop length
      (fun '(result, offset) =>
         v <- load elementType memory (data + offset) options ;;
         Ok (push result v, offset + size elementType))
      ([], 0) ;;
  Ok (JArray result).

Fixpoint storeItems (memory : Memory) (indexPtr : ptr)
  (values : list JType) (options : Options) : Exn Memory :=
  match values with
  | [] => Ok memory
  | item :: rest =>
      memory <- store elementType memory indexPtr item options ;;
      storeItems memory (indexPtr + size elementType) rest options
  end.

Definition storeIntoRange (memory : Memory) (values : JType)
  (options : Options) : Exn ((ptr * Z) * Memory) :=
  match values with
  | JArray items =>
      let length := Z.of_nat (List.length items) in
      let bytes := size elementType * length in
      let '(p, memory) :=
        Memory_alloc memory (alignment elementType) bytes in
      memory <- storeItems memory p items options ;;
      Ok ((p, length), memory)
  | _ => Throw TypeError
  end.

Definition load (memory : Memory) (p : ptr) (options : Options)
  : Exn JType :=
  dataPtr <- DataView.getUint32 memory (p + offsets_data) false ;;
  codeUnits <- DataView.getUint32 memory (p + offsets_length) false ;;
  loadFromRange memory dataPtr codeUnits options.

Definition liftFlat (memory : Memory) (values : FlatValuesIter)
  (options : Options) : Exn (JType * FlatValuesIter) :=
  '(dataPtr, values) <- nextValue values ;;
  '(length, values) <- nextValue values ;;
  dataPtr <- asIndex dataPtr ;;
  length <- asIndex length ;;
  r <- loadFromRange memory dataPtr length options ;;
  Ok (r, values).

Definition alloc (memory : Memory) := Memory_alloc memory 4 8.

Definition store (memory : Memory) (p : ptr) (values : JType)
  (options : Options) : Exn Memory :=
  '((data, length), memory) <- storeIntoRange memory values options ;;
  memory <- DataView.setUint32 memory (p + offsets_data)
              (num data) true ;;
  DataView.setUint32 memory (p + offsets_length) (num length) true.

Definition lowerFlat (result : list wasmType) (memory : Memory)
  (values : JType) (options : Options) : Exn (list wasmType * Memory) :=
  '((data, length), memory) <- storeIntoRange memory values options ;;
  Ok (result ++ [num data; num length], memory).

End Methods.

(** [new ListType(elementType)] *)
Definition new (elementType : ComponentModelType) : ComponentModelType :=
  Build_ComponentModelType
    (* kind *) kind_list
    (* size *) 8
    (* alignment *) 4
    (* flatTypes *) [i32; i32]
    (load elementType) (liftFlat elementType) alloc
    (store elementType) (lowerFlat elementType).

End ListType.

(** *** record and tuple *)

Record TypedField : Type := {
  type : GenericComponentModelType;
  offset : Z
}.

(** [values[i]], [undefined] outside the array *)
Definition Js_nth (values : list JType) (i : nat) : JType :=
  nth i values JUndefined.

(** [obj[name]] on a record object *)
Fixpoint Js_getProp (props : list (string * JType)) (name : string) : JType :=
  match props with
  | [] => JUndefined
  | (k, v) :: rest => if String.eqb k name then v else Js_getProp rest name
  end.

(** [obj[name] = v]: an existing property keeps its place *)
Fixpoint Js_setProp (props : list (string * JType)) (name : string)
  (v : JType) : list (string * JType) :=
  match props with
  | [] => [(name, v)]
  | (k, w) :: rest =>
      if String.eqb k name then (k, v) :: rest
      else (k, w) :: Js_setProp rest name v
  end.

Module BaseRecordType.

(** [private static size(fields)]: the value of [align] is dropped. *)
Definition size (fields : list TypedField) : Z :=
  fold_left
    (fun result field =>
       let _ := align result (alignment (type field)) in
       result + size (type field))
    fields 0.

Definition alignment (fields : list TypedField) : Z :=
  fold_left
    (fun result field => Z.max result (alignment (type field)))
    fields 1.

Definition flatTypes (fields : list TypedField) : list wasmTypeName :=
  fold_left
    (fun result field => result ++ flatTypes (type field))
    fields [].

Section Methods.

(** The field type [F extends TypedField] and the two abstract
    methods of the class. *)
Variable F : Type.
Variable typed : F -> TypedField.
Variable create : list F -> list JType -> JType.
Variable elements : JType -> list F -> Exn (list JType).
Variable fields : list F.

Fixpoint loadFields (memory : Memory) (p : ptr) (options : Options)
  (fs : list F) (result : list JType) : Exn (list JType) :=
  match fs with
  | [] => Ok result
  | field :: rest =>
      value <- load (type (typed field)) memory
                 (p + offset (typed field)) options ;;
      loadFields memory p options rest (push result value)
  end.

Definition load (memory : Memory) (p : ptr) (options : Options)
  : Exn JType :=
  result <- loadFields memory p options fields [] ;;
  Ok (create fields result).

Fixpoint liftFields (memory : Memory) (values : FlatValuesIter)
  (options : Options) (fs : list F) (result : list JType)
  : Exn (list JType * FlatValuesIter) :=
  match fs with
  | [] => Ok (result, values)
  | field :: rest =>
      '(v, values) <- liftFlat (type (typed field)) memory values
                        options ;;
      liftFields memory values options rest (push result v)
  end.

Definition liftFlat (memory : Memory) (values : FlatValuesIter)
  (options : Options) : Exn (JType * FlatValuesIter) :=
  '(result, values) <- liftFields memory values options fields [] ;;
  Ok (create fields result, values).

Definition alloc (memory : Memory) : ptr * Memory :=
  Memory_alloc memory (alignment (map typed fields))
    (size (map typed fields)).

Fixpoint storeFields (memory : Memory) (p : ptr) (values : list JType)
  (options : Options) (fs : list F) (i : nat) : Exn Memory :=
  match fs with
  | [] => Ok memory
  | field :: rest =>
      memory <- store (type (typed field)) memory
                  (p + offset (typed field)) (Js_nth values i)
                  options ;;
      storeFields memory p values options rest (S i)
  end.

Definition store (memory : Memory) (p : ptr) (record : JType)
  (options : Options) : Exn Memory :=
  values <- elements record fields ;;
  storeFields memory p values options fields 0.

Fixpoint lowerFields (result : list wasmType) (memory : Memory)
  (values : list JType) (options : Options) (fs : list F) (i : nat)
  : Exn (list wasmType * Memory) :=
  match fs with
  | [] => Ok (result, memory)
  | field :: rest =>
      '(result, memory) <- lowerFlat (type (typed field)) result memory
                             (Js_nth values i) options ;;
      lowerFields result memory values options rest (S i)
  end.

Definition lowerFlat (result : list wasmType) (memory : Memory)
  (record : JType) (options : Options) : Exn (list wasmType * Memory) :=
  values <- elements record fields ;;
  lowerFields result memory values options fields 0.

(** [new BaseRecordType(fields, kind)] *)
Definition new (kind : ComponentModelTypeKind) : ComponentModelType :=
  Build_ComponentModelType kind
    (size (map typed fields))
    (alignment (map typed fields))
    (flatTypes (map typed fields))
    load liftFlat alloc store lowerFlat.

End Methods.

End BaseRecordType.

Module RecordField.
Record t : Type := {
  name : string;
  typed :> TypedField       (* RecordField extends TypedField *)
}.
Definition create (name : string) (offset : Z)
  (type : GenericComponentModelType) : t :=
  {| name := name; typed := {| type := type; offset := offset |} |}.
End RecordField.

Module RecordType.

(** The loop of the constructor, from the current [offset]. *)
Fixpoint layout (offset : Z)
  (fields : list (string * GenericComponentModelType))
  : list RecordField.t :=
  match fields with
  | [] => []
  | (name, type) :: rest =>
      let offset := align offset (alignment type) in
      RecordField.create name offset type
      :: layout (offset + size type) rest
  end.

Fixpoint createFrom (result : list (string * JType))
  (fields : list RecordField.t) (values : list JType) (i : nat)
  : list (string * JType) :=
  match fields with
  | [] => result
  | field :: rest =>
      createFrom (Js_setProp result (RecordField.name field)
                    (Js_nth values i))
        rest values (S i)
  end.

Definition create (fields : list RecordField.t) (values : list JType)
  : JType :=
  JRecord (createFrom [] fields values 0).

Definition elements (record : JType) (fields : list RecordField.t)
  : Exn (list JType) :=
  match record with
  | JRecord props =>
      Ok (fold_left
            (fun result field =>
               push result (Js_getProp props (RecordField.name field)))
            fields [])
  | _ => Throw TypeError
  end.

(** [new RecordType(fields)] *)
Definition new (fields : list (string * GenericComponentModelType))
  : ComponentModelType :=
  BaseRecordType.new RecordField.typed create elements
    (layout 0 fields) kind_record.

End RecordType.

Module TupleField.
Definition t : Type := TypedField.
Definition create (offset : Z) (type : GenericComponentModelType) : t :=
  {| type := type; offset := offset |}.
End TupleField.

Module TupleType.

Fixpoint layout (offset : Z) (fields : list GenericComponentModelType)
  : list TupleField.t :=
  match fields with
  | [] => []
  | type :: rest =>
      let offset := align offset (alignment type) in
      TupleField.create offset type :: layout (offset + size type) rest
  end.

Definition create (_fields : list TupleField.t) (values : list JType)
  : JType :=
  JArray values.

Definition elements (record : JType) (_fields : list TupleField.t)
  : Exn (list JType) :=
  match record with
  | JArray values => Ok values
  | _ => Throw TypeError
  end.

(** [new TupleType(fields)] *)
Definition new (fields : list GenericComponentModelType)
  : ComponentModelType :=
  BaseRecordType.new (fun f : TupleField.t => f) create elements
    (layout 0 fields) kind_tuple.

End TupleType.

(** *** flags *)

Module FlagField.
Record t : Type := {
  name : string;
  index : Z;
  mask : Z
}.
Definition create (name : string) (index : Z) (mask : Z) : t :=
  {| name := name; index := index; mask := mask |}.
End FlagField.

Inductive FlagsStorageType : Type := Empty | Single | Array.

(** [flags._bits] *)
Definition Js_bits (flags : JType) : JType :=
  match flags with
  | JSingleFlags _bits _ => _bits
  | JArrayFlags bits => JArray bits
  | _ => JUndefined
  end.

(** [bits[i] = v] inside the array's length *)
Fixpoint Js_setNth (bits : list JType) (i : nat) (v : JType) : list JType :=
  match bits, i with
  | [], _ => []
  | _ :: rest, O => v :: rest
  | b :: rest, S k => b :: Js_setNth rest k v
  end.

Module FlagsType.

(** [Math.ceil(fields / 32)] *)
Definition num32Flags_of (fields : Z) : Z := (fields + 31) / 32.

Definition size_of (fields : Z) : Z :=
  if fields =? 0 then 0
  else if fields <=? 8 then 1
  else if fields <=? 16 then 2
  else 4 * num32Flags_of fields.

Definition alignment_of (fields : Z) : Z :=
  if fields <=? 8 then 1
  else if fields <=? 16 then 2
  else 4.

(** [new Array(n).fill('i32')] *)
Definition flatTypes_of (fields : Z) : list wasmTypeName :=
  repeat i32 (Z.to_nat (num32Flags_of fields)).

Definition getType (size : Z)
  : FlagsStorageType * option GenericComponentModelType :=
  if size =? 0 then (Empty, None)
  else if size =? 1 then (Single, Some u8)
  else if size =? 2 then (Single, Some u16)
  else if size =? 4 then (Single, Some u32)
  else (Array, Some u32).

(** The private state of a [FlagsType] object. *)
Record t : Type := {
  fields : list FlagField.t;
  num32Flags : Z;
  type : FlagsStorageType * option GenericComponentModelType;
  size : Z;
  alignment : Z;
  flatTypes : list wasmTypeName
}.

Fixpoint makeFields (names : list string) (i : Z) : list FlagField.t :=
  match names with
  | [] => []
  | n :: rest =>
      FlagField.create n (Js.ushr i 5) (Js.shl 1 (Z.land i 31))
      :: makeFields rest (i + 1)
  end.

(** [new FlagsType(fields)] *)
Definition new (names : list string) : t :=
  let nr := Z.of_nat (List.length names) in
  let size := size_of nr in
  {| fields := makeFields names 0;
     num32Flags := num32Flags_of nr;
     type := getType size;
     size := size;
     alignment := alignment_of nr;
     flatTypes := flatTypes_of nr |}.

Definition createSingle (this : t) (bits : JType) : JType :=
  JSingleFlags bits bits.

Definition createArray (this : t) (bits : list JType) : JType :=
  JArrayFlags bits.

(** [flagsType.create()]; [new Array(n)] holds [n] holes. *)
Definition create (this : t) : JType :=
  match fst (type this) with
  | Empty => JEmptyFlags
  | Single => createSingle this (num 0)
  | Array =>
      createArray this (repeat JUndefined (Z.to_nat (num32Flags this)))
  end.

(** The accessor pair that [Object.defineProperties] installs under a
    name is the one of the last field declared with it. *)
Definition field (this : t) (name : string) : option FlagField.t :=
  find (fun f => String.eqb (FlagField.name f) name) (rev (fields this)).

(** [flags[name]]: the getter [(bits & field.mask) !== 0] *)
Definition get (this : t) (flags : JType) (name : string) : JType :=
  match field this name, flags with
  | Some f, JSingleFlags _ bits =>
      JBoolean (negb (Js.strictEquals
                        (Js.bitand bits (num (FlagField.mask f)))
                        (num 0)))
  | Some f, JArrayFlags bits =>
      JBoolean (negb (Js.strictEquals
                        (Js.bitand
                           (Js_nth bits (Z.to_nat (FlagField.index f)))
                           (num (FlagField.mask f)))
                        (num 0)))
  | _, _ => JUndefined
  end.

(** [flags[name] = newVal]: the setter updates the captured [bits]. *)
Definition set (this : t) (flags : JType) (name : string)
  (newVal : bool) : JType :=
  match field this name, flags with
  | Some f, JSingleFlags _bits bits =>
      JSingleFlags _bits
        (if newVal then Js.bitor bits (num (FlagField.mask f))
         else Js.bitand bits (Js.bitnot (num (FlagField.mask f))))
  | Some f, JArrayFlags bits =>
      let i := Z.to_nat (FlagField.index f) in
      JArrayFlags
        (Js_setNth bits i
           (if newVal then Js.bitor (Js_nth bits i) (num (FlagField.mask f))
            else Js.bitand (Js_nth bits i)
                   (Js.bitnot (num (FlagField.mask f)))))
  | _, _ => flags
  end.

(** The [(name, value)] pairs the getters expose, in declaration order. *)
Definition entries (this : t) (flags : JType) : list (string * JType) :=
  map (fun f => (FlagField.name f, get this flags (FlagField.name f)))
    (fields this).

Definition storageType (this : t) : Exn GenericComponentModelType :=
  match snd (type this) with
  | Some ty => Ok ty
  | None => Throw TypeError
  end.

Fixpoint loadWords (ty : ComponentModelType) (memory : Memory) (p : ptr)
  (options : Options) (n : nat) : Exn (list JType) :=
  match n with
  | O => Ok []
  | S k =>
      w <- load ty memory p options ;;
      rest <- loadWords ty memory (p + CMT.size ty)
                options k ;;
      Ok (w :: rest)
  end.

Definition load (this : t) (memory : Memory) (p : ptr) (options : Options)
  : Exn JType :=
  match fst (type this) with
  | Empty => Ok JEmptyFlags
  | Single =>
      ty <- storageType this ;;
      bits <- CMT.load ty memory p options ;;
      Ok (createSingle this bits)
  | Array =>
      ty <- storageType this ;;
      bits <- loadWords ty memory p options (Z.to_nat (num32Flags this)) ;;
      Ok (createArray this bits)
  end.

Fixpoint liftWords (ty : ComponentModelType) (memory : Memory)
  (values : FlatValuesIter) (options : Options) (n : nat)
  : Exn (list JType * FlatValuesIter) :=
  match n with
  | O => Ok ([], values)
  | S k =>
      '(w, values) <- liftFlat ty memory values options ;;
      '(rest, values) <- liftWords ty memory values options k ;;
      Ok (w :: rest, values)
  end.

Definition liftFlat (this : t) (memory : Memory) (values : FlatValuesIter)
  (options : Options) : Exn (JType * FlatValuesIter) :=
  match fst (type this) with
  | Empty => Ok (JEmptyFlags, values)
  | Single =>
      ty <- storageType this ;;
      '(bits, values) <-
        CMT.liftFlat ty memory values options ;;
      Ok (createSingle this bits, values)
  | Array =>
      ty <- storageType this ;;
      '(bits, values) <-
        liftWords ty memory values options (Z.to_nat (num32Flags this)) ;;
      Ok (createArray this bits, values)
  end.

Definition alloc (this : t) (memory : Memory) : ptr * Memory :=
  Memory_alloc memory (alignment this) (size this).

Fixpoint storeWords (ty : ComponentModelType) (memory : Memory) (p : ptr)
  (words : list JType) (options : Options) : Exn Memory :=
  match words with
  | [] => Ok memory
  | flag :: rest =>
      memory <- store ty memory p flag options ;;
      storeWords ty memory (p + CMT.size ty) rest options
  end.

(** [for (const flag of flags._bits)] *)
Definition iterable (v : JType) : Exn (list JType) :=
  match v with
  | JArray items => Ok items
  | _ => Throw TypeError
  end.

Definition store (this : t) (memory : Memory) (p : ptr) (flags : JType)
  (options : Options) : Exn Memory :=
  match fst (type this) with
  | Empty => Ok memory
  | Single =>
      ty <- storageType this ;;
      CMT.store ty memory p (Js_bits flags) options
  | Array =>
      ty <- storageType this ;;
      words <- iterable (Js_bits flags) ;;
      storeWords ty memory p words options
  end.

Fixpoint lowerWords (ty : ComponentModelType) (result : list wasmType)
  (memory : Memory) (words : list JType) (options : Options)
  : Exn (list wasmType * Memory) :=
  match words with
  | [] => Ok (result, memory)
  | flag :: rest =>
      '(result, memory) <- lowerFlat ty result memory flag options ;;
      lowerWords ty result memory rest options
  end.

Definition lowerFlat (this : t) (result : list wasmType) (memory : Memory)
  (flags : JType) (options : Options) : Exn (list wasmType * Memory) :=
  match fst (type this) with
  | Empty => Ok (result, memory)
  | Single =>
      ty <- storageType this ;;
      CMT.lowerFlat ty result memory (Js_bits flags)
        options
  | Array =>
      ty <- storageType this ;;
      words <- iterable (Js_bits flags) ;;
      lowerWords ty result memory words options
  end.

(** The object seen through [ComponentModelType]. *)
Definition asType (this : t) : ComponentModelType :=
  Build_ComponentModelType kind_flags (size this) (alignment this)
    (flatTypes this) (load this) (liftFlat this) (alloc this)
    (store this) (lowerFlat this).

End FlagsType.

(** *** variant *)

(** [variantValue.case] and [variantValue.value] *)
Definition Js_case (v : JType) : JType :=
  match v with
  | JVariantCase c _ | JOption c _ | JResult c _ => c
  | JRecord props => Js_getProp props "case"
  | _ => JUndefined
  end.

Definition Js_value (v : JType) : JType :=
  match v with
  | JVariantCase _ x | JOption _ x | JResult _ x => x
  | JRecord props => Js_getProp props "value"
  | _ => JUndefined
  end.

(** [cases[i]] for a number [i]; [undefined] is [None]. *)
Definition Js_at {A : Type} (l : list A) (i : JType) : option A :=
  match i with
  | JNumber (Int z) => if z <? 0 then None else nth_error l (Z.to_nat z)
  | _ => None
  end.

(** [Math.ceil(Math.log2(cases) / 8)] for the length of an array: the
    least [k] with [cases <= 2^(8k)], and [-Infinity] for no case at all.
    [Math.log2] is taken to be exact on powers of two. *)
Definition ceilLog2Over8 (cases : Z) : number :=
  if cases <? 0 then NaN
  else if cases =? 0 then NegInfinity
  else Int ((Z.log2_up cases + 7) / 8).

Module VariantCase.
Record t : Type := {
  index : Z;
  type : option GenericComponentModelType;
  wantFlatTypes : option (list wasmTypeName)
}.
Definition create (index : Z) (type : option GenericComponentModelType)
  : t :=
  {| index := index; type := type;
     wantFlatTypes := match type with Some _ => Some [] | None => None end
  |}.
End VariantCase.

Module VariantType.

Definition joinFlatType (a b : wasmTypeName) : wasmTypeName :=
  if wasmTypeName_eqb a b then a
  else if (wasmTypeName_eqb a i32 && wasmTypeName_eqb b f32)
          || (wasmTypeName_eqb a f32 && wasmTypeName_eqb b i32)
  then i32
  else i64.

Definition discriminantType (cases : Z) : Exn GenericComponentModelType :=
  match ceilLog2Over8 cases with
  | Int 0 => Ok u8
  | Int 1 => Ok u8
  | Int 2 => Ok u16
  | Int 3 => Ok u32
  | _ => Throw (ComponentModelError "Too many cases")
  end.

Definition maxCaseAlignment (cases : list VariantCase.t) : Z :=
  fold_left
    (fun result c =>
       match VariantCase.type c with
       | Some ty => Z.max result (alignment ty)
       | None => result
       end)
    cases 1.

Definition maxCaseSize (cases : list VariantCase.t) : Z :=
  fold_left
    (fun result c =>
       match VariantCase.type c with
       | Some ty => Z.max result (size ty)
       | None => result
       end)
    cases 0.

Definition size_of (discriminantType : GenericComponentModelType)
  (cases : list VariantCase.t) : Z :=
  let result := size discriminantType in
  let result := align result (maxCaseAlignment cases) in
  result + maxCaseSize cases.

Definition alignment_of (discriminantType : GenericComponentModelType)
  (cases : list VariantCase.t) : Z :=
  Z.max (alignment discriminantType) (maxCaseAlignment cases).

(** The inner loop of [flatTypes]: slot [i] of [flat] is joined with
    slot [i] of the case, and the slots [flat] lacks are appended. *)
Fixpoint joinInto (flat caseFlat : list wasmTypeName)
  : list wasmTypeName :=
  match flat, caseFlat with
  | f :: fs, want :: ws => joinFlatType f want :: joinInto fs ws
  | [], ws => ws
  | fs, [] => fs
  end.

(** [private static flatTypes(discriminantType, cases)]. The loop also
    pushes onto the [wantFlatTypes] of each case object; the objects are
    the ones the variant keeps in [this.cases], so the updated cases are
    returned along with the flat types. *)
Fixpoint flatLoop (flat : list wasmTypeName) (cases : list VariantCase.t)
  : list wasmTypeName * list VariantCase.t :=
  match cases with
  | [] => (flat, [])
  | c :: rest =>
      match VariantCase.type c with
      | None =>
          let '(flat, rest) := flatLoop flat rest in (flat, c :: rest)
      | Some ty =>
          let c' :=
            {| VariantCase.index := VariantCase.index c;
               VariantCase.type := VariantCase.type c;
               VariantCase.wantFlatTypes :=
                 match VariantCase.wantFlatTypes c with
                 | Some want => Some (want ++ flatTypes ty)
                 | None => None
                 end |} in
          let '(flat, rest) := flatLoop (joinInto flat (flatTypes ty)) rest
          in (flat, c' :: rest)
      end
  end.

Definition flatTypes_of (discriminantType : GenericComponentModelType)
  (cases : list VariantCase.t) : list wasmTypeName * list VariantCase.t :=
  let '(flat, cases) := flatLoop [] cases in
  (flatTypes discriminantType ++ flat, cases).

Record t : Type := {
  cases : list VariantCase.t;
  ctor : JType -> JType -> JType;
  discriminant : GenericComponentModelType;   (* this.discriminantType *)
  maxAlignment : Z;                           (* this.maxCaseAlignment *)
  kind : ComponentModelTypeKind;
  size : Z;
  alignment : Z;
  flatTypes : list wasmTypeName
}.

Fixpoint makeCases (variants : list (option GenericComponentModelType))
  (i : Z) : list VariantCase.t :=
  match variants with
  | [] => []
  | type :: rest => VariantCase.create i type :: makeCases rest (i + 1)
  end.

(** [new VariantType(variants, ctor, kind)] *)
Definition new (variants : list (option GenericComponentModelType))
  (ctor : JType -> JType -> JType) (kind : ComponentModelTypeKind)
  : Exn t :=
  let cases := makeCases variants 0 in
  discriminantType <-
    discriminantType (Z.of_nat (List.length cases)) ;;
  let '(flat, cases') := flatTypes_of discriminantType cases in
  Ok {| cases := cases';
        ctor := ctor;
        discriminant := discriminantType;
        maxAlignment := maxCaseAlignment cases;
        kind := kind;
        size := size_of discriminantType cases;
        alignment := alignment_of discriminantType cases;
        flatTypes := flat |}.

(** [this.cases[caseIndex]], whose members are then read: an index
    outside the array is a TypeError at the first member access. *)
Definition caseAt (this : t) (caseIndex : JType) : Exn VariantCase.t :=
  match Js_at (cases this) caseIndex with
  | Some c => Ok c
  | None => Throw TypeError
  end.

Definition load (this : t) (memory : Memory) (p : ptr) (options : Options)
  : Exn JType :=
  caseIndex <- CMT.load (discriminant this) memory p options ;;
  let p := p + CMT.size (discriminant this) in
  caseVariant <- caseAt this caseIndex ;;
  match VariantCase.type caseVariant with
  | None => Ok (ctor this caseIndex JUndefined)
  | Some ty =>
      let p := align p (maxAlignment this) in
      value <- CMT.load ty memory p options ;;
      Ok (ctor this caseIndex value)
  end.

(** [for (let i = 0; i < n; i++) { values.next(); }] *)
Definition readOver (n : Z) (values : FlatValuesIter)
  : Exn FlatValuesIter :=
  forLoop n (fun values => '(_, values) <- next values ;; Ok values)
    values.

Definition wantOf (c : VariantCase.t) : Exn (list wasmTypeName) :=
  match VariantCase.wantFlatTypes c with
  | Some want => Ok want
  | None => Throw TypeError
  end.

Definition liftFlat (this : t) (memory : Memory) (values : FlatValuesIter)
  (options : Options) : Exn (JType * FlatValuesIter) :=
  let valuesToReadOver := Z.of_nat (List.length (flatTypes this)) - 1 in
  '(caseIndex, values) <-
    CMT.liftFlat (discriminant this) memory values options ;;
  caseVariant <- caseAt this caseIndex ;;
  '(result, values, valuesToReadOver) <-
    match VariantCase.type caseVariant with
    | None => Ok (ctor this caseIndex JUndefined, values, valuesToReadOver)
    | Some ty =>
        wantFlatTypes <- wantOf caseVariant ;;
        iter <- new_CoerceValueIter values (skipn 1 (flatTypes this))
                  wantFlatTypes ;;
        '(value, iter) <- CMT.liftFlat ty memory iter options ;;
        Ok (ctor this caseIndex value, underlying iter,
            valuesToReadOver - Z.of_nat (List.length wantFlatTypes))
    end ;;
  values <- readOver valuesToReadOver values ;;
  Ok (result, values).

Definition alloc (this : t) (memory : Memory) : ptr * Memory :=
  Memory_alloc memory (alignment this) (size this).

Definition store (this : t) (memory : Memory) (p : ptr)
  (variantValue : JType) (options : Options) : Exn Memory :=
  memory <- CMT.store (discriminant this) memory p (Js_case variantValue)
              options ;;
  let p := p + CMT.size (discriminant this) in
  c <- caseAt this (Js_case variantValue) ;;
  match VariantCase.type c with
  | Some ty =>
      if negb (Js.isUndefined (Js_value variantValue))
      then
        let p := align p (maxAlignment this) in
        CMT.store ty memory p (Js_value variantValue) options
      else Ok memory
  | None => Ok memory
  end.

Definition coerce (have want : wasmTypeName) (v : JType) : Exn JType :=
  match have, want with
  | f32, i32 => WasmTypes.reinterpret_f32_as_i32 v
  | i32, i64 => WasmTypes.convert_i32_to_i64 v
  | f32, i64 => WasmTypes.reinterpret_f32_as_i64 v
  | f64, i64 => WasmTypes.reinterpret_f64_as_i64 v
  | _, _ => Ok v
  end.

(** The coercion loop over [i < wantTypes.length]; a slot beyond
    [haveTypes] has no [have] type and is left alone. *)
Fixpoint coercePayload (payload : list JType)
  (haveTypes wantTypes : list wasmTypeName) : Exn (list JType) :=
  match wantTypes, haveTypes, payload with
  | want :: ws, have :: hs, v :: vs =>
      v <- coerce have want v ;;
      vs <- coercePayload vs hs ws ;;
      Ok (v :: vs)
  | _, _, _ => Ok payload
  end.

(** The zeros pushed for the flat types from index [start] on. *)
Definition padding (flatTypes : list wasmTypeName) (start : Z)
  : list wasmType :=
  map (fun type =>
         if wasmTypeName_eqb type i64 then JBigInt 0 else num 0)
    (skipn (Z.to_nat start) flatTypes).

Definition lowerFlat (this : t) (result : list wasmType) (memory : Memory)
  (variantValue : JType) (options : Options)
  : Exn (list wasmType * Memory) :=
  let flatTypes := flatTypes this in
  '(result, memory) <-
    CMT.lowerFlat (discriminant this) result memory (Js_case variantValue)
      options ;;
  c <- caseAt this (Js_case variantValue) ;;
  let valuesToFill := Z.of_nat (List.length flatTypes) - 1 in
  '(result, memory, valuesToFill) <-
    match VariantCase.type c with
    | Some ty =>
        if negb (Js.isUndefined (Js_value variantValue))
        then
          '(payload, memory) <-
            CMT.lowerFlat ty [] memory (Js_value variantValue) options ;;
          let wantTypes := skipn 1 flatTypes in
          haveTypes <- wantOf c ;;
          if negb (List.length payload =? List.length haveTypes)%nat
          then Throw (ComponentModelError "Mismatched flat types")
          else
            payload <- coercePayload payload haveTypes wantTypes ;;
            Ok (result ++ payload, memory,
                valuesToFill - Z.of_nat (List.length payload))
        else Ok (result, memory, valuesToFill)
    | None => Ok (result, memory, valuesToFill)
    end ;;
  Ok (result
        ++ padding flatTypes
             (Z.of_nat (List.length flatTypes) - valuesToFill),
      memory).

Definition asType (this : t) : ComponentModelType :=
  Build_ComponentModelType (kind this) (size this) (alignment this)
    (flatTypes this) (load this) (liftFlat this) (alloc this)
    (store this) (lowerFlat this).

End VariantType.

(** *** enum *)

Module EnumType.

Definition discriminantType (cases : Z) : Exn ComponentModelType :=
  match ceilLog2Over8 cases with
  | Int 0 => Ok u8
  | Int 1 => Ok u8
  | Int 2 => Ok u16
  | Int 3 => Ok u32
  | _ => Throw (ComponentModelError "Too many cases")
  end.

Record t : Type := {
  discriminant : ComponentModelType;     (* this.discriminantType *)
  cases : Z
}.

(** [new EnumType(cases)] *)
Definition new (cases : Z) : Exn t :=
  discriminantType <- discriminantType cases ;;
  Ok {| discriminant := discriminantType; cases := cases |}.

Definition assertRange (this : t) (value : JType) : Exn JType :=
  if Js.lt value (num 0) || Js.gt value (num (cases this))
  then Throw (ComponentModelError "Enumeration value out of range")
  else Ok value.

Definition load (this : t) (memory : Memory) (p : ptr) (options : Options)
  : Exn JType :=
  v <- load (discriminant this) memory p options ;;
  assertRange this v.

Definition liftFlat (this : t) (memory : Memory) (values : FlatValuesIter)
  (options : Options) : Exn (JType * FlatValuesIter) :=
  '(v, values) <- liftFlat (discriminant this) memory values options ;;
  v <- assertRange this v ;;
  Ok (v, values).

Definition alloc (this : t) (memory : Memory) : ptr * Memory :=
  Memory_alloc memory (alignment (discriminant this))
    (size (discriminant this)).

Definition store (this : t) (memory : Memory) (p : ptr) (value : JType)
  (options : Options) : Exn Memory :=
  store (discriminant this) memory p value options.

Definition lowerFlat (this : t) (result : list wasmType) (memory : Memory)
  (value : JType) (options : Options) : Exn (list wasmType * Memory) :=
  lowerFlat (discriminant this) result memory value options.

Definition asType (this : t) : ComponentModelType :=
  Build_ComponentModelType kind_enum
    (size (discriminant this)) (alignment (discriminant this))
    (flatTypes (discriminant this))
    (load this) (liftFlat this) (alloc this) (store this)
    (lowerFlat this).

End EnumType.

(** *** option *)

Module option_.
Definition none : JType := num 0.
Definition some : JType := num 1.

(** [new OptionImpl(c, v)] *)
Definition _ctor (c : JType) (v : JType) : JType := JOption c v.
Definition _none : JType := JOption none JUndefined.
Definition _some (value : JType) : JType := JOption some value.

(** [value instanceof OptionImpl] *)
Definition isOption (value : JType) : bool :=
  match value with JOption _ _ => true | _ => false end.
End option_.

Module OptionType.

Section Methods.

Variable valueType : GenericComponentModelType.

Definition computeSize : Z :=
  let result := size u8 in
  let result := align result (alignment valueType) in
  result + size valueType.

Definition computeAlignment : Z :=
  Z.max (alignment u8) (alignment valueType).

Definition computeFlatTypes : list wasmTypeName :=
  flatTypes u8 ++ flatTypes valueType.

Definition load (memory : Memory) (p : ptr) (options : Options)
  : Exn JType :=
  caseIndex <- load u8 memory p options ;;
  if Js.strictEquals caseIndex option_.none
  then Ok (if keepOption_set options
           then option_._ctor option_.none JUndefined
           else JUndefined)
  else
    let p := p + size u8 in
    let p := align p computeAlignment in
    value <- load valueType memory p options ;;
    Ok (if keepOption_set options
        then option_._ctor option_.some value
        else value).

Definition liftFlat (memory : Memory) (values : FlatValuesIter)
  (options : Options) : Exn (JType * FlatValuesIter) :=
  '(caseIndex, values) <- liftFlat u8 memory values options ;;
  if Js.strictEquals caseIndex option_.none
  then
    values <-
      forLoop (Z.of_nat (List.length (flatTypes valueType)))
        (fun values => '(_, values) <- next values ;; Ok values)
        values ;;
    Ok (if keepOption_set options
        then option_._ctor option_.none JUndefined
        else JUndefined, values)
  else
    '(value, values) <- liftFlat valueType memory values options ;;
    Ok (if keepOption_set options
        then option_._ctor option_.some value
        else value, values).

Definition alloc (memory : Memory) : ptr * Memory :=
  Memory_alloc memory computeAlignment computeSize.

Definition asOptionValue (value : JType) (options : Options)
  : Exn JType :=
  if option_.isOption value
  then
    if negb (keepOption_set options)
    then Throw (ComponentModelError
      "Received an option value although options should be unpacked.")
    else Ok value
  else
    if keepOption_set options
    then Throw (ComponentModelError
      "Received a unpacked option value although options should NOT be unpacked.")
    else Ok (if Js.isUndefined value
             then option_._ctor option_.none JUndefined
             else option_._ctor option_.some value).

Definition store (memory : Memory) (p : ptr) (value : JType)
  (options : Options) : Exn Memory :=
  optValue <- asOptionValue value options ;;
  memory <- store u8 memory p (Js_case optValue) options ;;
  let p := p + size u8 in
  if Js.strictEquals (Js_case optValue) option_.some
  then
    let p := align p (alignment valueType) in
    store valueType memory p (Js_value optValue) options
  else Ok memory.

Definition lowerFlat (result : list wasmType) (memory : Memory)
  (value : JType) (options : Options) : Exn (list wasmType * Memory) :=
  optValue <- asOptionValue value options ;;
  '(result, memory) <-
    lowerFlat u8 result memory (Js_case optValue) options ;;
  if Js.strictEquals (Js_case optValue) option_.none
  then
    Ok (result
          ++ map (fun type =>
                    if wasmTypeName_eqb type i64 then JBigInt 0
                    else num 0)
               (flatTypes valueType),
        memory)
  else lowerFlat valueType result memory (Js_value optValue) options.

End Methods.

(** [new OptionType(valueType)] *)
Definition new (valueType : GenericComponentModelType)
  : ComponentModelType :=
  Build_ComponentModelType kind_option
    (computeSize valueType) (computeAlignment valueType)
    (computeFlatTypes valueType)
    (load valueType) (liftFlat valueType) (alloc valueType)
    (store valueType) (lowerFlat valueType).

End OptionType.

(** *** result *)

Module result_.
Definition ok : JType := num 0.
Definition error : JType := num 1.
(** [new ResultImpl(c, v)] *)
Definition _ctor (c : JType) (v : JType) : JType := JResult c v.
Definition _ok (value : JType) : JType := JResult ok value.
Definition _error (value : JType) : JType := JResult error value.
End result_.

Module ResultType.
(** [new ResultType(okType, errorType)] *)
Definition new (okType errorType : option GenericComponentModelType)
  : Exn VariantType.t :=
  VariantType.new [okType; errorType] result_._ctor kind_result.
End ResultType.

(* ================================================================== *)
(** ** Functions *)

Definition CallableParameter : Type := (string * GenericComponentModelType)%type.

(** A native implementation, called with the lifted parameters. *)
Definition ServiceFunction : Type := list JType -> Exn JType.

(** A guest function, called with the flat values; it may write to the
    linear memory. Its result is [undefined] when it returns nothing. *)
Definition WasmFunction : Type :=
  list wasmType -> Memory -> Exn (JType * Memory).

Module FunctionType.

Definition MAX_FLAT_PARAMS : Z := 16.
Definition MAX_FLAT_RESULTS : Z := 1.

Record t : Type := {
  name : string;
  witName : string;
  params : list CallableParameter;
  paramTupleType : ComponentModelType;
  returnType : option GenericComponentModelType;
  paramFlatTypes : Z;
  returnFlatTypes : Z
}.

(** [new FunctionType(name, witName, params, returnType)] *)
Definition new (name witName : string) (params : list CallableParameter)
  (returnType : option GenericComponentModelType) : t :=
  {| name := name;
     witName := witName;
     params := params;
     paramTupleType := TupleType.new (map snd params);
     returnType := returnType;
     paramFlatTypes :=
       fold_left
         (fun n param => n + Z.of_nat (List.length (flatTypes (snd param))))
         params 0;
     returnFlatTypes :=
       match returnType with
       | Some ty => Z.of_nat (List.length (flatTypes ty))
       | None => 0
       end |}.

(** [this.returnType!] *)
Definition theReturnType (this : t) : Exn GenericComponentModelType :=
  match returnType this with
  | Some ty => Ok ty
  | None => Throw TypeError
  end.

Definition liftParamValues (this : t) (wasmValues : list wasmType)
  (memory : Memory) (options : Options) : Exn JType :=
  if MAX_FLAT_PARAMS <? paramFlatTypes this
  then
    let p0 := Js_nth wasmValues 0 in
    if negb (Js.isInteger p0)
    then Throw (ComponentModelError "Invalid pointer")
    else
      p <- asIndex p0 ;;
      load (paramTupleType this) memory p options
  else
    '(v, _) <- liftFlat (paramTupleType this) memory
                 (Array_values wasmValues) options ;;
    Ok v.

Definition liftReturnValue (this : t) (value : JType) (memory : Memory)
  (options : Options) : Exn JType :=
  if returnFlatTypes this =? 0 then Ok JUndefined
  else if returnFlatTypes this <=? MAX_FLAT_RESULTS
  then
    type <- theReturnType this ;;
    '(v, _) <- liftFlat type memory (Array_values [value]) options ;;
    Ok v
  else
    type <- theReturnType this ;;
    p <- asIndex value ;;
    load type memory p options.

Definition lowerParamValues (this : t) (values : JType) (memory : Memory)
  (options : Options) (out : JType) : Exn (list wasmType * Memory) :=
  if MAX_FLAT_PARAMS <? paramFlatTypes this
  then
    '(p, memory) <-
      (if negb (Js.isUndefined out)
       then p <- asIndex out ;; Ok (p, memory)
       else Ok (Memory_alloc memory (alignment (paramTupleType this))
                  (size (paramTupleType this)))) ;;
    memory <- store (paramTupleType this) memory p values options ;;
    Ok ([num p], memory)
  else
    lowerFlat (paramTupleType this) [] memory values options.

Definition lowerReturnValue (this : t) (value : JType) (memory : Memory)
  (options : Options) (out : JType) : Exn (JType * Memory) :=
  if returnFlatTypes this =? 0 then Ok (JUndefined, memory)
  else if returnFlatTypes this <=? MAX_FLAT_RESULTS
  then
    type <- theReturnType this ;;
    '(result, memory) <- lowerFlat type [] memory value options ;;
    if negb (List.length result =? 1)%nat
    then Throw (ComponentModelError "Invalid result")
    else Ok (Js_nth result 0, memory)
  else
    type <- theReturnType this ;;
    '(p, memory) <-
      (if negb (Js.isUndefined out)
       then p <- asIndex out ;; Ok (p, memory)
       else Ok (Memory_alloc memory (alignment type) (size type))) ;;
    memory <- store type memory p value options ;;
    Ok (JUndefined, memory).

(** [serviceFunction(...jParams)] *)
Definition spread (jParams : JType) : Exn (list JType) :=
  match jParams with
  | JArray items => Ok items
  | _ => Throw TypeError
  end.

Definition callService (this : t) (params : list wasmType)
  (serviceFunction : ServiceFunction) (memory : Memory)
  (options : Options) : Exn (JType * Memory) :=
  if (MAX_FLAT_RESULTS <? returnFlatTypes this)
     && negb (Z.of_nat (List.length params) =? paramFlatTypes this + 1)
  then Throw (ComponentModelError "Invalid number of parameters.")
  else
    jParams <- liftParamValues this params memory options ;;
    args <- spread jParams ;;
    result <- serviceFunction args ;;
    let out :=
      match List.length params with
      | O => JUndefined                    (* params[-1] *)
      | S k => Js_nth params k
      end in
    if negb (Js.typeofNumber out)
    then Throw (ComponentModelError
                  "Result pointer must be a number (u32)")
    else lowerReturnValue this result memory options out.

Definition callWasm (this : t) (params : JType)
  (wasmFunction : WasmFunction) (memory : Memory) (options : Options)
  : Exn (JType * Memory) :=
  '(wasmValues, memory) <-
    lowerParamValues this params memory options JUndefined ;;
  '(resultPtr, wasmValues, memory) <-
    (if MAX_FLAT_RESULTS <? returnFlatTypes this
     then
       type <- theReturnType this ;;
       let '(p, memory) :=
         Memory_alloc memory (alignment type) (size type) in
       Ok (num p, push wasmValues (num p), memory)
     else Ok (JUndefined, wasmValues, memory)) ;;
  '(result, memory) <- wasmFunction wasmValues memory ;;
  if returnFlatTypes this =? 0 then Ok (JUndefined, memory)
  else if returnFlatTypes this =? 1 then Ok (result, memory)
  else
    v <- liftReturnValue this resultPtr memory options ;;
    Ok (v, memory).

End FunctionType.

(* ================================================================== *)
(** ** A concrete linear memory

    One page (64 KiB) of zeros whose allocator hands out increasing
    addresses from 1024 on, aligned as requested. *)

Definition bumpAlloc (align size heap : Z) : ptr * Z :=
  let p := ((heap + align - 1) / align) * align in
  (p, p + size).

Definition emptyMemory : Memory := {|
  raw := fun _ => 0;
  byteLength := 65536;
  heap := 1024;
  allocHook := bumpAlloc
|}.

Definition utf8 : Options := {| encoding := utf_8; keepOption := None |}.
Definition utf16 : Options := {| encoding := utf_16; keepOption := None |}.

(** [value] with its bytes in the opposite order, on [n] bytes. *)
Definition byteSwap (n : nat) (value : Z) : Z :=
  fromLE (rev (toLE n value)).

(** The 26 flags [a] to [z] of the flags scenario. *)
Definition alphabet : list string :=
  ["a"; "b"; "c"; "d"; "e"; "f"; "g"; "h"; "i"; "j"; "k"; "l"; "m";
   "n"; "o"; "p"; "q"; "r"; "s"; "t"; "u"; "v"; "w"; "x"; "y"; "z"]%string.

(** The names whose getter answers [true]. *)
Definition flagsSet (this : FlagsType.t) (flags : JType) : list string :=
  map fst
    (filter (fun e => Js.strictEquals (snd e) (JBoolean true))
       (FlagsType.entries this flags)).

(** A guest function that ignores its arguments and returns [v]. *)
Definition guestReturning (v : JType) : WasmFunction :=
  fun _ memory => Ok (v, memory).

(** The sum of the sizes of the fields, without any padding. *)
Definition sumOfSizes (fields : list TypedField) : Z :=
  fold_right (fun field total => size (type field) + total) 0 fields.

Definition maxAlignment (fields : list TypedField) : Z :=
  fold_right (fun field m => Z.max (alignment (type field)) m) 1 fields.

Definition concatFlatTypes (fields : list TypedField) : list wasmTypeName :=
  flat_map (fun field => flatTypes (type field)) fields.

(** Offsets assigned in declaration order, each rounded up to the
    alignment of its field, starting at [start]. *)
Fixpoint offsetsFrom (start : Z) (types : list ComponentModelType) : list Z :=
  match types with
  | [] => []
  | ty :: rest =>
      align start (alignment ty)
      :: offsetsFrom (align start (alignment ty) + size ty) rest
  end.

(* ================================================================== *)
(** ** The lower/lift round trip: what is promised, and for which values *)

(** [reads it vs it']: calling [next] on [it] once per element of [vs]
    yields exactly these values, none of them the final one, and leaves
    the iterator as [it']. *)
Inductive reads : FlatValuesIter -> list wasmType -> FlatValuesIter -> Prop :=
| reads_nil (it : FlatValuesIter) : reads it [] it
| reads_cons (it it1 it2 : FlatValuesIter) (v : wasmType)
    (vs : list wasmType) :
    next it = Ok ({| done := false; value := v |}, it1) ->
    reads it1 vs it2 ->
    reads it (v :: vs) it2.


(** The numbers that a binary32 (binary64) cell holds exactly. *)
Definition isFloat32 (x : number) : Prop :=
  0 <= Ieee.float32ToBits x < 2 ^ 32
  /\ Ieee.bitsToFloat32 (Ieee.float32ToBits x) = x.

Definition isFloat64 (x : number) : Prop :=
  0 <= Ieee.float64ToBits x < 2 ^ 64
  /\ Ieee.bitsToFloat64 (Ieee.float64ToBits x) = x.

(** What a flat slot of each wasm type holds. *)
Definition slotHolds (t : wasmTypeName) (v : wasmType) : Prop :=
  match t with
  | i32 => exists z, v = num z /\ - 2 ^ 31 <= z < 2 ^ 32
  | i64 => exists z, v = JBigInt z
  | f32 => exists x, v = JNumber x /\ isFloat32 x
  | f64 => exists x, v = JNumber x /\ isFloat64 x
  end.


(** [widens h j]: a slot of type [h] can be carried in a slot of type
    [j] (the pairs the variant's lowering converts, and equality). *)
Definition widens (h j : wasmTypeName) : bool :=
  match h, j with
  | i32, i32 | i64, i64 | f32, f32 | f64, f64 => true
  | f32, i32 | i32, i64 | f32, i64 | f64, i64 => true
  | _, _ => false
  end.

(** [fits want flat]: slot by slot, the types [want] of a case can be
    carried in the first slots of [flat]. *)
Fixpoint fits (want flat : list wasmTypeName) : Prop :=
  match want, flat with
  | [], _ => True
  | h :: hs, j :: js => widens h j = true /\ fits hs js
  | _ :: _, [] => False
  end.


(** The zero a variant or an option pushes for an unused slot. *)
Definition zeroOf (type : wasmTypeName) : wasmType :=
  if wasmTypeName_eqb type i64 then JBigInt 0 else num 0.

(** [for (let i = 0; i < n; i++) body] by counting. *)
Fixpoint iterateN {S : Type} (body : S -> Exn S) (n : nat) (s : S) : Exn S :=
  match n with
  | O => Ok s
  | S k => s <- body s ;; iterateN body k s
  end.

(** The strengthened form used for composing descriptors: lowering
    appends to any sink without touching the memory, every pushed value
    suits its slot, and lifting works from any iterator that yields the
    pushed values, in any memory. *)
Definition Marshals (T : ComponentModelType) (o : Options) (v : JType)
  : Prop :=
  forall (result : list wasmType) (memory : Memory),
  exists vals : list wasmType,
    lowerFlat T result memory v o = Ok (result ++ vals, memory)
    /\ Forall2 slotHolds (flatTypes T) vals
    /\ forall (memory' : Memory) (it it' : FlatValuesIter),
        reads it vals it' -> liftFlat T memory' it o = Ok (v, it').



(* ================================================================== *)
(** ** Typed arrays, memory framing and the store/load round trip *)

Unset Implicit Arguments.

(** [sameOutside m m' p n]: [m'] is [m] but for the [n] bytes at [p]. *)
Definition sameOutside (m m' : Memory) (p n : Z) : Prop :=
  byteLength m' = byteLength m
  /\ heap m' = heap m
  /\ allocHook m' = allocHook m
  /\ forall a, a < p \/ p + n <= a -> raw m' a = raw m a.

(** [agreeOn m m' p n]: two memories of one length with the same [n]
    bytes at [p]. *)
Definition agreeOn (m m' : Memory) (p n : Z) : Prop :=
  byteLength m' = byteLength m
  /\ forall a, p <= a < p + n -> raw m' a = raw m a.

(** [StoredAs T o v w n]: storing [v] at an aligned pointer with [n]
    bytes available succeeds, writes within these bytes only, and
    loading from any memory that holds the bytes written gives [w]. *)
Definition StoredAs (T : ComponentModelType) (o : Options)
  (v w : JType) (n : Z) : Prop :=
  forall (m : Memory) (p : ptr),
    0 <= p -> p mod alignment T = 0 -> p + n <= byteLength m ->
    exists m' : Memory,
      store T m p v o = Ok m'
      /\ sameOutside m m' p n
      /\ forall m'' : Memory,
          agreeOn m' m'' p n -> load T m'' p o = Ok w.

(** The same at any pointer, aligned or not. *)
Definition StoredAsAnywhere (T : ComponentModelType) (o : Options)
  (v w : JType) (n : Z) : Prop :=
  forall (m : Memory) (p : ptr),
    0 <= p -> p + n <= byteLength m ->
    exists m' : Memory,
      store T m p v o = Ok m'
      /\ sameOutside m m' p n
      /\ forall m'' : Memory,
          agreeOn m' m'' p n -> load T m'' p o = Ok w.

(** [type alignment = 1 | 2 | 4 | 8] *)
Definition alignmentOk (T : ComponentModelType) : Prop :=
  In (alignment T) [1; 2; 4; 8].

(** The value of [offset] when the loop of the record or tuple
    constructor ends. *)
Fixpoint layoutEnd (offset : Z) (types : list ComponentModelType) : Z :=
  match types with
  | [] => offset
  | ty :: rest => layoutEnd (align offset (alignment ty) + size ty) rest
  end.

(** A value that is stored within the [size] of its descriptor and
    loaded back, for a descriptor of a legal alignment. *)
Definition Confined (o : Options) (T : ComponentModelType) (v : JType)
  : Prop :=
  StoredAs T o v v (size T) /\ alignmentOk T /\ 0 <= size T.

(** The types of the cases of a variant. *)
Definition caseTypesOk (variants : list (option GenericComponentModelType))
  : Prop :=
  Forall (fun c => match c with
                   | Some U => alignmentOk U /\ 0 <= size U
                   | None => True
                   end) variants.


(** [Storable o T v n]: the descriptors and values for which the
    store/load round trip is promised, with the number [n] of bytes the
    value takes from its pointer on. These are the scalar descriptors on
    the values of their range, enumerations, and options, variants,
    tuples and records over such descriptors. A tuple or record takes
    the bytes up to the end of its last field ([layoutEnd], which counts
    the padding that [size] leaves out); as a field, a case payload or
    an option payload a value must fit into the [size] of its
    descriptor. Strings and lists are not in the domain: [load] misreads
    the header that [store] writes. *)
Inductive Storable (o : Options)
  : ComponentModelType -> JType -> Z -> Prop :=
| st_bool (b : bool) : Storable o bool_ (JBoolean b) 1
| st_u8 (z : Z) : 0 <= z <= 255 -> Storable o u8 (num z) 1
| st_u16 (z : Z) : 0 <= z <= 65535 -> Storable o u16 (num z) 2
| st_u32 (z : Z) : 0 <= z <= 4294967295 -> Storable o u32 (num z) 4
| st_u64 (z : Z) :
    0 <= z <= 18446744073709551615 -> Storable o u64 (JBigInt z) 8
| st_s8 (z : Z) : -128 <= z <= 127 -> Storable o s8 (num z) 1
| st_s16 (z : Z) : -32768 <= z <= 32767 -> Storable o s16 (num z) 2
| st_s32 (z : Z) :
    -2147483648 <= z <= 2147483647 -> Storable o s32 (num z) 4
| st_s64 (z : Z) :
    -9223372036854775808 <= z <= 9223372036854775807 ->
    Storable o s64 (JBigInt z) 8
| st_float32 (x : number) : isFloat32 x -> Storable o float32 (JNumber x) 4
| st_float64 (x : number) : isFloat64 x -> Storable o float64 (JNumber x) 8
| st_char (c : Z) :
    0 <= c <= 55295 \/ 57344 <= c <= 65535 ->
    Storable o wchar (JString [c]) 4
| st_enum (cases : Z) (e : EnumType.t) (v : Z) :
    EnumType.new cases = Ok e ->
    0 <= v < cases ->
    Storable o (EnumType.asType e) (num v) (size (EnumType.asType e))
| st_option_none (T : ComponentModelType) :
    keepOption_set o = false ->
    alignmentOk T -> 0 <= size T ->
    Storable o (OptionType.new T) JUndefined (size (OptionType.new T))
| st_option_some (T : ComponentModelType) (v : JType) :
    keepOption_set o = false ->
    Storable o T v (size T) ->
    v <> JUndefined ->
    option_.isOption v = false ->
    Storable o (OptionType.new T) v (size (OptionType.new T))
| st_option_kept_none (T : ComponentModelType) :
    keepOption_set o = true ->
    alignmentOk T -> 0 <= size T ->
    Storable o (OptionType.new T) option_._none (size (OptionType.new T))
| st_option_kept_some (T : ComponentModelType) (v : JType) :
    keepOption_set o = true ->
    Storable o T v (size T) ->
    Storable o (OptionType.new T) (option_._some v)
      (size (OptionType.new T))
| st_variant (variants : list (option GenericComponentModelType))
    (ctor : JType -> JType -> JType) (kind : ComponentModelTypeKind)
    (V : VariantType.t) (i : nat) (T : ComponentModelType) (v : JType) :
    VariantType.new variants ctor kind = Ok V ->
    (forall c x, Js_case (ctor c x) = c /\ Js_value (ctor c x) = x) ->
    caseTypesOk variants ->
    nth_error variants i = Some (Some T) ->
    Storable o T v (size T) ->
    v <> JUndefined ->
    Storable o (VariantType.asType V) (ctor (num (Z.of_nat i)) v)
      (size (VariantType.asType V))
| st_variant_bare (variants : list (option GenericComponentModelType))
    (ctor : JType -> JType -> JType) (kind : ComponentModelTypeKind)
    (V : VariantType.t) (i : nat) :
    VariantType.new variants ctor kind = Ok V ->
    (forall c x, Js_case (ctor c x) = c /\ Js_value (ctor c x) = x) ->
    caseTypesOk variants ->
    nth_error variants i = Some None ->
    Storable o (VariantType.asType V) (ctor (num (Z.of_nat i)) JUndefined)
      (size (VariantType.asType V))
| st_tuple (types : list ComponentModelType) (vs : list JType) :
    StorableFields o types vs ->
    Storable o (TupleType.new types) (JArray vs) (layoutEnd 0 types)
| st_record (fields : list (string * GenericComponentModelType))
    (vs : list JType) :
    NoDup (map fst fields) ->
    StorableFields o (map snd fields) vs ->
    Storable o (RecordType.new fields)
      (JRecord (combine (map fst fields) vs))
      (layoutEnd 0 (map snd fields))
| st_within (T : ComponentModelType) (v : JType) (n n' : Z) :
    Storable o T v n -> n <= n' -> Storable o T v n'
with StorableFields (o : Options)
  : list ComponentModelType -> list JType -> Prop :=
| sts_nil : StorableFields o [] []
| sts_cons (T : ComponentModelType) (v : JType)
    (types : list ComponentModelType) (vs : list JType) :
    Storable o T v (size T) ->
    StorableFields o types vs ->
    StorableFields o (T :: types) (v :: vs).

Scheme Storable_mut := Minimality for Storable Sort Prop
  with StorableFields_mut := Minimality for StorableFields Sort Prop.


(** An integral number between [lo] and [hi]. *)
Definition integerIn (lo hi : Z) (v : JType) : bool :=
  match v with
  | JNumber (Int z) => (lo <=? z) && (z <=? hi)
  | _ => false
  end.

(** The integer under a value that [integerIn] accepts. *)
Definition integerOf (v : JType) : Z :=
  match v with
  | JNumber (Int z) => z
  | _ => 0
  end.

(** The scalar descriptors that take a number, and those that take a
    bigint. *)
Definition numberScalars : list ComponentModelType :=
  [u8; u16; u32; s8; s16; s32; float32; float64].

Definition bigintScalars : list ComponentModelType := [u64; s64].

(** The flat types of the cases that carry a payload, in order. *)
Definition caseFlatTypes
  (variants : list (option GenericComponentModelType))
  : list (list wasmTypeName) :=
  flat_map (fun c => match c with
                     | Some ty => [flatTypes ty]
                     | None => []
                     end) variants.

(** Fields laid out one after the other from [from] on: each starts at
    or after the end of the one before it, at a multiple of its
    alignment. *)
Fixpoint laidOut (from : Z) (fields : list TypedField) : Prop :=
  match fields with
  | [] => True
  | f :: rest =>
      from <= offset f
      /\ offset f mod alignment (type f) = 0
      /\ laidOut (offset f + size (type f)) rest
  end.

(** A tuple whose first field is a tuple with padding inside: the
    inner tuple has size 5 (1 + 4) and its [u32] lies at offset 4, so
    the last field is put at offset 5. *)
Definition paddedInside : ComponentModelType :=
  TupleType.new [TupleType.new [u8; u32]; u8].

(** The range of the results of the bitwise operators. *)
Definition isInt32 (x : Z) : Prop := - 2 ^ 31 <= x < 2 ^ 31.

(** The value a flags descriptor hands out or takes in: no property at
    all without flags, a number of bits up to 32 flags, an array of
    32-bit words beyond. *)
Definition flagsShape (this : FlagsType.t) (flags : JType) : Prop :=
  match fst (FlagsType.type this) with
  | Empty => flags = JEmptyFlags
  | Single => exists _bits bits, flags = JSingleFlags _bits bits
  | Array =>
      exists words,
        flags = JArrayFlags words
        /\ List.length words = Z.to_nat (FlagsType.num32Flags this)
  end.

(** The word after a setter ran on it. *)
Definition wordAfterSet (word : JType) (mask : Z) (newVal : bool) : JType :=
  if newVal then Js.bitor word (num mask)
  else Js.bitand word (Js.bitnot (num mask)).

(** *** Typed arrays

    The ten subclasses of [TypeArrayType] marshal a JavaScript typed
    array. A typed array is a view of [length] elements on a buffer: on
    the buffer of the linear memory, from [byteOffset] on (what
    [loadFromRange] returns: the elements are those the memory holds
    when they are read), or on a buffer of its own, given by its
    bytes. *)

Inductive TypedArrayKind : Type :=
| Int8Array | Int16Array | Int32Array | BigInt64Array
| Uint8Array | Uint16Array | Uint32Array | BigUint64Array
| Float32Array | Float64Array.

Definition BYTES_PER_ELEMENT (k : TypedArrayKind) : Z :=
  match k with
  | Int8Array | Uint8Array => 1
  | Int16Array | Uint16Array => 2
  | Int32Array | Uint32Array | Float32Array => 4
  | BigInt64Array | BigUint64Array | Float64Array => 8
  end.

Definition TypedArrayKind_eqb (a b : TypedArrayKind) : bool :=
  match a, b with
  | Int8Array, Int8Array | Int16Array, Int16Array
  | Int32Array, Int32Array | BigInt64Array, BigInt64Array
  | Uint8Array, Uint8Array | Uint16Array, Uint16Array
  | Uint32Array, Uint32Array | BigUint64Array, BigUint64Array
  | Float32Array, Float32Array | Float64Array, Float64Array => true
  | _, _ => false
  end.

Inductive TypedArray : Type :=
| OnMemory (kind : TypedArrayKind) (byteOffset length : Z)
| OnBuffer (kind : TypedArrayKind) (bytes : list Z).

Module TypedArrays.

Definition kind (a : TypedArray) : TypedArrayKind :=
  match a with OnMemory k _ _ | OnBuffer k _ => k end.

(** [a.length] *)
Definition length (a : TypedArray) : Z :=
  match a with
  | OnMemory _ _ n => n
  | OnBuffer k bytes => Z.of_nat (List.length bytes) / BYTES_PER_ELEMENT k
  end.

(** [a.byteLength] *)
Definition byteLength (a : TypedArray) : Z :=
  length a * BYTES_PER_ELEMENT (kind a).

(** The bytes of the elements, as the memory stands. *)
Definition bytes (memory : Memory) (a : TypedArray) : list Z :=
  match a with
  | OnMemory k byteOffset n =>
      bytesAt (raw memory) byteOffset (Z.to_nat (n * BYTES_PER_ELEMENT k))
  | OnBuffer k bs => firstn (Z.to_nat (byteLength a)) bs
  end.

(** [new K(memory.buffer, byteOffset, length)] *)
Definition onMemory (k : TypedArrayKind) (memory : Memory)
  (byteOffset length : Z) : Exn TypedArray :=
  if viewInBounds memory (BYTES_PER_ELEMENT k) byteOffset length
  then Ok (OnMemory k byteOffset length)
  else Throw RangeError.

End TypedArrays.

Module TypeArrayType.

Definition offsets_data : Z := 0.
Definition offsets_length : Z := 4.

Section Methods.

(** What a subclass fixes: the class of its arrays, and the alignment
    its [storeIntoRange] asks the allocator for. *)
Variable K : TypedArrayKind.
Variable allocAlignment : Z.

Definition loadFromRange (memory : Memory) (data length : Z)
  : Exn TypedArray :=
  TypedArrays.onMemory K memory data length.

(** [target.set(value)] copies the elements of an array of the same
    class byte for byte, as if through a temporary; for an array of
    another class, which the TypeScript signature excludes, the model
    stops with a TypeError instead of converting the elements. *)
Definition storeIntoRange (memory : Memory) (value : TypedArray)
  : Exn ((ptr * Z) * Memory) :=
  let '(p, memory) :=
    Memory_alloc memory allocAlignment (TypedArrays.byteLength value) in
  target <- TypedArrays.onMemory K memory p (TypedArrays.length value) ;;
  if TypedArrayKind_eqb (TypedArrays.kind value) K
  then Ok ((p, TypedArrays.length target),
           withRaw memory
             (poke (raw memory) p (TypedArrays.bytes memory value)))
  else Throw TypeError.

Definition load (memory : Memory) (p : ptr) (options : Options)
  : Exn TypedArray :=
  dataPtr <- DataView.getUint32 memory (p + offsets_data) false ;;
  codeUnits <- DataView.getUint32 memory (p + offsets_length) false ;;
  loadFromRange memory dataPtr codeUnits.

Definition liftFlat (memory : Memory) (values : FlatValuesIter)
  (options : Options) : Exn (TypedArray * FlatValuesIter) :=
  '(dataPtr, values) <- nextValue values ;;
  '(length, values) <- nextValue values ;;
  dataPtr <- asIndex dataPtr ;;
  length <- asIndex length ;;
  r <- loadFromRange memory dataPtr length ;;
  Ok (r, values).

Definition alloc (memory : Memory) : ptr * Memory :=
  Memory_alloc memory 4 8.

Definition store (memory : Memory) (p : ptr) (value : TypedArray)
  (options : Options) : Exn Memory :=
  '((data, length), memory) <- storeIntoRange memory value ;;
  memory <- DataView.setUint32 memory (p + offsets_data) (num data) true ;;
  DataView.setUint32 memory (p + offsets_length) (num length) true.

Definition lowerFlat (result : list wasmType) (memory : Memory)
  (value : TypedArray) (options : Options)
  : Exn (list wasmType * Memory) :=
  '((data, length), memory) <- storeIntoRange memory value ;;
  Ok (result ++ [num data; num length], memory).

End Methods.

(** The subclasses: [Int8ArrayType] allocates with [s8.alignment], ...,
    [Float32ArrayType] and [Float64ArrayType] both with
    [float32.alignment]. *)
Definition subclasses : list (TypedArrayKind * Z) :=
  [(Int8Array, alignment s8); (Int16Array, alignment s16);
   (Int32Array, alignment s32); (BigInt64Array, alignment s64);
   (Uint8Array, alignment u8); (Uint16Array, alignment u16);
   (Uint32Array, alignment u32); (BigUint64Array, alignment u64);
   (Float32Array, alignment float32); (Float64Array, alignment float32)].

End TypeArrayType.

(** A text codec that is right on ASCII strings: one byte per code
    unit. *)
Definition asciiCodec : RAL :=
  {| utf8Decoder_decode := fun bytes => bytes;
     utf8Encoder_encode := fun units => units |}.

(** The 33 flags of the two-word scenario, named by one character
    each. *)
Definition manyFlags : list string :=
  map (fun n => String (ascii_of_nat n) EmptyString) (seq 65 33).

Set Implicit Arguments.

(* ================================================================== *)
(** * Properties *)

Unset Implicit Arguments.

(** ** Bytes, byte order and the DataView *)

Lemma poke_outside (bs : list Z) :
  forall (r : Z -> Z) (p a : Z),
    a < p \/ p + Z.of_nat (List.length bs) <= a ->
    poke r p bs a = r a.
Proof.
  induction bs as [|b rest IH]; intros r p a Ha; simpl.
  - reflexivity.
  - rewrite IH.
    + destruct (Z.eqb_spec a p) as [->|Hne]; [|reflexivity].
      simpl List.length in Ha.
      rewrite Nat2Z.inj_succ in Ha. lia.
    + simpl List.length in Ha.
      rewrite Nat2Z.inj_succ in Ha. lia.
Qed.

Lemma bytesAt_poke (bs : list Z) :
  forall (r : Z -> Z) (p : Z) (n : nat),
    List.length bs = n ->
    bytesAt (poke r p bs) p n = bs.
Proof.
  induction bs as [|b rest IH]; intros r p n <-; simpl.
  - reflexivity.
  - f_equal.
    + rewrite poke_outside by lia. now rewrite Z.eqb_refl.
    + now apply IH.
Qed.

Lemma bytesAt_ext (n : nat) :
  forall (r r' : Z -> Z) (p : Z),
    (forall a, p <= a < p + Z.of_nat n -> r a = r' a) ->
    bytesAt r p n = bytesAt r' p n.
Proof.
  induction n as [|n IH]; intros r r' p H; simpl.
  - reflexivity.
  - f_equal.
    + apply H. lia.
    + apply IH. intros a Ha. apply H. lia.
Qed.

Lemma toLE_length (n : nat) : forall v, List.length (toLE n v) = n.
Proof.
  induction n as [|n IH]; intros v; simpl; [reflexivity|].
  now rewrite IH.
Qed.

(** A word written little-endian and read back without the
    [littleEndian] flag comes back with its bytes swapped. *)
Lemma getBits_bigEndian_after_setBits_littleEndian
  (n : nat) (m m' : Memory) (p bits : Z) :
  DataView.setBits n m p bits true = Ok m' ->
  DataView.getBits n m' p false = Ok (byteSwap n bits).
Proof.
  unfold DataView.setBits, DataView.getBits.
  destruct (inBounds m p (Z.of_nat n)) eqn:Hb; [|discriminate].
  intros H. injection H as <-.
  unfold inBounds in *. simpl. rewrite Hb.
  unfold ordered, byteSwap. do 3 f_equal.
  apply bytesAt_poke, toLE_length.
Qed.

(** With the flag on both sides the word comes back as written. *)
Lemma getBits_after_setBits (n : nat) (m m' : Memory) (p bits : Z)
  (le : bool) :
  DataView.setBits n m p bits le = Ok m' ->
  DataView.getBits n m' p le = Ok (fromLE (toLE n bits)).
Proof.
  unfold DataView.setBits, DataView.getBits.
  destruct (inBounds m p (Z.of_nat n)) eqn:Hb; [|discriminate].
  intros H. injection H as <-.
  unfold inBounds in *. simpl. rewrite Hb. do 2 f_equal.
  assert (Hlen : List.length (ordered le (toLE n bits)) = n).
  { unfold ordered. destruct le; [|rewrite length_rev]; apply toLE_length. }
  rewrite (bytesAt_poke _ _ _ _ Hlen).
  unfold ordered. destruct le; [reflexivity|apply rev_involutive].
Qed.

(** ** Comparisons on integral numbers *)

Lemma Js_lt_num (a b : Z) : Js.lt (num a) (num b) = (a <? b).
Proof. unfold Js.lt, Z.ltb. simpl. now destruct (a ?= b). Qed.

Lemma Js_gt_num (a b : Z) : Js.gt (num a) (num b) = (b <? a).
Proof.
  unfold Js.gt, Z.ltb. simpl. rewrite (Z.compare_antisym a b).
  now destruct (a ?= b).
Qed.

Lemma Js_le_num (a b : Z) : Js.le (num a) (num b) = (a <=? b).
Proof. unfold Js.le, Z.leb. simpl. now destruct (a ?= b). Qed.

Lemma Js_ge_num (a b : Z) : Js.ge (num a) (num b) = (b <=? a).
Proof.
  unfold Js.ge, Z.leb. simpl. rewrite (Z.compare_antisym a b).
  now destruct (a ?= b).
Qed.

Lemma Js_strictEquals_num (a b : Z) :
  Js.strictEquals (num a) (num b) = (a =? b).
Proof.
  unfold Js.strictEquals. simpl. rewrite Z.eqb_compare.
  now destruct (a ?= b).
Qed.

Lemma Js_lt_big (a b : Z) : Js.lt (JBigInt a) (JBigInt b) = (a <? b).
Proof. unfold Js.lt, Z.ltb. simpl. now destruct (a ?= b). Qed.

Lemma Js_gt_big (a b : Z) : Js.gt (JBigInt a) (JBigInt b) = (b <? a).
Proof.
  unfold Js.gt, Z.ltb. simpl. rewrite (Z.compare_antisym a b).
  now destruct (a ?= b).
Qed.

Lemma Js_le_big (a b : Z) : Js.le (JBigInt a) (JBigInt b) = (a <=? b).
Proof. unfold Js.le, Z.leb. simpl. now destruct (a ?= b). Qed.

Lemma Js_lt_big_num (a b : Z) : Js.lt (JBigInt a) (num b) = (a <? b).
Proof. unfold Js.lt, Z.ltb. simpl. now destruct (a ?= b). Qed.

(** Decide the integer comparisons left in the goal from the bounds in
    the context. *)
Ltac decide_bounds :=
  repeat match goal with
    | |- context [Z.ltb ?a ?b] => destruct (Z.ltb_spec a b); try lia
    | |- context [Z.leb ?a ?b] => destruct (Z.leb_spec a b); try lia
    | |- context [Z.eqb ?a ?b] => destruct (Z.eqb_spec a b); try lia
    end.

Ltac compare_nums :=
  rewrite ?Js_lt_num, ?Js_gt_num, ?Js_le_num, ?Js_ge_num,
    ?Js_strictEquals_num, ?Js_lt_big, ?Js_gt_big, ?Js_le_big,
    ?Js_lt_big_num.

(** ** Headers written by store and read by load *)

Lemma ordered_length (le : bool) (bs : list Z) :
  List.length (ordered le bs) = List.length bs.
Proof. destruct le; [reflexivity|apply length_rev]. Qed.

(** A write leaves the words outside its range as they were. *)
Lemma getBits_after_setBits_elsewhere (n k : nat) (m m' : Memory)
  (p q bits : Z) (le le' : bool) :
  DataView.setBits k m q bits le = Ok m' ->
  p + Z.of_nat n <= q \/ q + Z.of_nat k <= p ->
  DataView.getBits n m' p le' = DataView.getBits n m p le'.
Proof.
  unfold DataView.setBits, DataView.getBits.
  destruct (inBounds m q (Z.of_nat k)); [|discriminate].
  intros [= <-] Hsep.
  change (inBounds (withRaw m _) p (Z.of_nat n))
    with (inBounds m p (Z.of_nat n)).
  destruct (inBounds m p (Z.of_nat n)); [|reflexivity].
  do 3 f_equal. apply bytesAt_ext. intros addr Haddr.
  apply poke_outside.
  rewrite ordered_length, toLE_length. lia.
Qed.

(** The two header words of a list or string, written by [store] with
    the little-endian flag, are read by [load] with their bytes swapped. *)
Lemma header_words_read_back (m m1 m2 : Memory) (p : ptr) (a b : Z) :
  DataView.setUint32 m p (num a) true = Ok m1 ->
  DataView.setUint32 m1 (p + 4) (num b) true = Ok m2 ->
  DataView.getUint32 m2 p false = Ok (byteSwap 4 (a mod 2 ^ 32))
  /\ DataView.getUint32 m2 (p + 4) false = Ok (byteSwap 4 (b mod 2 ^ 32)).
Proof.
  intros H1 H2.
  change (DataView.setBits 4 m p (a mod 2 ^ 32) true = Ok m1) in H1.
  change (DataView.setBits 4 m1 (p + 4) (b mod 2 ^ 32) true = Ok m2) in H2.
  split.
  - unfold DataView.getUint32.
    rewrite (getBits_after_setBits_elsewhere 4 4 m1 m2 p (p + 4) _ true
               false H2) by (cbn; lia).
    exact (getBits_bigEndian_after_setBits_littleEndian _ _ _ _ _ H1).
  - exact (getBits_bigEndian_after_setBits_littleEndian _ _ _ _ _ H2).
Qed.

Lemma ListType_load_after_store (T : ComponentModelType) (m m' : Memory)
  (p : ptr) (values : JType) (o : Options) :
  store (ListType.new T) m p values o = Ok m' ->
  exists (data length : Z) (m0 : Memory),
    ListType.storeIntoRange T m values o = Ok ((data, length), m0)
    /\ load (ListType.new T) m' p o
       = ListType.loadFromRange T m'
           (byteSwap 4 (data mod 2 ^ 32)) (byteSwap 4 (length mod 2 ^ 32))
           o.
Proof.
  cbn [store load ListType.new]. unfold ListType.store, ListType.load.
  destruct (ListType.storeIntoRange T m values o)
    as [[[data length] m0]|e]; [|discriminate].
  cbn [bind]. unfold ListType.offsets_data, ListType.offsets_length.
  rewrite Z.add_0_r.
  destruct (DataView.setUint32 m0 p (num data) true) as [m1|e] eqn:H1;
    [|discriminate].
  cbn [bind]. intros H2.
  destruct (header_words_read_back _ _ _ _ _ _ H1 H2) as [Hd Hl].
  exists data, length, m0. split; [reflexivity|].
  now rewrite Hd, Hl.
Qed.

Lemma wstring_load_after_store (ral : RAL) (m m' : Memory) (p : ptr)
  (str : JType) (o : Options) :
  store (wstring ral) m p str o = Ok m' ->
  exists (data codeUnits : Z) (m0 : Memory),
    wstring_storeIntoRange ral m str o = Ok ((data, codeUnits), m0)
    /\ load (wstring ral) m' p o
       = wstring_loadFromRange ral m'
           (byteSwap 4 (data mod 2 ^ 32))
           (byteSwap 4 (codeUnits mod 2 ^ 32)) o.
Proof.
  cbn [store load wstring]. unfold wstring_store, wstring_load.
  destruct (wstring_storeIntoRange ral m str o)
    as [[[data codeUnits] m0]|e]; [|discriminate].
  cbn [bind]. unfold wstring_offsets_data, wstring_offsets_codeUnits.
  rewrite Z.add_0_r.
  destruct (DataView.setUint32 m0 p (num data) true) as [m1|e] eqn:H1;
    [|discriminate].
  cbn [bind]. intros H2.
  destruct (header_words_read_back _ _ _ _ _ _ H1 H2) as [Hd Hl].
  exists data, codeUnits, m0. split; [reflexivity|].
  now rewrite Hd, Hl.
Qed.

(** ** Store then load of a list and of a string *)

(** C1. Storing and then loading at the same aligned pointer does not
    give the value back for the list and string descriptors. On the
    one-page memory, [store] of the list [1, 2, 3] writes the data bytes
    at 1024 and the header (1024, 3) little-endian at 0; [load] reads the
    two header words without the little-endian flag, as 0x00040000 and
    0x03000000, and raises a RangeError on the first element instead of
    returning [1, 2, 3]. The string "hi" (UTF-16) fares the same. *)
Theorem list_and_string_store_then_load_misread_header : forall ral : RAL,
  match store (ListType.new u8) emptyMemory 0
          (JArray [num 1; num 2; num 3]) utf8 with
  | Ok m =>
      bytesAt (raw m) 1024 3 = [1; 2; 3]
      /\ bytesAt (raw m) 0 8 = [0; 4; 0; 0; 3; 0; 0; 0]
      /\ DataView.getUint32 m 0 false = Ok (byteSwap 4 1024)
      /\ DataView.getUint32 m 4 false = Ok (byteSwap 4 3)
      /\ load (ListType.new u8) m 0 utf8 = Throw RangeError
  | Throw _ => False
  end
  /\
  match store (wstring ral) emptyMemory 0 (JString [104; 105]) utf16 with
  | Ok m =>
      bytesAt (raw m) 1024 4 = [104; 0; 105; 0]
      /\ bytesAt (raw m) 0 8 = [0; 4; 0; 0; 2; 0; 0; 0]
      /\ load (wstring ral) m 0 utf16 = Throw RangeError
  | Throw _ => False
  end.
Proof.
  intros ral. split; vm_compute; repeat split; reflexivity.
Qed.

(** ** Record and tuple layout *)

Lemma BaseRecordType_size_from (fields : list TypedField) :
  forall acc,
    fold_left
      (fun result field =>
         let _ := align result (alignment (type field)) in
         result + size (type field))
      fields acc
    = acc + sumOfSizes fields.
Proof.
  induction fields as [|f rest IH]; intros acc; simpl.
  - lia.
  - rewrite IH. lia.
Qed.

Lemma BaseRecordType_alignment_from (fields : list TypedField) :
  forall acc,
    1 <= acc ->
    fold_left
      (fun result field => Z.max result (alignment (type field)))
      fields acc
    = Z.max acc (maxAlignment fields).
Proof.
  induction fields as [|f rest IH]; intros acc Hacc; simpl.
  - lia.
  - rewrite IH by lia. lia.
Qed.

Lemma BaseRecordType_flatTypes_from (fields : list TypedField) :
  forall acc,
    fold_left
      (fun result field => result ++ flatTypes (type field))
      fields acc
    = acc ++ concatFlatTypes fields.
Proof.
  induction fields as [|f rest IH]; intros acc; simpl.
  - now rewrite app_nil_r.
  - rewrite IH. now rewrite <- app_assoc.
Qed.

Lemma maxAlignment_ge_1 (fields : list TypedField) : 1 <= maxAlignment fields.
Proof. induction fields; simpl; lia. Qed.

Lemma BaseRecordType_size_sum (fields : list TypedField) :
  BaseRecordType.size fields = sumOfSizes fields.
Proof. unfold BaseRecordType.size. now rewrite BaseRecordType_size_from. Qed.

Lemma BaseRecordType_alignment_max (fields : list TypedField) :
  BaseRecordType.alignment fields = maxAlignment fields.
Proof.
  unfold BaseRecordType.alignment.
  rewrite BaseRecordType_alignment_from by lia.
  pose proof (maxAlignment_ge_1 fields). lia.
Qed.

Lemma BaseRecordType_flatTypes_concat (fields : list TypedField) :
  BaseRecordType.flatTypes fields = concatFlatTypes fields.
Proof.
  unfold BaseRecordType.flatTypes. now rewrite BaseRecordType_flatTypes_from.
Qed.

Lemma RecordType_layout_offsets
  (fields : list (string * GenericComponentModelType)) :
  forall start,
    map offset (map RecordField.typed (RecordType.layout start fields))
    = offsetsFrom start (map snd fields).
Proof.
  induction fields as [|[name ty] rest IH]; intros start; simpl.
  - reflexivity.
  - now rewrite IH.
Qed.

Lemma RecordType_layout_types
  (fields : list (string * GenericComponentModelType)) :
  forall start,
    map type (map RecordField.typed (RecordType.layout start fields))
    = map snd fields.
Proof.
  induction fields as [|[name ty] rest IH]; intros start; simpl.
  - reflexivity.
  - now rewrite IH.
Qed.

Lemma TupleType_layout_offsets (fields : list GenericComponentModelType) :
  forall start,
    map offset (TupleType.layout start fields) = offsetsFrom start fields.
Proof.
  induction fields as [|ty rest IH]; intros start; simpl.
  - reflexivity.
  - now rewrite IH.
Qed.

Lemma TupleType_layout_types (fields : list GenericComponentModelType) :
  forall start, map type (TupleType.layout start fields) = fields.
Proof.
  induction fields as [|ty rest IH]; intros start; simpl.
  - reflexivity.
  - now rewrite IH.
Qed.

(** C3. For every record and every tuple descriptor the field offsets
    are assigned in declaration order, each rounded up to the alignment
    of its field, the alignment is the maximum child alignment and the
    flat types are the concatenation of the children's; but the size is
    the plain sum of the field sizes, because the rounding inside
    [BaseRecordType.size] is dropped. The record of a [u8] followed by a
    [u32] has the [u32] at offset 4 and size 5, not 8. *)
Theorem record_and_tuple_layout :
  (forall fields : list (string * GenericComponentModelType),
      let T := RecordType.new fields in
      let fs := map RecordField.typed (RecordType.layout 0 fields) in
      map type fs = map snd fields
      /\ map offset fs = offsetsFrom 0 (map snd fields)
      /\ size T = sumOfSizes fs
      /\ alignment T = maxAlignment fs
      /\ flatTypes T = concatFlatTypes fs)
  /\ (forall fields : list GenericComponentModelType,
      let T := TupleType.new fields in
      let fs := TupleType.layout 0 fields in
      map type fs = fields
      /\ map offset fs = offsetsFrom 0 fields
      /\ size T = sumOfSizes fs
      /\ alignment T = maxAlignment fs
      /\ flatTypes T = concatFlatTypes fs)
  /\ (let fields := [("a"%string, u8); ("b"%string, u32)] in
      map offset (map RecordField.typed (RecordType.layout 0 fields))
      = [0; 4]
      /\ size (RecordType.new fields) = 5
      /\ alignment (RecordType.new fields) = 4
      /\ flatTypes (RecordType.new fields) = [i32; i32]).
Proof.
  split; [|split].
  - intros fields T fs. subst T fs. simpl.
    rewrite BaseRecordType_size_sum, BaseRecordType_alignment_max,
      BaseRecordType_flatTypes_concat.
    repeat split.
    + apply RecordType_layout_types.
    + apply RecordType_layout_offsets.
  - intros fields T fs. subst T fs. simpl.
    rewrite map_id.
    rewrite BaseRecordType_size_sum, BaseRecordType_alignment_max,
      BaseRecordType_flatTypes_concat.
    repeat split.
    + apply TupleType_layout_types.
    + apply TupleType_layout_offsets.
  - repeat split; reflexivity.
Qed.

(** ** Flags *)

(** C4. For the 26 flags [a] to [z] (one [u32] word), setting [b] and
    [z] on a fresh value makes the getters expose exactly these two, but
    the setters update the captured variable and not the property
    [_bits] that [store] and [lowerFlat] read: the word stored and the
    slot lowered are 0, not 0x02000002 (= 33554434). *)
Theorem flags_setters_do_not_reach_the_stored_bits :
  let F := FlagsType.new alphabet in
  let fresh := FlagsType.create F in
  let flags := FlagsType.set F (FlagsType.set F fresh "b" true) "z" true in
  FlagsType.size F = 4
  /\ FlagsType.type F = (Single, Some u32)
  /\ fresh = JSingleFlags (num 0) (num 0)
  /\ flags = JSingleFlags (num 0) (num 33554434)
  /\ flagsSet F flags = ["b"; "z"]%string
  /\ match store (FlagsType.asType F) emptyMemory 0 flags utf8 with
     | Ok m => DataView.getUint32 m 0 true = Ok 0
     | Throw _ => False
     end
  /\ (forall result m o,
        lowerFlat (FlagsType.asType F) result m flags o
        = Ok (result ++ [num 0], m)).
Proof.
  repeat split; try reflexivity.
Qed.

(** ** char *)

Lemma wchar_asCodePoint_unit (c : Z) :
  _wchar.asCodePoint (JString [c])
  = if (c <=? 55295) || ((55296 <=? c) && (c <=? 1114111))
    then Ok (num c)
    else Throw (ComponentModelError "Invalid code point").
Proof.
  unfold _wchar.asCodePoint. simpl JsString.length.
  rewrite Js_strictEquals_num. simpl.
  rewrite !Js_le_num.
  now destruct ((c <=? 55295) || ((55296 <=? c) && (c <=? 1114111))).
Qed.

Lemma wchar_fromCodePoint_num (c : Z) :
  _wchar.fromCodePoint (num c)
  = if (1114112 <=? c) || ((55296 <=? c) && (c <=? 57343))
    then Throw (ComponentModelError "Invalid code point")
    else JsString.fromCodePoint (num c).
Proof.
  unfold _wchar.fromCodePoint. now rewrite Js_ge_num, !Js_le_num.
Qed.

Lemma u32_liftFlat_num (c : Z) (m : Memory) (rest : list wasmType)
  (o : Options) :
  0 <= c <= 4294967295 ->
  liftFlat u32 m (ArrayIterator (num c :: rest)) o
  = Ok (num c, ArrayIterator rest).
Proof.
  intros Hc. simpl. unfold _u32.liftFlat. simpl.
  unfold _u32.LOW_VALUE, _u32.HIGH_VALUE.
  rewrite Js_lt_num, Js_gt_num. simpl.
  destruct (Z.ltb_spec c 0); [lia|].
  destruct (Z.ltb_spec 4294967295 c); [lia|]. reflexivity.
Qed.

Lemma u32_lowerFlat_num (c : Z) (result : list wasmType) (m : Memory)
  (o : Options) :
  0 <= c <= 4294967295 ->
  lowerFlat u32 result m (num c) o = Ok (result ++ [num c], m).
Proof.
  intros Hc. simpl. unfold _u32.lowerFlat.
  unfold _u32.LOW_VALUE, _u32.HIGH_VALUE.
  rewrite Js_lt_num, Js_gt_num. simpl.
  destruct (Z.ltb_spec c 0); [lia|].
  destruct (Z.ltb_spec 4294967295 c); [lia|]. reflexivity.
Qed.

(** C5. On load and lift the char descriptor rejects every surrogate
    code point, but on store and lower it accepts the one-unit string
    of any surrogate [c] (0xD800 to 0xDFFF): the code point is lowered
    and stored as it is. *)
Theorem char_store_and_lower_accept_surrogates (c : Z) (result rest : list wasmType) (m : Memory) (p : ptr)
  (o : Options) :
  55296 <= c <= 57343 ->
  lowerFlat wchar result m (JString [c]) o = Ok (result ++ [num c], m)
  /\ store wchar m p (JString [c]) o = DataView.setUint32 m p (num c) true
  /\ liftFlat wchar m (ArrayIterator (num c :: rest)) o
     = Throw (ComponentModelError "Invalid code point").
Proof.
  intros Hc.
  assert (Has : _wchar.asCodePoint (JString [c]) = Ok (num c)).
  { rewrite wchar_asCodePoint_unit.
    destruct (Z.leb_spec c 55295); [lia|].
    destruct (Z.leb_spec 55296 c); [|lia].
    destruct (Z.leb_spec c 1114111); [|lia]. reflexivity. }
  repeat split.
  - change (lowerFlat wchar result m (JString [c]) o)
      with (code <- _wchar.asCodePoint (JString [c]) ;;
            lowerFlat u32 result m code o).
    rewrite Has. simpl bind. apply u32_lowerFlat_num. lia.
  - change (store wchar m p (JString [c]) o)
      with (code <- _wchar.asCodePoint (JString [c]) ;;
            store u32 m p code o).
    rewrite Has. reflexivity.
  - change (liftFlat wchar m (ArrayIterator (num c :: rest)) o)
      with ('(code, values) <-
              liftFlat u32 m (ArrayIterator (num c :: rest)) o ;;
            s <- _wchar.fromCodePoint code ;; Ok (s, values)).
    rewrite u32_liftFlat_num by lia. simpl bind.
    rewrite wchar_fromCodePoint_num.
    destruct (Z.leb_spec 1114112 c); [lia|].
    destruct (Z.leb_spec 55296 c); [|lia].
    destruct (Z.leb_spec c 57343); [|lia]. reflexivity.
Qed.

Lemma char_store_and_lower_accept_surrogates_witness :
  55296 <= 55296 <= 57343
  /\ lowerFlat wchar [] emptyMemory (JString [55296]) utf8
     = Ok ([num 55296], emptyMemory)
  /\ liftFlat wchar emptyMemory (ArrayIterator [num 55296]) utf8
     = Throw (ComponentModelError "Invalid code point").
Proof.
  split; [lia|].
  split; apply (char_store_and_lower_accept_surrogates 55296 [] [] emptyMemory 0 utf8); lia.
Defined.

Lemma wchar_liftFlat_rejects (c : Z) (m : Memory) (rest : list wasmType)
  (o : Options) :
  55296 <= c <= 57343 \/ 1114112 <= c <= 4294967295 ->
  liftFlat wchar m (ArrayIterator (num c :: rest)) o
  = Throw (ComponentModelError "Invalid code point").
Proof.
  intros Hc.
  change (liftFlat wchar m (ArrayIterator (num c :: rest)) o)
    with ('(code, values) <-
            liftFlat u32 m (ArrayIterator (num c :: rest)) o ;;
          s <- _wchar.fromCodePoint code ;; Ok (s, values)).
  rewrite u32_liftFlat_num by lia. cbn [bind].
  rewrite wchar_fromCodePoint_num.
  replace ((1114112 <=? c) || ((55296 <=? c) && (c <=? 57343)))
    with true by (symmetry; decide_bounds; reflexivity).
  reflexivity.
Qed.

Lemma wchar_load_rejects (c : Z) (m : Memory) (p : ptr) (o : Options) :
  55296 <= c <= 57343 \/ 1114112 <= c ->
  DataView.getUint32 m p true = Ok c ->
  load wchar m p o = Throw (ComponentModelError "Invalid code point").
Proof.
  intros Hc Hget.
  change (load wchar m p o)
    with (code <- (v <- DataView.getUint32 m p true ;; Ok (num v)) ;;
          _wchar.fromCodePoint code).
  rewrite Hget. cbn [bind]. rewrite wchar_fromCodePoint_num.
  replace ((1114112 <=? c) || ((55296 <=? c) && (c <=? 57343)))
    with true by (symmetry; decide_bounds; reflexivity).
  reflexivity.
Qed.

(** A code point above 0xFFFF is a string of two code units, which
    [asCodePoint] turns down for its length. *)
Lemma wchar_lowerFlat_rejects_two_units (hi lo : Z)
  (result : list wasmType) (m : Memory) (o : Options) :
  lowerFlat wchar result m (JString [hi; lo]) o
  = Throw (ComponentModelError "String length must be 1").
Proof. reflexivity. Qed.


(** ** Functions *)

(** C6. [callService] reads the last flat parameter as the out-pointer
    and requires it to be a number whatever the number of flat results:
    for a function without parameters and without result, called with
    the empty parameter list, the native implementation runs and the
    call then raises "Result pointer must be a number" instead of
    returning nothing. *)
Theorem callService_without_parameters_raises (name witName : string) (serviceFunction : ServiceFunction)
  (memory : Memory) (options : Options) (result : JType) :
  serviceFunction [] = Ok result ->
  FunctionType.returnFlatTypes (FunctionType.new name witName [] None) = 0
  /\ FunctionType.callService (FunctionType.new name witName [] None) []
       serviceFunction memory options
     = Throw (ComponentModelError "Result pointer must be a number (u32)").
Proof.
  intros Hsf. split; [reflexivity|].
  unfold FunctionType.callService. simpl.
  rewrite Hsf. reflexivity.
Qed.

Lemma callService_without_parameters_raises_witness :
  (fun _ : list JType => Ok JUndefined) [] = Ok JUndefined
  /\ FunctionType.callService (FunctionType.new "f" "f" [] None) []
       (fun _ => Ok JUndefined) emptyMemory utf8
     = Throw (ComponentModelError "Result pointer must be a number (u32)").
Proof.
  split; [reflexivity|].
  apply (callService_without_parameters_raises "f" "f" (fun _ => Ok JUndefined) emptyMemory utf8 JUndefined).
  reflexivity.
Defined.

(** C7. When the function has exactly one flat result, [callWasm]
    returns what the guest function returned, as it is: the value is not
    lifted through the return type descriptor. *)
Theorem callWasm_returns_the_single_flat_result_unlifted (this : FunctionType.t) (params : JType)
  (wasmFunction : WasmFunction) (memory : Memory) (options : Options) :
  FunctionType.returnFlatTypes this = 1 ->
  FunctionType.callWasm this params wasmFunction memory options
  = ('(wasmValues, memory) <-
       FunctionType.lowerParamValues this params memory options JUndefined ;;
     wasmFunction wasmValues memory).
Proof.
  intros H1. unfold FunctionType.callWasm. rewrite H1.
  unfold FunctionType.MAX_FLAT_RESULTS. simpl.
  destruct (FunctionType.lowerParamValues this params memory options
              JUndefined) as [[wasmValues memory']|e]; simpl; [|reflexivity].
  destruct (wasmFunction wasmValues memory') as [[r m]|e]; reflexivity.
Qed.

Lemma callWasm_returns_the_single_flat_result_unlifted_witness :
  let f := FunctionType.new "f" "f" [] (Some bool_) in
  FunctionType.returnFlatTypes f = 1
  /\ FunctionType.callWasm f (JArray []) (guestReturning (num 1))
       emptyMemory utf8
     = Ok (num 1, emptyMemory)
  /\ FunctionType.liftReturnValue f (num 1) emptyMemory utf8
     = Ok (JBoolean true).
Proof.
  intros f. split; [reflexivity|]. split; [|reflexivity].
  rewrite (callWasm_returns_the_single_flat_result_unlifted f (JArray []) (guestReturning (num 1)) emptyMemory utf8)
    by reflexivity.
  reflexivity.
Defined.

(** The three arities of [lowerReturnValue] and [liftReturnValue]. *)
Lemma lowerReturnValue_none (this : FunctionType.t) (value out : JType)
  (memory : Memory) (options : Options) :
  FunctionType.returnFlatTypes this = 0 ->
  FunctionType.lowerReturnValue this value memory options out
  = Ok (JUndefined, memory).
Proof. intros H. unfold FunctionType.lowerReturnValue. now rewrite H. Qed.

Lemma lowerReturnValue_single (this : FunctionType.t)
  (T : ComponentModelType) (value out w : JType) (memory memory' : Memory)
  (options : Options) :
  FunctionType.returnFlatTypes this = 1 ->
  FunctionType.returnType this = Some T ->
  lowerFlat T [] memory value options = Ok ([w], memory') ->
  FunctionType.lowerReturnValue this value memory options out
  = Ok (w, memory').
Proof.
  intros H1 HT Hlow. unfold FunctionType.lowerReturnValue.
  rewrite H1. cbn. unfold FunctionType.theReturnType. rewrite HT.
  cbn [bind]. rewrite Hlow. reflexivity.
Qed.


Lemma liftReturnValue_single (this : FunctionType.t)
  (T : ComponentModelType) (value : JType) (memory : Memory)
  (options : Options) :
  FunctionType.returnFlatTypes this = 1 ->
  FunctionType.returnType this = Some T ->
  FunctionType.liftReturnValue this value memory options
  = ('(v, _) <- liftFlat T memory (Array_values [value]) options ;; Ok v).
Proof.
  intros H1 HT. unfold FunctionType.liftReturnValue.
  rewrite H1. cbn. unfold FunctionType.theReturnType. now rewrite HT.
Qed.

(** With more than one flat result [callWasm] allocates the return
    buffer, passes its address last and loads the result from it. *)
Lemma callWasm_indirect_result (this : FunctionType.t)
  (T : ComponentModelType) (params : JType) (wasmFunction : WasmFunction)
  (memory : Memory) (options : Options) :
  1 < FunctionType.returnFlatTypes this ->
  FunctionType.returnType this = Some T ->
  FunctionType.callWasm this params wasmFunction memory options
  = ('(wasmValues, memory) <-
       FunctionType.lowerParamValues this params memory options JUndefined ;;
     let '(p, memory) := Memory_alloc memory (alignment T) (size T) in
     '(_, memory) <- wasmFunction (push wasmValues (num p)) memory ;;
     v <- load T memory p options ;;
     Ok (v, memory)).
Proof.
  intros H1 HT. unfold FunctionType.callWasm, FunctionType.liftReturnValue.
  unfold FunctionType.MAX_FLAT_RESULTS, FunctionType.theReturnType.
  rewrite HT.
  destruct (Z.ltb_spec 1 (FunctionType.returnFlatTypes this)); [|lia].
  destruct (Z.eqb_spec (FunctionType.returnFlatTypes this) 0); [lia|].
  destruct (Z.eqb_spec (FunctionType.returnFlatTypes this) 1); [lia|].
  destruct (Z.leb_spec (FunctionType.returnFlatTypes this) 1); [lia|].
  destruct (FunctionType.lowerParamValues this params memory options
              JUndefined) as [[wasmValues memory1]|e]; [|reflexivity].
  cbn [bind].
  destruct (Memory_alloc memory1 (alignment T) (size T)) as [p memory2].
  cbn [bind].
  destruct (wasmFunction (push wasmValues (num p)) memory2)
    as [[r memory3]|e]; reflexivity.
Qed.


(** ** Discriminants and enumerations *)

Lemma ceilLog2Over8_le (c k : Z) :
  0 < c -> 0 <= k ->
  ((Z.log2_up c + 7) / 8 <= k <-> c <= 2 ^ (8 * k)).
Proof.
  intros Hc Hk. rewrite Z.log2_up_le_pow2 by assumption.
  pose proof (Z.log2_up_nonneg c) as Hl.
  split; intros H.
  - assert (Z.log2_up c + 7 < 8 * (k + 1)).
    { pose proof (Z.mul_succ_div_gt (Z.log2_up c + 7) 8). lia. }
    lia.
  - assert ((Z.log2_up c + 7) / 8 < k + 1); [|lia].
    apply Z.div_lt_upper_bound; lia.
Qed.

Lemma discriminantType_eq (c : Z) :
  VariantType.discriminantType c
  = if c <=? 0 then Throw (ComponentModelError "Too many cases")
    else if c <=? 256 then Ok u8
    else if c <=? 65536 then Ok u16
    else if c <=? 16777216 then Ok u32
    else Throw (ComponentModelError "Too many cases").
Proof.
  unfold VariantType.discriminantType, ceilLog2Over8.
  destruct (Z.leb_spec c 0) as [H0|H0].
  - destruct (Z.ltb_spec c 0); [reflexivity|].
    destruct (Z.eqb_spec c 0); [reflexivity|lia].
  - destruct (Z.ltb_spec c 0); [lia|].
    destruct (Z.eqb_spec c 0); [lia|].
    pose proof (ceilLog2Over8_le c 0 H0 ltac:(lia)) as K0.
    pose proof (ceilLog2Over8_le c 1 H0 ltac:(lia)) as K1.
    pose proof (ceilLog2Over8_le c 2 H0 ltac:(lia)) as K2.
    pose proof (ceilLog2Over8_le c 3 H0 ltac:(lia)) as K3.
    change (2 ^ (8 * 0)) with 1 in K0.
    change (2 ^ (8 * 1)) with 256 in K1.
    change (2 ^ (8 * 2)) with 65536 in K2.
    change (2 ^ (8 * 3)) with 16777216 in K3.
    assert (Hk : 0 <= (Z.log2_up c + 7) / 8).
    { apply Z.div_pos; [pose proof (Z.log2_up_nonneg c)|]; lia. }
    destruct (Z.leb_spec c 256); [|destruct (Z.leb_spec c 65536);
      [|destruct (Z.leb_spec c 16777216)]].
    + assert (E : (Z.log2_up c + 7) / 8 = 0 \/ (Z.log2_up c + 7) / 8 = 1)
        by lia.
      destruct E as [-> | ->]; reflexivity.
    + assert (E : (Z.log2_up c + 7) / 8 = 2) by lia. now rewrite E.
    + assert (E : (Z.log2_up c + 7) / 8 = 3) by lia. now rewrite E.
    + assert (E : 4 <= (Z.log2_up c + 7) / 8) by lia.
      destruct ((Z.log2_up c + 7) / 8) as [|q|q]; try lia.
      do 3 (destruct q as [q|q|]; try lia; try reflexivity).
Qed.

Lemma EnumType_assertRange_num (e : EnumType.t) (v : Z) :
  EnumType.assertRange e (num v)
  = if (v <? 0) || (EnumType.cases e <? v)
    then Throw (ComponentModelError "Enumeration value out of range")
    else Ok (num v).
Proof.
  unfold EnumType.assertRange. now rewrite Js_lt_num, Js_gt_num.
Qed.

(** C9. The discriminant is [u8] for 1 to 256 cases, [u16] for 257 to
    65536 and [u32] for 65537 to 2^24; construction fails for no case
    and for every count above 2^24, in particular for 2^24 + 1 and for
    2^32. Enumerations size their discriminant the same way. *)
Theorem discriminant_type_by_case_count :
  (forall c : Z,
      VariantType.discriminantType c
      = if c <=? 0 then Throw (ComponentModelError "Too many cases")
        else if c <=? 256 then Ok u8
        else if c <=? 65536 then Ok u16
        else if c <=? 2 ^ 24 then Ok u32
        else Throw (ComponentModelError "Too many cases"))
  /\ (forall c : Z,
      EnumType.discriminantType c = VariantType.discriminantType c)
  /\ VariantType.discriminantType (2 ^ 24 + 1)
     = Throw (ComponentModelError "Too many cases")
  /\ VariantType.discriminantType (2 ^ 32)
     = Throw (ComponentModelError "Too many cases").
Proof.
  split; [|split; [|split]].
  - intros c. apply discriminantType_eq.
  - reflexivity.
  - now rewrite discriminantType_eq.
  - now rewrite discriminantType_eq.
Qed.

(** ** Floats *)

(** C10. [float32] lowers NaN to the number 2143289344 (= 0x7fc00000)
    and lifts a slot equal to that number to NaN; the number is itself a
    binary32 value within the accepted range, it is lowered unchanged and
    so comes back as NaN. [float64] does the same with
    9221120237041090560 (= 0x7ff8000000000000). *)
Theorem float_nan_sentinel_is_compared_by_value (result rest : list wasmType) (m : Memory) (o : Options) :
  (lowerFlat float32 result m (JNumber NaN) o
   = Ok (result ++ [num 2143289344], m)
   /\ liftFlat float32 m (ArrayIterator (num 2143289344 :: rest)) o
      = Ok (JNumber NaN, ArrayIterator rest)
   /\ lowerFlat float32 result m (num 2143289344) o
      = Ok (result ++ [num 2143289344], m)
   /\ Ieee.bitsToFloat32 (Ieee.float32ToBits (Int 2143289344))
      = Int 2143289344)
  /\ (lowerFlat float64 result m (JNumber NaN) o
      = Ok (result ++ [num 9221120237041090560], m)
      /\ liftFlat float64 m
           (ArrayIterator (num 9221120237041090560 :: rest)) o
         = Ok (JNumber NaN, ArrayIterator rest)
      /\ lowerFlat float64 result m (num 9221120237041090560) o
         = Ok (result ++ [num 9221120237041090560], m)
      /\ Ieee.bitsToFloat64 (Ieee.float64ToBits (Int 9221120237041090560))
         = Int 9221120237041090560)
  /\ 2143289344 = 0x7fc00000
  /\ 9221120237041090560 = 0x7ff8000000000000.
Proof.
  repeat split; try reflexivity; vm_compute; reflexivity.
Qed.

(** ** Reading from iterators *)

Lemma reads_array (vs rest : list wasmType) :
  reads (ArrayIterator (vs ++ rest)) vs (ArrayIterator rest).
Proof.
  induction vs as [|v vs IH]; simpl.
  - constructor.
  - econstructor; [reflexivity|exact IH].
Qed.

Lemma reads_app (a : list wasmType) :
  forall (b : list wasmType) (it it1 it2 : FlatValuesIter),
    reads it a it1 -> reads it1 b it2 -> reads it (a ++ b) it2.
Proof.
  induction a as [|v a IH]; intros b it it1 it2 Ha Hb; simpl.
  - inversion Ha; subst. exact Hb.
  - inversion Ha; subst. econstructor; [eassumption|].
    eapply IH; eassumption.
Qed.


Lemma reads_one (it it' : FlatValuesIter) (v : wasmType)
  (vs : list wasmType) :
  reads it (v :: vs) it' ->
  exists it1, nextValue it = Ok (v, it1) /\ reads it1 vs it'.
Proof.
  intros H. inversion H; subst.
  exists it1. split; [|assumption].
  unfold nextValue. now rewrite H3.
Qed.

Lemma reads_single (it it' : FlatValuesIter) (v : wasmType) :
  reads it [v] it' -> nextValue it = Ok (v, it').
Proof.
  intros H. apply reads_one in H as (it1 & Hn & Hr).
  inversion Hr; subst. exact Hn.
Qed.

Lemma reads_length_next (it it' : FlatValuesIter) (vs : list wasmType) :
  reads it vs it' ->
  iterateN (fun values => '(_, values) <- next values ;; Ok values)
    (List.length vs) it
  = Ok it'.
Proof.
  induction 1 as [it|it it1 it2 v vs Hn Hr IH]; simpl.
  - reflexivity.
  - rewrite Hn. simpl. exact IH.
Qed.

Lemma iterateN_add {St : Type} (body : St -> Exn St) (a b : nat) :
  forall s,
    iterateN body (a + b) s = (s <- iterateN body a s ;; iterateN body b s).
Proof.
  induction a as [|a IH]; intros s; simpl.
  - reflexivity.
  - destruct (body s) as [s'|e]; simpl; [apply IH|reflexivity].
Qed.

Lemma iterate_iterateN {St : Type} (body : St -> Exn St) (n : positive) :
  forall s, iterate body n s = iterateN body (Pos.to_nat n) s.
Proof.
  induction n as [n IH|n IH|]; intros s; cbn [iterate].
  - rewrite Pos2Nat.inj_xI.
    replace (S (2 * Pos.to_nat n))%nat
      with (S (Pos.to_nat n + Pos.to_nat n))%nat by lia.
    cbn [iterateN].
    destruct (body s) as [s'|e]; cbn [bind]; [|reflexivity].
    rewrite iterateN_add, <- IH.
    destruct (iterate body n s') as [s''|e]; cbn [bind];
      [apply IH|reflexivity].
  - rewrite Pos2Nat.inj_xO.
    replace (2 * Pos.to_nat n)%nat with (Pos.to_nat n + Pos.to_nat n)%nat
      by lia.
    rewrite iterateN_add, <- IH.
    destruct (iterate body n s) as [s''|e]; cbn [bind];
      [apply IH|reflexivity].
  - change (Pos.to_nat 1) with 1%nat. cbn [iterateN].
    destruct (body s); reflexivity.
Qed.

Lemma forLoop_iterateN {St : Type} (body : St -> Exn St) (n : nat) (s : St) :
  forLoop (Z.of_nat n) body s = iterateN body n s.
Proof.
  destruct n as [|n]; [reflexivity|].
  unfold forLoop.
  change (Z.of_nat (S n)) with (Z.pos (Pos.of_succ_nat n)). cbv beta iota.
  rewrite iterate_iterateN. now rewrite SuccNat2Pos.id_succ.
Qed.

Lemma forLoop_reads (it it' : FlatValuesIter) (vs : list wasmType) (n : Z) :
  reads it vs it' ->
  n = Z.of_nat (List.length vs) ->
  forLoop n (fun values => '(_, values) <- next values ;; Ok values) it
  = Ok it'.
Proof.
  intros Hr ->. rewrite forLoop_iterateN. now apply reads_length_next.
Qed.
(** ** The scalar descriptors *)

Lemma slotHolds_i32 (z : Z) : - 2 ^ 31 <= z < 2 ^ 32 -> slotHolds i32 (num z).
Proof. intros H. now exists z. Qed.


Lemma Marshals_u8 (o : Options) (z : Z) :
  0 <= z <= 255 -> Marshals u8 o (num z).
Proof.
  intros Hz result memory. exists [num z]. split; [|split].
  - cbn [lowerFlat u8]. unfold _u8.lowerFlat, _u8.LOW_VALUE, _u8.HIGH_VALUE.
    compare_nums. decide_bounds. reflexivity.
  - repeat constructor. apply slotHolds_i32. lia.
  - intros memory' it it' Hr. apply reads_single in Hr.
    cbn [liftFlat u8]. unfold _u8.liftFlat, _u8.LOW_VALUE, _u8.HIGH_VALUE.
    rewrite Hr. cbn [bind]. compare_nums. decide_bounds. reflexivity.
Qed.

Lemma Marshals_u16 (o : Options) (z : Z) :
  0 <= z <= 65535 -> Marshals u16 o (num z).
Proof.
  intros Hz result memory. exists [num z]. split; [|split].
  - cbn [lowerFlat u16].
    unfold _u16.lowerFlat, _u16.LOW_VALUE, _u16.HIGH_VALUE.
    compare_nums. decide_bounds. reflexivity.
  - repeat constructor. apply slotHolds_i32. lia.
  - intros memory' it it' Hr. apply reads_single in Hr.
    cbn [liftFlat u16].
    unfold _u16.liftFlat, _u16.LOW_VALUE, _u16.HIGH_VALUE.
    rewrite Hr. cbn [bind]. compare_nums. decide_bounds. reflexivity.
Qed.

Lemma Marshals_u32 (o : Options) (z : Z) :
  0 <= z <= 4294967295 -> Marshals u32 o (num z).
Proof.
  intros Hz result memory. exists [num z]. split; [|split].
  - cbn [lowerFlat u32].
    unfold _u32.lowerFlat, _u32.LOW_VALUE, _u32.HIGH_VALUE.
    compare_nums. decide_bounds. reflexivity.
  - repeat constructor. apply slotHolds_i32. lia.
  - intros memory' it it' Hr. apply reads_single in Hr.
    cbn [liftFlat u32].
    unfold _u32.liftFlat, _u32.LOW_VALUE, _u32.HIGH_VALUE.
    rewrite Hr. cbn [bind]. compare_nums. decide_bounds. reflexivity.
Qed.











(** ** Discriminants *)



(** ** Carrying a slot in a wider slot and back *)


Lemma signed_mod (w b : Z) :
  0 < w -> 0 <= b < 2 ^ w -> signed w b mod 2 ^ w = b.
Proof.
  intros Hw Hb. unfold signed.
  destruct (b <? 2 ^ (w - 1)).
  - now apply Z.mod_small.
  - replace (b - 2 ^ w) with (b + (-1) * 2 ^ w) by lia.
    rewrite Z_mod_plus_full. now apply Z.mod_small.
Qed.

Lemma signed_range (w b : Z) :
  0 < w -> 0 <= b < 2 ^ w -> - 2 ^ (w - 1) <= signed w b < 2 ^ (w - 1).
Proof.
  intros Hw Hb. unfold signed.
  assert (E : 2 ^ w = 2 * 2 ^ (w - 1)).
  { replace w with (Z.succ (w - 1)) at 1 by lia.
    rewrite Z.pow_succ_r by lia. reflexivity. }
  destruct (Z.ltb_spec b (2 ^ (w - 1))); lia.
Qed.



(** ** option *)

Lemma u8_lowerFlat_num (z : Z) (result : list wasmType) (m : Memory)
  (o : Options) :
  0 <= z <= 255 ->
  lowerFlat u8 result m (num z) o = Ok (result ++ [num z], m).
Proof.
  intros Hz. cbn [lowerFlat u8].
  unfold _u8.lowerFlat, _u8.LOW_VALUE, _u8.HIGH_VALUE.
  compare_nums. decide_bounds. reflexivity.
Qed.

Lemma EnumType_new_discriminant (cases : Z) (e : EnumType.t) :
  EnumType.new cases = Ok e ->
  EnumType.cases e = cases
  /\ VariantType.discriminantType cases = Ok (EnumType.discriminant e).
Proof.
  unfold EnumType.new.
  change (EnumType.discriminantType cases)
    with (VariantType.discriminantType cases).
  destruct (VariantType.discriminantType cases) as [d|err];
    [|discriminate].
  cbn [bind]. intros [= <-]. split; reflexivity.
Qed.

(** C8. An enumeration of [cases] cases accepts the value [v] in
    [assertRange] exactly when [0 <= v <= cases]: whenever the
    discriminant can hold it (every count but 256 and 65536), the value
    [cases] itself is lifted and loaded without an error. *)
Theorem enum_accepts_the_case_count (cases : Z) (e : EnumType.t) (m : Memory) (p : ptr)
  (rest : list wasmType) (o : Options) :
  EnumType.new cases = Ok e ->
  cases <> 256 ->
  cases <> 65536 ->
  (forall v, EnumType.assertRange e (num v)
             = if (v <? 0) || (cases <? v)
               then Throw (ComponentModelError
                             "Enumeration value out of range")
               else Ok (num v))
  /\ liftFlat (EnumType.asType e) m (ArrayIterator (num cases :: rest)) o
     = Ok (num cases, ArrayIterator rest)
  /\ (load (EnumType.discriminant e) m p o = Ok (num cases) ->
      load (EnumType.asType e) m p o = Ok (num cases)).
Proof.
  intros Hnew H256 H65536.
  destruct (EnumType_new_discriminant cases e Hnew) as [Hcases Hd].
  assert (Hpos : 0 < cases).
  { rewrite discriminantType_eq in Hd.
    destruct (Z.leb_spec cases 0); [discriminate|assumption]. }
  assert (Hm : Marshals (EnumType.discriminant e) o (num cases)).
  { rewrite discriminantType_eq in Hd.
    destruct (Z.leb_spec cases 0); [discriminate|].
    destruct (Z.leb_spec cases 256).
    { injection Hd as <-. apply Marshals_u8. lia. }
    destruct (Z.leb_spec cases 65536).
    { injection Hd as <-. apply Marshals_u16. lia. }
    destruct (Z.leb_spec cases 16777216); [|discriminate].
    injection Hd as <-. apply Marshals_u32. lia. }
  split; [|split].
  - intros v. now rewrite EnumType_assertRange_num, Hcases.
  - destruct (Hm [] m) as (vals & Hlow & Hslots & Hlift).
    assert (Hvals : vals = [num cases]).
    { rewrite discriminantType_eq in Hd. revert Hlow.
      destruct (Z.leb_spec cases 0); [discriminate|].
      destruct (Z.leb_spec cases 256).
      { injection Hd as <-. rewrite u8_lowerFlat_num by lia.
        now intros [= <-]. }
      destruct (Z.leb_spec cases 65536).
      { injection Hd as <-. cbn [lowerFlat u16].
        unfold _u16.lowerFlat, _u16.LOW_VALUE, _u16.HIGH_VALUE.
        compare_nums. decide_bounds. now intros [= <-]. }
      destruct (Z.leb_spec cases 16777216); [|discriminate].
      injection Hd as <-. rewrite u32_lowerFlat_num by lia.
      now intros [= <-]. }
    subst vals.
    cbn [liftFlat EnumType.asType]. unfold EnumType.liftFlat.
    rewrite (Hlift m (ArrayIterator (num cases :: rest))
               (ArrayIterator rest) (reads_array [num cases] rest)).
    cbn [bind]. rewrite EnumType_assertRange_num, Hcases.
    destruct (Z.ltb_spec cases 0); [lia|].
    rewrite Z.ltb_irrefl. reflexivity.
  - intros Hload. cbn [load EnumType.asType]. unfold EnumType.load.
    rewrite Hload. cbn [bind]. rewrite EnumType_assertRange_num, Hcases.
    destruct (Z.ltb_spec cases 0); [lia|].
    rewrite Z.ltb_irrefl. reflexivity.
Qed.

Lemma enum_accepts_the_case_count_witness :
  EnumType.new 6 = Ok {| EnumType.discriminant := u8; EnumType.cases := 6 |}
  /\ 6 <> 256 /\ 6 <> 65536
  /\ liftFlat
       (EnumType.asType
          {| EnumType.discriminant := u8; EnumType.cases := 6 |})
       emptyMemory (ArrayIterator [num 6]) utf8
     = Ok (num 6, ArrayIterator []).
Proof.
  split; [reflexivity|]. split; [lia|]. split; [lia|].
  apply (enum_accepts_the_case_count 6 _ emptyMemory 0 [] utf8); [reflexivity|lia|lia].
Defined.

Lemma u8_liftFlat_next (z : Z) (m : Memory) (it it1 : FlatValuesIter)
  (o : Options) :
  nextValue it = Ok (num z, it1) ->
  0 <= z <= 255 ->
  liftFlat u8 m it o = Ok (num z, it1).
Proof.
  intros Hn Hz. cbn [liftFlat u8].
  unfold _u8.liftFlat, _u8.LOW_VALUE, _u8.HIGH_VALUE.
  rewrite Hn. cbn [bind]. compare_nums. decide_bounds. reflexivity.
Qed.






(** ** tuple and record *)

Lemma Js_nth_middle (pre : list JType) (v : JType) (vs : list JType) :
  Js_nth (pre ++ v :: vs) (List.length pre) = v.
Proof. unfold Js_nth. apply nth_middle. Qed.





Lemma RecordType_layout_names
  (fields : list (string * GenericComponentModelType)) :
  forall start,
    map RecordField.name (RecordType.layout start fields) = map fst fields.
Proof.
  induction fields as [|[name ty] rest IH]; intros start; cbn;
    [reflexivity|now rewrite IH].
Qed.


Lemma Js_getProp_fresh (props : list (string * JType)) (name : string) :
  ~ In name (map fst props) -> Js_getProp props name = JUndefined.
Proof.
  induction props as [|[k w] props IH]; intros Hin; cbn; [reflexivity|].
  destruct (String.eqb_spec k name) as [->|Hne].
  - elim Hin. now left.
  - apply IH. intros H. apply Hin. now right.
Qed.

Lemma Js_getProp_combine (names : list string) :
  forall (vs : list JType) (acc : list (string * JType)),
    NoDup names ->
    List.length names = List.length vs ->
    (forall n, In n names -> ~ In n (map fst acc)) ->
    map (Js_getProp (acc ++ combine names vs)) names = vs.
Proof.
  induction names as [|n names IH]; intros vs acc Hnd Hlen Hacc.
  - now destruct vs.
  - destruct vs as [|v vs]; [discriminate|].
    inversion Hnd as [|? ? Hnotin Hnd']; subst.
    cbn [map combine]. f_equal.
    + clear IH. induction acc as [|[k w] acc IHacc]; cbn.
      * now rewrite String.eqb_refl.
      * destruct (String.eqb_spec k n) as [->|Hne].
        -- elim (Hacc n); [now left|now left].
        -- apply IHacc. intros m Hm Hin. apply (Hacc m Hm). now right.
    + replace (acc ++ (n, v) :: combine names vs)
        with ((acc ++ [(n, v)]) ++ combine names vs)
        by now rewrite <- app_assoc.
      apply IH; [exact Hnd'|now injection Hlen|].
      intros m Hm Hin. rewrite map_app, in_app_iff in Hin.
      destruct Hin as [Hin|[<-|[]]].
      * apply (Hacc m); [now right|exact Hin].
      * contradiction.
Qed.

Lemma RecordType_elements_combine (names : list string) (vs : list JType)
  (fields : list RecordField.t) :
  NoDup names ->
  List.length names = List.length vs ->
  map RecordField.name fields = names ->
  RecordType.elements (JRecord (combine names vs)) fields = Ok vs.
Proof.
  intros Hnd Hlen Hnames. unfold RecordType.elements. f_equal.
  assert (Hfold : forall (fs : list RecordField.t) (acc : list JType),
    fold_left
      (fun result field =>
         push result
           (Js_getProp (combine names vs) (RecordField.name field)))
      fs acc
    = acc ++ map (Js_getProp (combine names vs))
               (map RecordField.name fs)).
  { induction fs as [|f fs IH]; intros acc; cbn.
    - now rewrite app_nil_r.
    - rewrite IH. unfold push. now rewrite <- app_assoc. }
  rewrite Hfold, Hnames. cbn [app].
  apply (Js_getProp_combine names vs []); [exact Hnd|exact Hlen|].
  intros n _ [].
Qed.

Lemma Js_setProp_fresh (props : list (string * JType)) (name : string)
  (v : JType) :
  ~ In name (map fst props) ->
  Js_setProp props name v = props ++ [(name, v)].
Proof.
  induction props as [|[k w] props IH]; intros Hin; cbn; [reflexivity|].
  destruct (String.eqb_spec k name) as [->|Hne].
  - elim Hin. now left.
  - rewrite IH; [reflexivity|]. intros H. apply Hin. now right.
Qed.

Lemma RecordType_createFrom_combine (fields : list RecordField.t) :
  forall (vs pre : list JType) (acc : list (string * JType)),
    NoDup (map RecordField.name fields) ->
    List.length fields = List.length vs ->
    (forall n, In n (map RecordField.name fields) ->
               ~ In n (map fst acc)) ->
    RecordType.createFrom acc fields (pre ++ vs) (List.length pre)
    = acc ++ combine (map RecordField.name fields) vs.
Proof.
  induction fields as [|f fields IH]; intros vs pre acc Hnd Hlen Hacc.
  - cbn. now rewrite app_nil_r.
  - destruct vs as [|v vs]; [discriminate|].
    cbn [map] in Hnd. inversion Hnd as [|? ? Hnotin Hnd']; subst.
    cbn [RecordType.createFrom map combine].
    rewrite Js_nth_middle, Js_setProp_fresh by (apply Hacc; now left).
    specialize (IH vs (pre ++ [v]) (acc ++ [(RecordField.name f, v)])).
    rewrite <- !app_assoc in IH. cbn [app] in IH.
    rewrite length_app, Nat.add_1_r in IH.
    apply IH; [exact Hnd'|now injection Hlen|].
    intros n Hn Hin. rewrite map_app, in_app_iff in Hin.
    destruct Hin as [Hin|[<-|[]]].
    + apply (Hacc n); [now right|exact Hin].
    + contradiction.
Qed.


(** ** char *)

(** ** variant: the joined flat types *)

Lemma widens_refl (a : wasmTypeName) : widens a a = true.
Proof. now destruct a. Qed.

Lemma widens_trans (a b c : wasmTypeName) :
  widens a b = true -> widens b c = true -> widens a c = true.
Proof. destruct a, b, c; cbn; congruence. Qed.

Lemma widens_join_l (a b : wasmTypeName) :
  widens a (VariantType.joinFlatType a b) = true.
Proof. now destruct a, b. Qed.

Lemma widens_join_r (a b : wasmTypeName) :
  widens b (VariantType.joinFlatType a b) = true.
Proof. now destruct a, b. Qed.

Lemma fits_refl (l : list wasmTypeName) : fits l l.
Proof.
  induction l as [|a l IH]; cbn; [exact I|].
  split; [apply widens_refl|exact IH].
Qed.

Lemma fits_trans (a : list wasmTypeName) :
  forall b c, fits a b -> fits b c -> fits a c.
Proof.
  induction a as [|x a IH]; intros b c Hab Hbc; cbn; [exact I|].
  destruct b as [|y b]; [contradiction|].
  destruct c as [|z c]; [contradiction|].
  cbn in Hab, Hbc. destruct Hab as [Hxy Hab]. destruct Hbc as [Hyz Hbc].
  split; [eapply widens_trans; eassumption|eapply IH; eassumption].
Qed.

Lemma fits_joinInto_l (flat : list wasmTypeName) :
  forall ws, fits flat (VariantType.joinInto flat ws).
Proof.
  induction flat as [|f flat IH]; intros ws; [exact I|].
  destruct ws as [|w ws]; cbn.
  - split; [apply widens_refl|apply fits_refl].
  - split; [apply widens_join_l|apply IH].
Qed.

Lemma fits_joinInto_r (ws : list wasmTypeName) :
  forall flat, fits ws (VariantType.joinInto flat ws).
Proof.
  induction ws as [|w ws IH]; intros flat; [exact I|].
  destruct flat as [|f flat]; cbn.
  - split; [apply widens_refl|apply fits_refl].
  - split; [apply widens_join_r|apply IH].
Qed.


(** The case objects after the loop of [flatTypes]: every case keeps its
    type, a case with a payload has the flat types of its payload
    appended to [wantFlatTypes], and these fit the joined flat types. *)
Lemma flatLoop_cases (cases : list VariantCase.t) :
  forall (flat flat' : list wasmTypeName) (cases' : list VariantCase.t),
    VariantType.flatLoop flat cases = (flat', cases') ->
    fits flat flat'
    /\ forall (i : nat) (c : VariantCase.t),
        nth_error cases i = Some c ->
        exists c',
          nth_error cases' i = Some c'
          /\ VariantCase.type c' = VariantCase.type c
          /\ forall ty, VariantCase.type c = Some ty ->
               VariantCase.wantFlatTypes c'
               = option_map (fun want => want ++ flatTypes ty)
                   (VariantCase.wantFlatTypes c)
               /\ fits (flatTypes ty) flat'.
Proof.
  induction cases as [|c0 cases IH]; intros flat flat' cases' H.
  - cbn in H. injection H as <- <-. split; [apply fits_refl|].
    intros i c Hi. destruct i; discriminate.
  - cbn [VariantType.flatLoop] in H.
    destruct (VariantCase.type c0) as [ty0|] eqn:Hty.
    + destruct (VariantType.flatLoop
                  (VariantType.joinInto flat (flatTypes ty0)) cases)
        as [flat1 rest] eqn:Hloop.
      injection H as <- <-.
      destruct (IH _ _ _ Hloop) as [Hfits Hcases].
      split.
      * eapply fits_trans; [apply fits_joinInto_l|exact Hfits].
      * intros [|i] c Hi.
        -- injection Hi as <-. eexists. split; [reflexivity|].
           split; [cbn; now rewrite Hty|].
           intros ty Hc. rewrite Hty in Hc. injection Hc as <-.
           split.
           ++ cbn. now destruct (VariantCase.wantFlatTypes c0).
           ++ eapply fits_trans; [apply fits_joinInto_r|exact Hfits].
        -- exact (Hcases i c Hi).
    + destruct (VariantType.flatLoop flat cases) as [flat1 rest] eqn:Hloop.
      injection H as <- <-.
      destruct (IH _ _ _ Hloop) as [Hfits Hcases].
      split; [exact Hfits|].
      intros [|i] c Hi.
      * injection Hi as <-. exists c0. split; [reflexivity|].
        split; [reflexivity|].
        intros ty Hc. rewrite Hty in Hc. discriminate.
      * exact (Hcases i c Hi).
Qed.

Lemma makeCases_nth (variants : list (option GenericComponentModelType)) :
  forall (start : Z) (i : nat),
    nth_error (VariantType.makeCases variants start) i
    = option_map (VariantCase.create (start + Z.of_nat i))
        (nth_error variants i).
Proof.
  induction variants as [|ty variants IH]; intros start i.
  - now destruct i.
  - destruct i as [|i]; cbn [VariantType.makeCases nth_error option_map].
    + now rewrite Z.add_0_r.
    + rewrite IH. do 2 f_equal. lia.
Qed.

Lemma makeCases_length (variants : list (option GenericComponentModelType)) :
  forall start,
    List.length (VariantType.makeCases variants start)
    = List.length variants.
Proof.
  induction variants as [|ty variants IH]; intros start; cbn;
    [reflexivity|now rewrite IH].
Qed.

(** What the constructor leaves in a variant, for the case at index [i]. *)
Lemma VariantType_new_case
  (variants : list (option GenericComponentModelType))
  (ctor : JType -> JType -> JType) (kind : ComponentModelTypeKind)
  (V : VariantType.t) (i : nat) (type : option GenericComponentModelType) :
  VariantType.new variants ctor kind = Ok V ->
  nth_error variants i = Some type ->
  exists (d : ComponentModelType) (flat : list wasmTypeName)
         (c : VariantCase.t),
    VariantType.discriminantType (Z.of_nat (List.length variants)) = Ok d
    /\ VariantType.discriminant V = d
    /\ VariantType.ctor V = ctor
    /\ VariantType.flatTypes V = flatTypes d ++ flat
    /\ VariantType.caseAt V (num (Z.of_nat i)) = Ok c
    /\ VariantCase.type c = type
    /\ forall ty, type = Some ty ->
         VariantCase.wantFlatTypes c = Some (flatTypes ty)
         /\ fits (flatTypes ty) flat.
Proof.
  intros Hnew Hi. unfold VariantType.new in Hnew.
  rewrite makeCases_length in Hnew.
  destruct (VariantType.discriminantType (Z.of_nat (List.length variants)))
    as [d|err] eqn:Hd; [|discriminate].
  cbn [bind] in Hnew. unfold VariantType.flatTypes_of in Hnew.
  destruct (VariantType.flatLoop [] (VariantType.makeCases variants 0))
    as [flat cases'] eqn:Hloop.
  injection Hnew as <-.
  destruct (flatLoop_cases _ _ _ _ Hloop) as [_ Hcases].
  destruct (Hcases i (VariantCase.create (0 + Z.of_nat i) type))
    as (c & Hc & Htype & Hwant).
  { rewrite makeCases_nth, Hi. reflexivity. }
  exists d, flat, c. repeat split; try reflexivity.
  - unfold VariantType.caseAt, Js_at, num.
    cbn [VariantType.cases].
    destruct (Z.ltb_spec (Z.of_nat i) 0); [lia|].
    now rewrite Nat2Z.id, Hc.
  - exact Htype.
  - destruct (Hwant ty) as [Hw _]; [now subst type|].
    rewrite Hw. now subst type.
  - destruct (Hwant ty) as [_ Hf]; [now subst type|]. exact Hf.
Qed.
(** ** variant: coercion on lower and on lift *)




(** ** variant *)






(** ** The round trip *)





(* ================================================================== *)
(** ** Framing: what a store writes and what a load reads *)

Lemma fromLE_toLE (n : nat) :
  forall v, fromLE (toLE n v) = v mod 2 ^ (8 * Z.of_nat n).
Proof.
  induction n as [|n IH]; intros v.
  - simpl. now rewrite Z.mod_1_r.
  - cbn [toLE fromLE]. rewrite IH.
    replace (8 * Z.of_nat (S n)) with (8 + 8 * Z.of_nat n) by lia.
    rewrite Z.pow_add_r by lia. change (2 ^ 8) with 256.
    rewrite Z.rem_mul_r by lia. reflexivity.
Qed.

Lemma getBits_agree (n : nat) (m m' : Memory) (p : ptr) (le : bool) :
  agreeOn m m' p (Z.of_nat n) ->
  DataView.getBits n m' p le = DataView.getBits n m p le.
Proof.
  intros [Hlen Hraw]. unfold DataView.getBits, inBounds. rewrite Hlen.
  destruct ((0 <=? p) && (p + Z.of_nat n <=? byteLength m)); [|reflexivity].
  do 3 f_equal. apply bytesAt_ext. exact Hraw.
Qed.

Lemma setBits_inBounds (n : nat) (m : Memory) (p bits : Z) (le : bool) :
  0 <= p -> p + Z.of_nat n <= byteLength m ->
  exists m', DataView.setBits n m p bits le = Ok m'
             /\ sameOutside m m' p (Z.of_nat n)
             /\ forall m'', agreeOn m' m'' p (Z.of_nat n) ->
                  DataView.getBits n m'' p le
                  = Ok (bits mod 2 ^ (8 * Z.of_nat n)).
Proof.
  intros Hp Hn.
  assert (Hb : inBounds m p (Z.of_nat n) = true).
  { unfold inBounds. apply andb_true_intro. split; apply Z.leb_le; lia. }
  unfold DataView.setBits. rewrite Hb. eexists. split; [reflexivity|].
  split.
  - repeat split. intros a Ha. cbn [raw withRaw].
    apply poke_outside. rewrite ordered_length, toLE_length. lia.
  - intros m'' Hag. rewrite (getBits_agree _ _ _ _ _ Hag).
    rewrite <- fromLE_toLE.
    apply (getBits_after_setBits n m _ p bits le).
    unfold DataView.setBits. now rewrite Hb.
Qed.

Lemma getBits_outOfBounds (n : nat) (m : Memory) (p : ptr) (le : bool) :
  p < 0 \/ byteLength m < p + Z.of_nat n ->
  DataView.getBits n m p le = Throw RangeError.
Proof.
  intros H. unfold DataView.getBits, inBounds.
  destruct (Z.leb_spec 0 p); destruct (Z.leb_spec (p + Z.of_nat n) (byteLength m));
    try reflexivity; lia.
Qed.

Lemma StoredAs_anywhere (T : ComponentModelType) (o : Options)
  (v w : JType) (n : Z) :
  StoredAsAnywhere T o v w n -> StoredAs T o v w n.
Proof. intros H m p Hp _ Hn. now apply H. Qed.

Ltac stored_scalar n bits :=
  let m := fresh "m" in let p := fresh "p" in
  let Hp := fresh "Hp" in let Hn := fresh "Hn" in
  let m' := fresh "m'" in let Hs := fresh "Hs" in
  let Hout := fresh "Hout" in let Hl := fresh "Hl" in
  let m'' := fresh "m''" in let Ha := fresh "Ha" in
  intros m p Hp Hn;
  destruct (setBits_inBounds n m p bits true Hp Hn)
    as (m' & Hs & Hout & Hl);
  exists m'; split; [exact Hs|split; [exact Hout|]];
  intros m'' Ha; specialize (Hl m'' Ha).

Lemma Anywhere_u8 (o : Options) (z : Z) :
  StoredAsAnywhere u8 o (num z) (num (z mod 2 ^ 8)) 1.
Proof.
  stored_scalar 1%nat (z mod 2 ^ 8).
  change (load u8 m'' p o) with (v <- DataView.getBits 1 m'' p true ;; Ok (num v)).
  rewrite Hl. cbn [bind]. rewrite Z.mod_mod by lia. reflexivity.
Qed.

Lemma Anywhere_u16 (o : Options) (z : Z) :
  StoredAsAnywhere u16 o (num z) (num (z mod 2 ^ 16)) 2.
Proof.
  stored_scalar 2%nat (z mod 2 ^ 16).
  change (load u16 m'' p o) with (v <- DataView.getBits 2 m'' p true ;; Ok (num v)).
  rewrite Hl. cbn [bind]. rewrite Z.mod_mod by lia. reflexivity.
Qed.

Lemma Anywhere_u32 (o : Options) (z : Z) :
  StoredAsAnywhere u32 o (num z) (num (z mod 2 ^ 32)) 4.
Proof.
  stored_scalar 4%nat (z mod 2 ^ 32).
  change (load u32 m'' p o) with (v <- DataView.getBits 4 m'' p true ;; Ok (num v)).
  rewrite Hl. cbn [bind]. rewrite Z.mod_mod by lia. reflexivity.
Qed.

Lemma Anywhere_u64 (o : Options) (z : Z) :
  StoredAsAnywhere u64 o (JBigInt z) (JBigInt (z mod 2 ^ 64)) 8.
Proof.
  stored_scalar 8%nat (z mod 2 ^ 64).
  change (load u64 m'' p o) with (v <- DataView.getBits 8 m'' p true ;; Ok (JBigInt v)).
  rewrite Hl. cbn [bind]. rewrite Z.mod_mod by lia. reflexivity.
Qed.

Lemma Anywhere_s8 (o : Options) (z : Z) :
  StoredAsAnywhere s8 o (num z) (num (signed 8 (z mod 2 ^ 8))) 1.
Proof.
  stored_scalar 1%nat (z mod 2 ^ 8).
  change (load s8 m'' p o)
    with (v <- (b <- DataView.getBits 1 m'' p true ;; Ok (signed 8 b)) ;;
          Ok (num v)).
  rewrite Hl. cbn [bind]. rewrite Z.mod_mod by lia. reflexivity.
Qed.

Lemma Anywhere_s16 (o : Options) (z : Z) :
  StoredAsAnywhere s16 o (num z) (num (signed 16 (z mod 2 ^ 16))) 2.
Proof.
  stored_scalar 2%nat (z mod 2 ^ 16).
  change (load s16 m'' p o)
    with (v <- (b <- DataView.getBits 2 m'' p true ;; Ok (signed 16 b)) ;;
          Ok (num v)).
  rewrite Hl. cbn [bind]. rewrite Z.mod_mod by lia. reflexivity.
Qed.

Lemma Anywhere_s32 (o : Options) (z : Z) :
  StoredAsAnywhere s32 o (num z) (num (signed 32 (z mod 2 ^ 32))) 4.
Proof.
  stored_scalar 4%nat (z mod 2 ^ 32).
  change (load s32 m'' p o)
    with (v <- (b <- DataView.getBits 4 m'' p true ;; Ok (signed 32 b)) ;;
          Ok (num v)).
  rewrite Hl. cbn [bind]. rewrite Z.mod_mod by lia. reflexivity.
Qed.

Lemma Anywhere_s64 (o : Options) (z : Z) :
  StoredAsAnywhere s64 o (JBigInt z) (JBigInt (signed 64 (z mod 2 ^ 64))) 8.
Proof.
  stored_scalar 8%nat (z mod 2 ^ 64).
  change (load s64 m'' p o)
    with (v <- (b <- DataView.getBits 8 m'' p true ;; Ok (signed 64 b)) ;;
          Ok (JBigInt v)).
  rewrite Hl. cbn [bind]. rewrite Z.mod_mod by lia. reflexivity.
Qed.

Lemma StoredAs_u8 (o : Options) (z : Z) :
  StoredAs u8 o (num z) (num (z mod 2 ^ 8)) 1.
Proof. apply StoredAs_anywhere, Anywhere_u8. Qed.

Lemma StoredAs_u16 (o : Options) (z : Z) :
  StoredAs u16 o (num z) (num (z mod 2 ^ 16)) 2.
Proof. apply StoredAs_anywhere, Anywhere_u16. Qed.

Lemma StoredAs_u32 (o : Options) (z : Z) :
  StoredAs u32 o (num z) (num (z mod 2 ^ 32)) 4.
Proof. apply StoredAs_anywhere, Anywhere_u32. Qed.

Lemma StoredAs_u64 (o : Options) (z : Z) :
  StoredAs u64 o (JBigInt z) (JBigInt (z mod 2 ^ 64)) 8.
Proof. apply StoredAs_anywhere, Anywhere_u64. Qed.

Lemma StoredAs_s8 (o : Options) (z : Z) :
  StoredAs s8 o (num z) (num (signed 8 (z mod 2 ^ 8))) 1.
Proof. apply StoredAs_anywhere, Anywhere_s8. Qed.

Lemma StoredAs_s16 (o : Options) (z : Z) :
  StoredAs s16 o (num z) (num (signed 16 (z mod 2 ^ 16))) 2.
Proof. apply StoredAs_anywhere, Anywhere_s16. Qed.

Lemma StoredAs_s32 (o : Options) (z : Z) :
  StoredAs s32 o (num z) (num (signed 32 (z mod 2 ^ 32))) 4.
Proof. apply StoredAs_anywhere, Anywhere_s32. Qed.

Lemma StoredAs_s64 (o : Options) (z : Z) :
  StoredAs s64 o (JBigInt z) (JBigInt (signed 64 (z mod 2 ^ 64))) 8.
Proof. apply StoredAs_anywhere, Anywhere_s64. Qed.

Lemma signed_of_mod (w z : Z) :
  0 < w -> - 2 ^ (w - 1) <= z < 2 ^ (w - 1) ->
  signed w (z mod 2 ^ w) = z.
Proof.
  intros Hw Hz. unfold signed.
  assert (E : 2 ^ w = 2 * 2 ^ (w - 1)).
  { replace w with (Z.succ (w - 1)) at 1 by lia.
    rewrite Z.pow_succ_r by lia. reflexivity. }
  assert (0 < 2 ^ (w - 1)) by (apply Z.pow_pos_nonneg; lia).
  destruct (Z.ltb_spec z 0) as [Hneg|Hpos].
  - replace (z mod 2 ^ w) with (z + 2 ^ w).
    + destruct (Z.ltb_spec (z + 2 ^ w) (2 ^ (w - 1))); lia.
    + symmetry. replace (z + 2 ^ w) with (z + 1 * 2 ^ w) by lia.
      rewrite <- (Z_mod_plus_full z 1 (2 ^ w)).
      apply Z.mod_small. lia.
  - rewrite Z.mod_small by lia.
    destruct (Z.ltb_spec z (2 ^ (w - 1))); lia.
Qed.

(** ** Alignment *)

Lemma align_ge (p a : Z) : 0 < a -> p <= align p a < p + a.
Proof.
  intros Ha. unfold align.
  pose proof (Z.div_mod (p + a - 1) a ltac:(lia)) as E.
  pose proof (Z.mod_pos_bound (p + a - 1) a Ha) as B.
  lia.
Qed.

Lemma align_multiple (p a : Z) : 0 < a -> align p a mod a = 0.
Proof. intros Ha. unfold align. apply Z_mod_mult. Qed.

Lemma align_aligned (p a : Z) : 0 < a -> p mod a = 0 -> align p a = p.
Proof.
  intros Ha Hp. unfold align.
  pose proof (Z.div_mod p a ltac:(lia)) as E. rewrite Hp in E.
  replace (p + a - 1) with ((a - 1) + (p / a) * a) by lia.
  rewrite Z.div_add by lia. rewrite (Z.div_small (a - 1) a) by lia. lia.
Qed.

Lemma align_shift (p d a : Z) :
  0 < a -> p mod a = 0 -> align (p + d) a = p + align d a.
Proof.
  intros Ha Hp. unfold align.
  pose proof (Z.div_mod p a ltac:(lia)) as E. rewrite Hp in E.
  replace (p + d + a - 1) with ((d + a - 1) + (p / a) * a) by lia.
  rewrite Z.div_add by lia. lia.
Qed.

Lemma alignment_divides (a b p : Z) :
  In a [1; 2; 4; 8] -> In b [1; 2; 4; 8] -> a <= b ->
  p mod b = 0 -> p mod a = 0.
Proof.
  intros Ha Hb Hle Hp.
  assert (Hd : (a | b)).
  { cbn in Ha, Hb.
    destruct Ha as [<-|[<-|[<-|[<-|[]]]]];
      destruct Hb as [<-|[<-|[<-|[<-|[]]]]]; try lia;
      try (now exists 1); try (now exists 2); try (now exists 4);
      try (now exists 8). }
  assert (a <> 0) by (cbn in Ha; lia).
  assert (b <> 0) by (cbn in Hb; lia).
  apply Z.mod_divide; [assumption|].
  apply (Z.divide_trans _ b); [exact Hd|].
  now apply Z.mod_divide.
Qed.

Lemma alignmentOk_pos (a : Z) : In a [1; 2; 4; 8] -> 0 < a.
Proof. cbn. lia. Qed.

Lemma alignment_max (a b : Z) :
  In a [1; 2; 4; 8] -> In b [1; 2; 4; 8] -> In (Z.max a b) [1; 2; 4; 8].
Proof.
  intros Ha Hb. destruct (Z.max_spec a b) as [[_ ->]|[_ ->]]; assumption.
Qed.

Lemma sameOutside_refl (m : Memory) (p n : Z) : sameOutside m m p n.
Proof. repeat split. Qed.

Lemma sameOutside_within (m m' : Memory) (p n q k : Z) :
  sameOutside m m' p n -> q <= p -> p + n <= q + k ->
  sameOutside m m' q k.
Proof.
  intros (H1 & H2 & H3 & H4) Hq Hk. repeat split; try assumption.
  intros a Ha. apply H4. lia.
Qed.

Lemma sameOutside_trans (m1 m2 m3 : Memory) (p n : Z) :
  sameOutside m1 m2 p n -> sameOutside m2 m3 p n -> sameOutside m1 m3 p n.
Proof.
  intros (A1 & A2 & A3 & A4) (B1 & B2 & B3 & B4).
  repeat split; try congruence.
  intros a Ha. rewrite B4 by exact Ha. now apply A4.
Qed.

Lemma agreeOn_within (m m' : Memory) (p n q k : Z) :
  agreeOn m m' p n -> p <= q -> q + k <= p + n -> agreeOn m m' q k.
Proof.
  intros [H1 H2] Hq Hk. split; [assumption|].
  intros a Ha. apply H2. lia.
Qed.

Lemma agreeOn_refl (m : Memory) (p n : Z) : agreeOn m m p n.
Proof. split; reflexivity. Qed.

(** After a later write elsewhere, a memory still agrees on the bytes
    the earlier write left. *)
Lemma agreeOn_after (m1 m2 m3 : Memory) (p n q k : Z) :
  sameOutside m1 m2 q k ->
  agreeOn m2 m3 p n ->
  q + k <= p \/ p + n <= q ->
  agreeOn m1 m3 p n.
Proof.
  intros (A1 & _ & _ & A4) [B1 B2] Hsep. split; [congruence|].
  intros a Ha. rewrite B2 by exact Ha. apply A4. lia.
Qed.

Lemma StoredAs_within (T : ComponentModelType) (o : Options) (v w : JType)
  (n n' : Z) :
  StoredAs T o v w n -> 0 <= n -> n <= n' -> StoredAs T o v w n'.
Proof.
  intros H Hn Hle m p Hp Hal Hb.
  destruct (H m p Hp Hal ltac:(lia)) as (m' & Hs & Hout & Hl).
  exists m'. split; [exact Hs|split].
  - apply (sameOutside_within _ _ _ _ _ _ Hout); lia.
  - intros m'' Ha. apply Hl. apply (agreeOn_within _ _ _ _ _ _ Ha); lia.
Qed.

(** ** Store then load: bool, floats, char, discriminants *)

Lemma StoredAs_bool (o : Options) (v : JType) :
  StoredAs bool_ o v (JBoolean (Js.truthy v)) 1.
Proof.
  apply StoredAs_anywhere.
  stored_scalar 1%nat ((if Js.truthy v then 1 else 0) mod 2 ^ 8).
  change (load bool_ m'' p o)
    with (b <- DataView.getBits 1 m'' p true ;;
          Ok (JBoolean (negb (Js.strictEquals (num b) (num 0))))).
  rewrite Hl. cbn [bind]. now destruct (Js.truthy v).
Qed.

Lemma StoredAs_float32 (o : Options) (x : number) :
  isFloat32 x -> StoredAs float32 o (JNumber x) (JNumber x) 4.
Proof.
  intros [Hb Hx]. apply StoredAs_anywhere.
  stored_scalar 4%nat (Ieee.float32ToBits x).
  change (load float32 m'' p o)
    with (v <- (b <- DataView.getBits 4 m'' p true ;;
                Ok (Ieee.bitsToFloat32 b)) ;; Ok (JNumber v)).
  rewrite Hl. cbn [bind].
  change (8 * Z.of_nat 4) with 32. rewrite Z.mod_small by exact Hb.
  now rewrite Hx.
Qed.

Lemma StoredAs_float64 (o : Options) (x : number) :
  isFloat64 x -> StoredAs float64 o (JNumber x) (JNumber x) 8.
Proof.
  intros [Hb Hx]. apply StoredAs_anywhere.
  stored_scalar 8%nat (Ieee.float64ToBits x).
  change (load float64 m'' p o)
    with (v <- (b <- DataView.getBits 8 m'' p true ;;
                Ok (Ieee.bitsToFloat64 b)) ;; Ok (JNumber v)).
  rewrite Hl. cbn [bind].
  change (8 * Z.of_nat 8) with 64. rewrite Z.mod_small by exact Hb.
  now rewrite Hx.
Qed.

Lemma StoredAs_char (o : Options) (c : Z) :
  0 <= c <= 55295 \/ 57344 <= c <= 65535 ->
  StoredAs wchar o (JString [c]) (JString [c]) 4.
Proof.
  intros Hc m p Hp Hal Hn.
  destruct (StoredAs_u32 o c m p Hp Hal Hn) as (m' & Hs & Hout & Hl).
  exists m'. split; [|split; [exact Hout|]].
  - change (store wchar m p (JString [c]) o)
      with (code <- _wchar.asCodePoint (JString [c]) ;;
            store u32 m p code o).
    rewrite wchar_asCodePoint_unit.
    replace ((c <=? 55295) || ((55296 <=? c) && (c <=? 1114111))) with true
      by (symmetry; destruct (Z.leb_spec c 55295); [reflexivity|];
          cbn [orb]; apply andb_true_intro; split; apply Z.leb_le; lia).
    exact Hs.
  - intros m'' Ha.
    change (load wchar m'' p o)
      with (code <- load u32 m'' p o ;; _wchar.fromCodePoint code).
    rewrite (Hl m'' Ha). cbn [bind].
    rewrite Z.mod_small by lia. rewrite wchar_fromCodePoint_num.
    destruct (Z.leb_spec 1114112 c); [lia|]. cbn [orb].
    replace ((55296 <=? c) && (c <=? 57343)) with false.
    + unfold JsString.fromCodePoint, num.
      destruct (Z.ltb_spec c 0); [lia|].
      destruct (Z.ltb_spec 1114111 c); [lia|]. cbn [orb].
      destruct (Z.ltb_spec c 65536); [reflexivity|lia].
    + symmetry. destruct (Z.leb_spec 55296 c); [|reflexivity].
      destruct (Z.leb_spec c 57343); [lia|reflexivity].
Qed.

Lemma StoredAs_discriminant (o : Options) (n : Z) (d : ComponentModelType)
  (v : Z) :
  VariantType.discriminantType n = Ok d ->
  0 <= v <= n ->
  In d [u8; u16; u32] /\ StoredAs d o (num v) (num (if (n =? 256) || (n =? 65536) then if v =? n then 0 else v else v)) (size d).
Proof.
  rewrite discriminantType_eq. intros Hd Hv.
  destruct (Z.leb_spec n 0); [discriminate|].
  destruct (Z.leb_spec n 256).
  { injection Hd as <-. split; [now left|].
    destruct (Z.eqb_spec n 256) as [->|Hne]; cbn [orb].
    - destruct (Z.eqb_spec v 256) as [->|Hv'].
      + exact (StoredAs_u8 o 256).
      + pose proof (StoredAs_u8 o v) as H'.
        rewrite Z.mod_small in H' by lia. exact H'.
    - destruct (Z.eqb_spec n 65536); [lia|].
      pose proof (StoredAs_u8 o v) as H'.
      rewrite Z.mod_small in H' by lia. exact H'. }
  destruct (Z.leb_spec n 65536).
  { injection Hd as <-. split; [right; now left|].
    destruct (Z.eqb_spec n 256); [lia|]. cbn [orb].
    destruct (Z.eqb_spec n 65536) as [->|Hne].
    - destruct (Z.eqb_spec v 65536) as [->|Hv'].
      + exact (StoredAs_u16 o 65536).
      + pose proof (StoredAs_u16 o v) as H'.
        rewrite Z.mod_small in H' by lia. exact H'.
    - pose proof (StoredAs_u16 o v) as H'.
      rewrite Z.mod_small in H' by lia. exact H'. }
  destruct (Z.leb_spec n 16777216); [|discriminate].
  injection Hd as <-. split; [right; right; now left|].
  destruct (Z.eqb_spec n 256); [lia|].
  destruct (Z.eqb_spec n 65536); [lia|]. cbn [orb].
  pose proof (StoredAs_u32 o v) as H'.
  rewrite Z.mod_small in H' by lia. exact H'.
Qed.

(** ** Store then load: option *)

Lemma OptionType_size (T : ComponentModelType) :
  alignmentOk T ->
  size (OptionType.new T) = alignment T + size T
  /\ alignment (OptionType.new T) = alignment T.
Proof.
  intros Ha. pose proof (alignmentOk_pos _ Ha) as Hpos.
  cbn [size alignment OptionType.new].
  unfold OptionType.computeSize, OptionType.computeAlignment.
  change (size u8) with 1. change (alignment u8) with 1.
  split; [|lia]. f_equal. unfold align.
  replace (1 + alignment T - 1) with (0 + 1 * alignment T) by lia.
  rewrite Z.div_add by lia. rewrite Z.div_0_l by lia. lia.
Qed.

Lemma option_case_stored (T : ComponentModelType) (o : Options)
  (c : Z) (m : Memory) (p : ptr) :
  alignmentOk T -> 0 <= size T -> 0 <= c <= 255 ->
  0 <= p -> p + size (OptionType.new T) <= byteLength m ->
  exists m', store u8 m p (num c) o = Ok m'
             /\ sameOutside m m' p 1
             /\ forall m'', agreeOn m' m'' p 1 ->
                  load u8 m'' p o = Ok (num c).
Proof.
  intros Ha Hs Hc Hp Hn.
  destruct (OptionType_size T Ha) as [Hsz _].
  pose proof (alignmentOk_pos _ Ha).
  destruct (StoredAs_u8 o c m p Hp (Z.mod_1_r p) ltac:(lia))
    as (m' & H1 & H2 & H3).
  rewrite Z.mod_small in H3 by lia. now exists m'.
Qed.

Lemma StoredAs_option_absent (T : ComponentModelType) (o : Options)
  (v w : JType) :
  alignmentOk T -> 0 <= size T ->
  OptionType.asOptionValue v o = Ok (JOption option_.none JUndefined) ->
  w = (if keepOption_set o then option_._ctor option_.none JUndefined
       else JUndefined) ->
  StoredAs (OptionType.new T) o v w (size (OptionType.new T)).
Proof.
  intros Ha Hs Hv -> m p Hp Hal Hn.
  destruct (OptionType_size T Ha) as [Hsz _].
  pose proof (alignmentOk_pos _ Ha).
  destruct (option_case_stored T o 0 m p Ha Hs ltac:(lia) Hp Hn)
    as (m' & H1 & H2 & H3).
  exists m'. split; [|split].
  - change (store (OptionType.new T) m p v o)
      with (OptionType.store T m p v o).
    unfold OptionType.store. rewrite Hv. cbn [bind Js_case].
    change option_.none with (num 0). rewrite H1. reflexivity.
  - apply (sameOutside_within _ _ _ _ _ _ H2); lia.
  - intros m'' Hag.
    change (load (OptionType.new T) m'' p o)
      with (OptionType.load T m'' p o).
    unfold OptionType.load.
    rewrite (H3 m'') by (apply (agreeOn_within _ _ _ _ _ _ Hag); lia).
    reflexivity.
Qed.

Lemma StoredAs_option_present (T : ComponentModelType) (o : Options)
  (v w x : JType) :
  alignmentOk T ->
  StoredAs T o x x (size T) -> 0 <= size T ->
  OptionType.asOptionValue v o = Ok (JOption option_.some x) ->
  w = (if keepOption_set o then option_._ctor option_.some x else x) ->
  StoredAs (OptionType.new T) o v w (size (OptionType.new T)).
Proof.
  intros Ha HT Hs Hv -> m p Hp Hal Hn.
  destruct (OptionType_size T Ha) as [Hsz Halign].
  pose proof (alignmentOk_pos _ Ha) as Hpos.
  rewrite Halign in Hal.
  destruct (option_case_stored T o 1 m p Ha Hs ltac:(lia) Hp Hn)
    as (m1 & H1 & H2 & H3).
  assert (Hq : align (p + 1) (alignment T) = p + alignment T).
  { rewrite align_shift by assumption. f_equal. unfold align.
    replace (1 + alignment T - 1) with (0 + 1 * alignment T) by lia.
    rewrite Z.div_add by lia. rewrite Z.div_0_l by lia. lia. }
  destruct H2 as (L1 & L2 & L3 & L4).
  destruct (HT m1 (p + alignment T)) as (m2 & K1 & K2 & K3).
  { lia. }
  { rewrite <- Zplus_mod_idemp_l, Hal, Z.add_0_l. apply Z_mod_same_full. }
  { rewrite L1. lia. }
  exists m2. split; [|split].
  - change (store (OptionType.new T) m p v o)
      with (OptionType.store T m p v o).
    unfold OptionType.store. rewrite Hv. cbn [bind Js_case Js_value].
    change option_.some with (num 1). rewrite H1. cbn [bind].
    change (Js.strictEquals (num 1) (num 1)) with true.
    cbv iota. change (size u8) with 1. rewrite Hq. exact K1.
  - apply (sameOutside_trans _ m1).
    + apply (sameOutside_within m m1 p 1); [repeat split; assumption|lia|lia].
    + apply (sameOutside_within _ _ _ _ _ _ K2); lia.
  - intros m'' Hag.
    change (load (OptionType.new T) m'' p o)
      with (OptionType.load T m'' p o).
    unfold OptionType.load.
    rewrite (H3 m'').
    + cbn [bind]. change (Js.strictEquals (num 1) option_.none) with false.
      cbv iota. change (size u8) with 1.
      unfold OptionType.computeAlignment. change (alignment u8) with 1.
      rewrite Z.max_r by lia. rewrite Hq.
      rewrite (K3 m'').
      * reflexivity.
      * apply (agreeOn_within _ _ _ _ _ _ Hag); lia.
    + apply (agreeOn_after m1 m2 m'' p 1 (p + alignment T) (size T)).
      * exact K2.
      * apply (agreeOn_within _ _ _ _ _ _ Hag); lia.
      * lia.
Qed.

(** ** Store then load: the fields of a record or tuple *)

Lemma layoutEnd_ge (types : list ComponentModelType) :
  Forall (fun T => alignmentOk T /\ 0 <= size T) types ->
  forall start, start <= layoutEnd start types.
Proof.
  induction 1 as [|T types [Ha Hs] _ IH]; intros start; cbn [layoutEnd].
  - lia.
  - pose proof (align_ge start (alignment T) (alignmentOk_pos _ Ha)).
    specialize (IH (align start (alignment T) + size T)). lia.
Qed.

Lemma Confined_layout (o : Options) (types : list ComponentModelType)
  (vs : list JType) :
  Forall2 (Confined o) types vs ->
  Forall (fun T => alignmentOk T /\ 0 <= size T) types.
Proof.
  induction 1 as [|T v types vs (_ & Ha & Hs) _ IH]; constructor;
    [split|]; assumption.
Qed.

Lemma mod_add_aligned (p q a : Z) :
  0 < a -> p mod a = 0 -> q mod a = 0 -> (p + q) mod a = 0.
Proof.
  intros Ha Hp Hq. rewrite Z.add_mod by lia. rewrite Hp, Hq.
  apply Z.mod_0_l. lia.
Qed.

Lemma fields_store_load (o : Options) (F : Type) (typed : F -> TypedField)
  (types : list ComponentModelType) (vs : list JType) :
  Forall2 (Confined o) types vs ->
  forall (fields : list F) (start : Z) (pre : list JType) (m : Memory)
         (p : ptr),
    map (fun f => type (typed f)) fields = types ->
    map (fun f => offset (typed f)) fields = offsetsFrom start types ->
    0 <= start -> 0 <= p ->
    (forall T, In T types -> p mod alignment T = 0) ->
    p + layoutEnd start types <= byteLength m ->
    exists m' : Memory,
      BaseRecordType.storeFields typed m p (pre ++ vs) o fields
        (List.length pre) = Ok m'
      /\ sameOutside m m' (p + start) (layoutEnd start types - start)
      /\ forall (m'' : Memory) (acc : list JType),
          agreeOn m' m'' (p + start) (layoutEnd start types - start) ->
          BaseRecordType.loadFields typed m'' p o fields acc
          = Ok (acc ++ vs).
Proof.
  induction 1 as [|T v types vs (HT & Ha & Hs) Hrest IH];
    intros fields start pre m p Htypes Hoffs Hstart Hp Hal Hn.
  - destruct fields; [|discriminate]. exists m. split; [|split].
    + reflexivity.
    + apply sameOutside_refl.
    + intros m'' acc _. cbn. now rewrite app_nil_r.
  - destruct fields as [|f fields]; [discriminate|].
    cbn [map] in Htypes, Hoffs. cbn [offsetsFrom] in Hoffs.
    injection Htypes as HfT Htypes. injection Hoffs as Hfo Hoffs.
    pose proof (alignmentOk_pos _ Ha) as Hpos.
    pose proof (align_ge start (alignment T) Hpos) as Hge.
    pose proof (align_multiple start (alignment T) Hpos) as Hmult.
    pose proof (layoutEnd_ge types (Confined_layout o _ _ Hrest)
                  (align start (alignment T) + size T)) as Hend.
    cbn [layoutEnd] in Hn |- *.
    set (off := align start (alignment T)) in *.
    set (fin := layoutEnd (off + size T) types) in *.
    destruct (HT m (p + off)) as (m1 & S1 & O1 & L1).
    { lia. }
    { apply mod_add_aligned; [assumption| |assumption].
      apply Hal. now left. }
    { lia. }
    assert (Hlen1 : byteLength m1 = byteLength m) by apply O1.
    destruct (IH fields (off + size T) (pre ++ [v]) m1 p Htypes Hoffs)
      as (m2 & S2 & O2 & L2).
    { lia. }
    { assumption. }
    { intros U HU. apply Hal. now right. }
    { rewrite Hlen1. fold fin. lia. }
    fold fin in O2, L2.
    exists m2. split; [|split].
    + cbn [BaseRecordType.storeFields].
      rewrite HfT, Hfo, Js_nth_middle, S1. cbn [bind].
      rewrite <- app_assoc in S2. cbn [app] in S2.
      rewrite length_app, Nat.add_1_r in S2. exact S2.
    + apply (sameOutside_trans _ m1).
      * apply (sameOutside_within _ _ _ _ _ _ O1); lia.
      * apply (sameOutside_within _ _ _ _ _ _ O2); lia.
    + intros m'' acc Hag.
      cbn [BaseRecordType.loadFields].
      rewrite HfT, Hfo.
      rewrite (L1 m'').
      * cbn [bind]. rewrite (L2 m'' (push acc v)).
        -- unfold push. now rewrite <- app_assoc.
        -- apply (agreeOn_within _ _ _ _ _ _ Hag); lia.
      * apply (agreeOn_after m1 m2 m'' (p + off) (size T)
                 (p + (off + size T)) (fin - (off + size T))).
        -- exact O2.
        -- apply (agreeOn_within _ _ _ _ _ _ Hag); lia.
        -- lia.
Qed.

(** ** Store then load: tuple and record *)

Lemma maxAlignment_ok (fields : list TypedField) :
  Forall alignmentOk (map type fields) ->
  In (maxAlignment fields) [1; 2; 4; 8]
  /\ forall T, In T (map type fields) -> alignment T <= maxAlignment fields.
Proof.
  induction fields as [|f fields IH]; cbn [map maxAlignment fold_right];
    intros H.
  - split; [now left|intros T []].
  - inversion H as [|? ? Hf Hrest]; subst.
    destruct (IH Hrest) as [Hin Hle]. split.
    + now apply alignment_max.
    + intros T [<-|HT]; [lia|]. specialize (Hle T HT).
      fold (maxAlignment fields). lia.
Qed.

Lemma sumOfSizes_nonneg (fields : list TypedField) :
  Forall (fun T => 0 <= size T) (map type fields) ->
  0 <= sumOfSizes fields.
Proof.
  induction fields as [|f fields IH]; cbn [map sumOfSizes fold_right];
    intros H.
  - lia.
  - inversion H; subst. fold (sumOfSizes fields). specialize (IH H3). lia.
Qed.

Lemma TupleType_alignment (types : list ComponentModelType) :
  alignment (TupleType.new types)
  = maxAlignment (TupleType.layout 0 types).
Proof.
  cbn [alignment TupleType.new BaseRecordType.new].
  now rewrite map_id, BaseRecordType_alignment_max.
Qed.

Lemma TupleType_size (types : list ComponentModelType) :
  size (TupleType.new types) = sumOfSizes (TupleType.layout 0 types).
Proof.
  cbn [size TupleType.new BaseRecordType.new].
  now rewrite map_id, BaseRecordType_size_sum.
Qed.

Lemma RecordType_alignment
  (fields : list (string * GenericComponentModelType)) :
  alignment (RecordType.new fields)
  = maxAlignment (map RecordField.typed (RecordType.layout 0 fields)).
Proof.
  cbn [alignment RecordType.new BaseRecordType.new].
  now rewrite BaseRecordType_alignment_max.
Qed.

Lemma RecordType_size
  (fields : list (string * GenericComponentModelType)) :
  size (RecordType.new fields)
  = sumOfSizes (map RecordField.typed (RecordType.layout 0 fields)).
Proof.
  cbn [size RecordType.new BaseRecordType.new].
  now rewrite BaseRecordType_size_sum.
Qed.

Lemma Confined_alignments (o : Options) (types : list ComponentModelType)
  (vs : list JType) :
  Forall2 (Confined o) types vs -> Forall alignmentOk types.
Proof.
  induction 1 as [|T v types vs (_ & Ha & _) _ IH]; constructor; assumption.
Qed.

Lemma Confined_sizes (o : Options) (types : list ComponentModelType)
  (vs : list JType) :
  Forall2 (Confined o) types vs -> Forall (fun T => 0 <= size T) types.
Proof.
  induction 1 as [|T v types vs (_ & _ & Hs) _ IH]; constructor; assumption.
Qed.

Lemma StoredAs_tuple (o : Options) (types : list ComponentModelType)
  (vs : list JType) :
  Forall2 (Confined o) types vs ->
  StoredAs (TupleType.new types) o (JArray vs) (JArray vs)
    (layoutEnd 0 types)
  /\ alignmentOk (TupleType.new types)
  /\ 0 <= size (TupleType.new types).
Proof.
  intros Hall.
  pose proof (Confined_alignments o _ _ Hall) as Hals.
  pose proof (Confined_sizes o _ _ Hall) as Hszs.
  rewrite <- (TupleType_layout_types types 0) in Hals, Hszs.
  destruct (maxAlignment_ok _ Hals) as [Hmax Hle].
  split; [|split].
  - intros m p Hp Hal Hn. rewrite TupleType_alignment in Hal.
    destruct (fields_store_load o TupleField.t (fun f => f) types vs Hall
                (TupleType.layout 0 types) 0 [] m p)
      as (m' & S & O & L).
    + apply TupleType_layout_types.
    + apply TupleType_layout_offsets.
    + lia.
    + assumption.
    + intros T HT. rewrite <- (TupleType_layout_types types 0) in HT.
      apply (alignment_divides _ (maxAlignment (TupleType.layout 0 types)));
        try assumption.
      * rewrite Forall_forall in Hals. now apply Hals.
      * now apply Hle.
    + assumption.
    + rewrite Z.add_0_r, Z.sub_0_r in O, L.
      exists m'. split; [exact S|split; [exact O|]].
      intros m'' Hag.
      cbn [load TupleType.new BaseRecordType.new].
      unfold BaseRecordType.load. rewrite (L m'' [] Hag). reflexivity.
  - unfold alignmentOk. now rewrite TupleType_alignment.
  - rewrite TupleType_size. now apply sumOfSizes_nonneg.
Qed.

Lemma StoredAs_record (o : Options)
  (fields : list (string * GenericComponentModelType)) (vs : list JType) :
  NoDup (map fst fields) ->
  Forall2 (Confined o) (map snd fields) vs ->
  StoredAs (RecordType.new fields) o
    (JRecord (combine (map fst fields) vs))
    (JRecord (combine (map fst fields) vs))
    (layoutEnd 0 (map snd fields))
  /\ alignmentOk (RecordType.new fields)
  /\ 0 <= size (RecordType.new fields).
Proof.
  intros Hnd Hall.
  pose proof (Forall2_length Hall) as Hlen. rewrite length_map in Hlen.
  pose proof (Confined_alignments o _ _ Hall) as Hals.
  pose proof (Confined_sizes o _ _ Hall) as Hszs.
  rewrite <- (RecordType_layout_types fields 0) in Hals, Hszs.
  destruct (maxAlignment_ok _ Hals) as [Hmax Hle].
  split; [|split].
  - intros m p Hp Hal Hn. rewrite RecordType_alignment in Hal.
    destruct (fields_store_load o RecordField.t RecordField.typed
                (map snd fields) vs Hall
                (RecordType.layout 0 fields) 0 [] m p)
      as (m' & S & O & L).
    + rewrite <- (RecordType_layout_types fields 0). now rewrite map_map.
    + rewrite <- (RecordType_layout_offsets fields 0). now rewrite map_map.
    + lia.
    + assumption.
    + intros T HT. rewrite <- (RecordType_layout_types fields 0) in HT.
      apply (alignment_divides _
               (maxAlignment
                  (map RecordField.typed (RecordType.layout 0 fields))));
        try assumption.
      * rewrite Forall_forall in Hals. now apply Hals.
      * now apply Hle.
    + assumption.
    + rewrite Z.add_0_r, Z.sub_0_r in O, L.
      exists m'. split; [|split; [exact O|]].
      * cbn [store RecordType.new BaseRecordType.new].
        unfold BaseRecordType.store.
        rewrite (RecordType_elements_combine (map fst fields) vs);
          [exact S|exact Hnd|now rewrite length_map
          |apply RecordType_layout_names].
      * intros m'' Hag.
        cbn [load RecordType.new BaseRecordType.new].
        unfold BaseRecordType.load. rewrite (L m'' [] Hag).
        cbn [bind app]. unfold RecordType.create.
        pose proof (RecordType_createFrom_combine
                      (RecordType.layout 0 fields) vs [] []) as Hc.
        rewrite RecordType_layout_names in Hc. cbn [app List.length] in Hc.
        rewrite Hc; [reflexivity|exact Hnd| |intros n _ []].
        rewrite <- Hlen, <- (length_map RecordField.name).
        now rewrite RecordType_layout_names, length_map.
  - unfold alignmentOk. now rewrite RecordType_alignment.
  - rewrite RecordType_size. now apply sumOfSizes_nonneg.
Qed.

(** ** Store then load: enum and variant *)

Lemma discriminant_stored (o : Options) (n : Z) (d : ComponentModelType)
  (v : Z) :
  VariantType.discriminantType n = Ok d ->
  0 <= v < n ->
  StoredAs d o (num v) (num v) (size d)
  /\ alignmentOk d /\ 0 < size d /\ alignment d = size d.
Proof.
  rewrite discriminantType_eq. intros Hd Hv.
  destruct (Z.leb_spec n 0); [discriminate|].
  destruct (Z.leb_spec n 256).
  { injection Hd as <-. split; [|split; [now left|split; reflexivity]].
    pose proof (StoredAs_u8 o v) as H'.
    rewrite Z.mod_small in H' by lia. exact H'. }
  destruct (Z.leb_spec n 65536).
  { injection Hd as <-.
    split; [|split; [right; now left|split; reflexivity]].
    pose proof (StoredAs_u16 o v) as H'.
    rewrite Z.mod_small in H' by lia. exact H'. }
  destruct (Z.leb_spec n 16777216); [|discriminate].
  injection Hd as <-.
  split; [|split; [right; right; now left|split; reflexivity]].
  pose proof (StoredAs_u32 o v) as H'.
  rewrite Z.mod_small in H' by lia. exact H'.
Qed.

Lemma StoredAs_enum (o : Options) (cases : Z) (e : EnumType.t) (v : Z) :
  EnumType.new cases = Ok e ->
  0 <= v < cases ->
  StoredAs (EnumType.asType e) o (num v) (num v)
    (size (EnumType.asType e))
  /\ alignmentOk (EnumType.asType e)
  /\ 0 <= size (EnumType.asType e).
Proof.
  intros Hnew Hv.
  destruct (EnumType_new_discriminant cases e Hnew) as [Hcases Hd].
  destruct (discriminant_stored o cases _ v Hd Hv) as (HS & Ha & Hs & _).
  split; [|split; [exact Ha|cbn [size EnumType.asType]; lia]].
  intros m p Hp Hal Hn.
  destruct (HS m p Hp Hal Hn) as (m' & S & O & L).
  exists m'. split; [exact S|split; [exact O|]].
  intros m'' Hag.
  cbn [load EnumType.asType]. unfold EnumType.load.
  rewrite (L m'' Hag). cbn [bind].
  rewrite EnumType_assertRange_num, Hcases.
  destruct (Z.ltb_spec v 0); [lia|].
  destruct (Z.ltb_spec cases v); [lia|]. reflexivity.
Qed.

Lemma maxCaseAlignment_from
  (variants : list (option GenericComponentModelType)) :
  caseTypesOk variants ->
  forall (start acc : Z),
    In acc [1; 2; 4; 8] ->
    let r := fold_left
               (fun result c =>
                  match VariantCase.type c with
                  | Some ty => Z.max result (alignment ty)
                  | None => result
                  end)
               (VariantType.makeCases variants start) acc in
    In r [1; 2; 4; 8] /\ acc <= r
    /\ forall T, In (Some T) variants -> alignment T <= r.
Proof.
  induction 1 as [|c variants Hc _ IH]; intros start acc Hacc;
    cbn [VariantType.makeCases fold_left].
  - split; [assumption|split; [lia|intros T []]].
  - destruct c as [U|]; cbn [VariantCase.create VariantCase.type].
    + destruct Hc as [Ha _].
      destruct (IH (start + 1) (Z.max acc (alignment U))
                  (alignment_max _ _ Hacc Ha)) as (H1 & H2 & H3).
      split; [exact H1|split; [lia|]].
      intros T [HT|HT]; [injection HT as <-; lia|now apply H3].
    + destruct (IH (start + 1) acc Hacc) as (H1 & H2 & H3).
      split; [exact H1|split; [exact H2|]].
      intros T [HT|HT]; [discriminate|now apply H3].
Qed.

Lemma maxCaseSize_from
  (variants : list (option GenericComponentModelType)) :
  forall (start acc : Z),
    let r := fold_left
               (fun result c =>
                  match VariantCase.type c with
                  | Some ty => Z.max result (size ty)
                  | None => result
                  end)
               (VariantType.makeCases variants start) acc in
    acc <= r /\ forall T, In (Some T) variants -> size T <= r.
Proof.
  induction variants as [|c variants IH]; intros start acc;
    cbn [VariantType.makeCases fold_left].
  - split; [lia|intros T []].
  - destruct c as [U|]; cbn [VariantCase.create VariantCase.type].
    + destruct (IH (start + 1) (Z.max acc (size U))) as (H2 & H3).
      split; [lia|].
      intros T [HT|HT]; [injection HT as <-; lia|now apply H3].
    + destruct (IH (start + 1) acc) as (H2 & H3).
      split; [exact H2|].
      intros T [HT|HT]; [discriminate|now apply H3].
Qed.

Lemma VariantType_new_layout
  (variants : list (option GenericComponentModelType))
  (ctor : JType -> JType -> JType) (kind : ComponentModelTypeKind)
  (V : VariantType.t) :
  VariantType.new variants ctor kind = Ok V ->
  VariantType.maxAlignment V
  = VariantType.maxCaseAlignment (VariantType.makeCases variants 0)
  /\ VariantType.size V
     = align (size (VariantType.discriminant V))
         (VariantType.maxAlignment V)
       + VariantType.maxCaseSize (VariantType.makeCases variants 0)
  /\ VariantType.alignment V
     = Z.max (alignment (VariantType.discriminant V))
         (VariantType.maxAlignment V).
Proof.
  unfold VariantType.new. rewrite makeCases_length.
  destruct (VariantType.discriminantType (Z.of_nat (List.length variants)))
    as [d|err]; [|discriminate].
  cbn [bind]. unfold VariantType.flatTypes_of.
  destruct (VariantType.flatLoop [] (VariantType.makeCases variants 0))
    as [flat cases'].
  intros [= <-]. repeat split.
Qed.

Lemma StoredAs_variant (o : Options)
  (variants : list (option GenericComponentModelType))
  (ctor : JType -> JType -> JType) (kind : ComponentModelTypeKind)
  (V : VariantType.t) (i : nat) (ty : option ComponentModelType)
  (v : JType) :
  VariantType.new variants ctor kind = Ok V ->
  (forall c x, Js_case (ctor c x) = c /\ Js_value (ctor c x) = x) ->
  caseTypesOk variants ->
  nth_error variants i = Some ty ->
  match ty with
  | Some T => StoredAs T o v v (size T) /\ v <> JUndefined
  | None => v = JUndefined
  end ->
  StoredAs (VariantType.asType V) o (ctor (num (Z.of_nat i)) v)
    (ctor (num (Z.of_nat i)) v) (size (VariantType.asType V))
  /\ alignmentOk (VariantType.asType V)
  /\ 0 <= size (VariantType.asType V).
Proof.
  intros Hnew Hctor Hok Hi Hty.
  destruct (VariantType_new_case variants ctor kind V i ty Hnew Hi)
    as (d & flat & c & Hd & HVd & HVc & _ & Hcase & Hctype & _).
  destruct (VariantType_new_layout variants ctor kind V Hnew)
    as (HmaxA & Hsize & Halign).
  assert (Hilt : 0 <= Z.of_nat i < Z.of_nat (List.length variants)).
  { split; [lia|]. apply Nat2Z.inj_lt. apply nth_error_Some. now rewrite Hi. }
  destruct (discriminant_stored o _ d (Z.of_nat i) Hd Hilt)
    as (HS & Had & Hsd & Hads).
  destruct (maxCaseAlignment_from variants Hok 0 1 ltac:(now left))
    as (HmA & _ & HleA).
  destruct (maxCaseSize_from variants 0 0) as (HmS & HleS).
  fold (VariantType.maxCaseAlignment (VariantType.makeCases variants 0))
    in HmA, HleA.
  fold (VariantType.maxCaseSize (VariantType.makeCases variants 0))
    in HmS, HleS.
  rewrite <- HmaxA in HmA, HleA. rewrite HVd in Hsize, Halign.
  pose proof (alignmentOk_pos _ HmA) as HposA.
  pose proof (align_ge (size d) (VariantType.maxAlignment V) HposA) as Hge.
  pose proof (align_multiple (size d) (VariantType.maxAlignment V) HposA)
    as Hmult.
  assert (HalV : In (VariantType.alignment V) [1; 2; 4; 8]).
  { rewrite Halign. now apply alignment_max. }
  split; [|split; [exact HalV|cbn [size VariantType.asType]; lia]].
  intros m p Hp Hal Hn.
  cbn [alignment size VariantType.asType] in Hal, Hn.
  assert (Hpd : p mod alignment d = 0).
  { apply (alignment_divides _ (VariantType.alignment V)); try assumption.
    rewrite Halign. lia. }
  assert (HpA : p mod VariantType.maxAlignment V = 0).
  { apply (alignment_divides _ (VariantType.alignment V)); try assumption.
    rewrite Halign. lia. }
  destruct (HS m p Hp Hpd ltac:(lia)) as (m1 & S1 & O1 & L1).
  assert (Hstore_head :
    forall k, VariantType.store V m p (ctor (num (Z.of_nat i)) v) o
    = (if match VariantCase.type c with
          | Some _ => negb (Js.isUndefined v) | None => false end
       then match VariantCase.type c with
            | Some T => CMT.store T m1
                          (p + align (size d) (VariantType.maxAlignment V))
                          v o
            | None => k
            end
       else Ok m1)).
  { intros k. unfold VariantType.store.
    destruct (Hctor (num (Z.of_nat i)) v) as [-> ->].
    rewrite HVd. unfold CMT.store, CMT.size. rewrite S1. cbn [bind].
    rewrite Hcase. cbn [bind].
    rewrite (align_shift p (size d)) by assumption.
    destruct (VariantCase.type c); [|reflexivity].
    now destruct (Js.isUndefined v). }
  assert (Hload_head :
    forall m'', agreeOn m1 m'' p (size d) ->
    VariantType.load V m'' p o
    = match VariantCase.type c with
      | None => Ok (ctor (num (Z.of_nat i)) JUndefined)
      | Some T =>
          value <- CMT.load T m''
                     (p + align (size d) (VariantType.maxAlignment V)) o ;;
          Ok (ctor (num (Z.of_nat i)) value)
      end).
  { intros m'' Hag. unfold VariantType.load.
    rewrite HVd. unfold CMT.load, CMT.size. rewrite (L1 m'' Hag).
    cbn [bind]. rewrite Hcase. cbn [bind]. rewrite HVc.
    rewrite (align_shift p (size d)) by assumption.
    reflexivity. }
  change (store (VariantType.asType V)) with (VariantType.store V).
  change (load (VariantType.asType V)) with (VariantType.load V).
  cbn [size VariantType.asType].
  rewrite (Hstore_head (Ok m1)). rewrite Hctype in *.
  destruct ty as [T|].
  - destruct Hty as [HT Hv].
    assert (HinT : In (Some T) variants) by (eapply nth_error_In; eauto).
    pose proof (HleA T HinT) as HTa. pose proof (HleS T HinT) as HTs.
    assert (HaT : alignmentOk T).
    { unfold caseTypesOk in Hok. rewrite Forall_forall in Hok.
      apply (Hok _ HinT). }
    replace (Js.isUndefined v) with false
      by (destruct v; try reflexivity; congruence).
    cbn [negb].
    set (q := p + align (size d) (VariantType.maxAlignment V)) in *.
    destruct O1 as (B1 & B2 & B3 & B4).
    destruct (HT m1 q) as (m2 & S2 & O2 & L2).
    { unfold q. lia. }
    { apply (alignment_divides _ (VariantType.maxAlignment V));
        try assumption.
      unfold q. now apply mod_add_aligned. }
    { rewrite B1. unfold q. lia. }
    exists m2. split; [exact S2|split].
    + apply (sameOutside_trans _ m1).
      * apply (sameOutside_within m m1 p (size d));
          [repeat split; assumption|lia|lia].
      * apply (sameOutside_within _ _ _ _ _ _ O2); unfold q; lia.
    + intros m'' Hag. rewrite Hload_head.
      * unfold CMT.load. fold q. rewrite (L2 m''); [reflexivity|].
        apply (agreeOn_within _ _ _ _ _ _ Hag); unfold q; lia.
      * apply (agreeOn_after m1 m2 m'' p (size d) q (size T)).
        -- exact O2.
        -- apply (agreeOn_within _ _ _ _ _ _ Hag); lia.
        -- unfold q. lia.
  - subst v. exists m1. split; [reflexivity|split].
    + apply (sameOutside_within _ _ _ _ _ _ O1); lia.
    + intros m'' Hag. rewrite Hload_head; [reflexivity|].
      apply (agreeOn_within _ _ _ _ _ _ Hag); lia.
Qed.

(** ** The store/load round trip *)

Ltac in_range_mod H :=
  rewrite Z.mod_small in H by lia; exact H.

Lemma Storable_StoredAs (o : Options) (T : ComponentModelType) (v : JType)
  (n : Z) :
  Storable o T v n ->
  StoredAs T o v v n /\ alignmentOk T /\ 0 <= n.
Proof.
  revert T v n.
  apply (Storable_mut o
           (fun T v n => StoredAs T o v v n /\ alignmentOk T /\ 0 <= n)
           (fun types vs => Forall2 (Confined o) types vs)).
  - intros b. split; [|split; [now left|lia]].
    exact (StoredAs_bool o (JBoolean b)).
  - intros z Hz. split; [|split; [now left|lia]].
    pose proof (StoredAs_u8 o z) as H. in_range_mod H.
  - intros z Hz. split; [|split; [right; now left|lia]].
    pose proof (StoredAs_u16 o z) as H. in_range_mod H.
  - intros z Hz. split; [|split; [right; right; now left|lia]].
    pose proof (StoredAs_u32 o z) as H. in_range_mod H.
  - intros z Hz. split; [|split; [right; right; right; now left|lia]].
    pose proof (StoredAs_u64 o z) as H. in_range_mod H.
  - intros z Hz. split; [|split; [now left|lia]].
    pose proof (StoredAs_s8 o z) as H.
    rewrite (signed_of_mod 8) in H by lia. exact H.
  - intros z Hz. split; [|split; [right; now left|lia]].
    pose proof (StoredAs_s16 o z) as H.
    rewrite (signed_of_mod 16) in H by lia. exact H.
  - intros z Hz. split; [|split; [right; right; now left|lia]].
    pose proof (StoredAs_s32 o z) as H.
    rewrite (signed_of_mod 32) in H by lia. exact H.
  - intros z Hz. split; [|split; [right; right; right; now left|lia]].
    pose proof (StoredAs_s64 o z) as H.
    rewrite (signed_of_mod 64) in H by lia. exact H.
  - intros x Hx. split; [|split; [right; right; now left|lia]].
    now apply StoredAs_float32.
  - intros x Hx. split; [|split; [right; right; right; now left|lia]].
    now apply StoredAs_float64.
  - intros c Hc. split; [|split; [right; right; now left|lia]].
    now apply StoredAs_char.
  - intros cases e v Hnew Hv.
    destruct (StoredAs_enum o cases e v Hnew Hv) as (H1 & H2 & H3).
    now repeat split.
  - intros T Hk Ha Hs.
    destruct (OptionType_size T Ha) as [Hsz Hal].
    pose proof (alignmentOk_pos _ Ha).
    split; [|split; [unfold alignmentOk; now rewrite Hal|lia]].
    apply StoredAs_option_absent; try assumption.
    + unfold OptionType.asOptionValue. cbn [option_.isOption].
      now rewrite Hk.
    + now rewrite Hk.
  - intros T v Hk _ (HT & Ha & Hs) Hv Hopt.
    destruct (OptionType_size T Ha) as [Hsz Hal].
    pose proof (alignmentOk_pos _ Ha).
    split; [|split; [unfold alignmentOk; now rewrite Hal|lia]].
    apply (StoredAs_option_present T o v v v); try assumption.
    + unfold OptionType.asOptionValue. rewrite Hopt, Hk.
      replace (Js.isUndefined v) with false
        by (destruct v; try reflexivity; congruence).
      reflexivity.
    + now rewrite Hk.
  - intros T Hk Ha Hs.
    destruct (OptionType_size T Ha) as [Hsz Hal].
    pose proof (alignmentOk_pos _ Ha).
    split; [|split; [unfold alignmentOk; now rewrite Hal|lia]].
    apply StoredAs_option_absent; try assumption.
    + unfold OptionType.asOptionValue, option_._none.
      cbn [option_.isOption]. now rewrite Hk.
    + now rewrite Hk.
  - intros T v Hk _ (HT & Ha & Hs).
    destruct (OptionType_size T Ha) as [Hsz Hal].
    pose proof (alignmentOk_pos _ Ha).
    split; [|split; [unfold alignmentOk; now rewrite Hal|lia]].
    apply (StoredAs_option_present T o _ _ v); try assumption.
    + unfold OptionType.asOptionValue, option_._some.
      cbn [option_.isOption]. now rewrite Hk.
    + now rewrite Hk.
  - intros variants ctor kind V i T v Hnew Hctor Hok Hi _ (HT & _ & _) Hv.
    exact (StoredAs_variant o variants ctor kind V i (Some T) v Hnew Hctor
             Hok Hi (conj HT Hv)).
  - intros variants ctor kind V i Hnew Hctor Hok Hi.
    exact (StoredAs_variant o variants ctor kind V i None JUndefined Hnew
             Hctor Hok Hi eq_refl).
  - intros types vs _ Hall.
    destruct (StoredAs_tuple o types vs Hall) as (H1 & H2 & H3).
    split; [exact H1|split; [exact H2|]].
    apply (layoutEnd_ge types (Confined_layout o _ _ Hall) 0).
  - intros fields vs Hnd _ Hall.
    destruct (StoredAs_record o fields vs Hnd Hall) as (H1 & H2 & H3).
    split; [exact H1|split; [exact H2|]].
    apply (layoutEnd_ge _ (Confined_layout o _ _ Hall) 0).
  - intros T v n n' _ (H1 & H2 & H3) Hle.
    split; [|split; [exact H2|lia]].
    now apply (StoredAs_within T o v v n n').
  - constructor.
  - intros T v types vs _ (H1 & H2 & H3) _ Hrest.
    constructor; [|exact Hrest]. repeat split; assumption.
Qed.



(** ** list: lowering and lifting through memory *)




(** ** string: lowering and lifting through memory *)

Lemma units16Bytes_length (s : list Z) :
  List.length (units16Bytes s) = (2 * List.length s)%nat.
Proof. induction s as [|u s IH]; cbn; [reflexivity|rewrite IH; lia]. Qed.

Lemma units16At_poke (s : list Z) :
  Forall (fun u => 0 <= u < 65536) s ->
  forall (r : Z -> Z) (p : Z),
    units16At (poke r p (units16Bytes s)) p (List.length s) = s.
Proof.
  induction 1 as [|u s Hu _ IH]; intros r p; cbn [units16Bytes poke
    units16At List.length].
  - reflexivity.
  - f_equal.
    + rewrite !poke_outside by (rewrite units16Bytes_length; lia).
      rewrite Z.eqb_refl.
      destruct (Z.eqb_spec p (p + 1)); [lia|]. rewrite Z.eqb_refl.
      change (2 ^ 16) with 65536. rewrite (Z.mod_small u) by lia.
      pose proof (Z.div_mod u 256 ltac:(lia)). lia.
    + replace (p + 2) with (p + 1 + 1) by lia. apply IH.
Qed.

(** X3. With the encoding utf-8, a string that the codec encodes and
    decodes back, lowered into memory that the allocator hands out
    within the buffer, is lifted back from the pointer and byte length
    pushed; no byte outside the allocation changes. *)
Theorem string_lower_then_lift_utf8 (ral : RAL) (o : Options) (s : list Z)
  (m : Memory) (p h : Z) (result rest : list wasmType) :
  let len := Z.of_nat (List.length (utf8Encoder_encode ral s)) in
  encoding o = utf_8 ->
  utf8Decoder_decode ral (utf8Encoder_encode ral s) = s ->
  allocHook m 1 len (heap m) = (p, h) ->
  0 <= p -> p + len <= byteLength m ->
  exists m' : Memory,
    lowerFlat (wstring ral) result m (JString s) o
    = Ok (result ++ [num p; num len], m')
    /\ (forall a, a < p \/ p + len <= a -> raw m' a = raw m a)
    /\ liftFlat (wstring ral) m' (Array_values ([num p; num len] ++ rest)) o
       = Ok (JString s, ArrayIterator rest).
Proof.
  intros len Henc Hcodec Halloc Hp Hn.
  assert (Hview : forall mm, byteLength mm = byteLength m ->
                    viewInBounds mm 1 p len = true).
  { intros mm Hmm. unfold viewInBounds. rewrite Hmm, Z.mod_1_r.
    repeat (apply andb_true_intro; split); try apply Z.leb_le;
      try reflexivity; unfold len; lia. }
  eexists. split; [|split].
  - cbn [lowerFlat wstring]. unfold wstring_lowerFlat,
      wstring_storeIntoRange, Memory_alloc. rewrite Henc.
    change _u8.alignment with 1. fold len. rewrite Halloc.
    rewrite Hview by reflexivity. reflexivity.
  - intros a Ha. cbn [raw withRaw]. apply poke_outside. fold len. exact Ha.
  - cbn [liftFlat wstring]. unfold wstring_liftFlat.
    cbn [Array_values app nextValue next bind value asIndex num].
    unfold wstring_loadFromRange. rewrite Henc.
    rewrite Hview by reflexivity. cbn [raw withRaw].
    unfold len at 1. rewrite Nat2Z.id.
    rewrite (bytesAt_poke _ _ _ _ eq_refl). now rewrite Hcodec.
Qed.

Lemma string_lower_then_lift_utf8_witness :
  exists m' : Memory,
    lowerFlat (wstring asciiCodec) [] emptyMemory (JString [104; 105]) utf8
    = Ok ([num 1024; num 2], m')
    /\ liftFlat (wstring asciiCodec) m' (Array_values [num 1024; num 2])
         utf8
       = Ok (JString [104; 105], ArrayIterator []).
Proof.
  destruct (string_lower_then_lift_utf8 asciiCodec utf8 [104; 105]
              emptyMemory 1024 1026 [] [])
    as (m' & L & _ & R);
    [reflexivity | reflexivity | reflexivity | lia | cbn; lia |].
  exists m'. split; [exact L|exact R].
Defined.

(** X4. With the encoding utf-16 the string descriptor asks the allocator
    for alignment 1 and then lays a 16-bit array over the address: at an
    even address the string is lowered and lifted back from the pointer
    and number of code units pushed; at an odd address lowering and
    storing raise a RangeError. *)
Theorem string_lower_then_lift_utf16 (ral : RAL) (o : Options) (s : list Z)
  (m : Memory) (p h : Z) (result rest : list wasmType) :
  let len := Z.of_nat (List.length s) in
  encoding o = utf_16 ->
  Forall (fun u => 0 <= u < 65536) s ->
  allocHook m 1 (len * 2) (heap m) = (p, h) ->
  0 <= p -> p + len * 2 <= byteLength m ->
  if p mod 2 =? 0
  then
    exists m' : Memory,
      lowerFlat (wstring ral) result m (JString s) o
      = Ok (result ++ [num p; num len], m')
      /\ (forall a, a < p \/ p + len * 2 <= a -> raw m' a = raw m a)
      /\ liftFlat (wstring ral) m'
           (Array_values ([num p; num len] ++ rest)) o
         = Ok (JString s, ArrayIterator rest)
  else
    lowerFlat (wstring ral) result m (JString s) o = Throw RangeError
    /\ forall q, store (wstring ral) m q (JString s) o = Throw RangeError.
Proof.
  intros len Henc Hunits Halloc Hp Hn.
  destruct (Z.eqb_spec (p mod 2) 0) as [Heven|Hodd].
  - assert (Hview : forall mm, byteLength mm = byteLength m ->
                      viewInBounds mm 2 p len = true).
    { intros mm Hmm. unfold viewInBounds. rewrite Hmm, Heven.
      repeat (apply andb_true_intro; split); try apply Z.leb_le;
        try reflexivity; unfold len; lia. }
    eexists. split; [|split].
    + cbn [lowerFlat wstring]. unfold wstring_lowerFlat,
        wstring_storeIntoRange, Memory_alloc. rewrite Henc.
      change _u8.alignment with 1. fold len. rewrite Halloc.
      rewrite Hview by reflexivity. reflexivity.
    + intros a Ha. cbn [raw withRaw]. apply poke_outside.
      rewrite units16Bytes_length. unfold len in Ha. lia.
    + cbn [liftFlat wstring]. unfold wstring_liftFlat.
      cbn [Array_values app nextValue next bind value asIndex num].
      unfold wstring_loadFromRange. rewrite Henc.
      rewrite Hview by reflexivity. cbn [raw withRaw].
      unfold len at 1. rewrite Nat2Z.id.
      now rewrite units16At_poke.
  - assert (Hview : forall mm, viewInBounds mm 2 p len = false).
    { intros mm. unfold viewInBounds.
      destruct (Z.eqb_spec (p mod 2) 0); [contradiction|].
      now rewrite andb_false_r. }
    split; [|intros q].
    + cbn [lowerFlat wstring]. unfold wstring_lowerFlat,
        wstring_storeIntoRange, Memory_alloc. rewrite Henc.
      change _u8.alignment with 1. fold len. rewrite Halloc.
      now rewrite Hview.
    + cbn [store wstring]. unfold wstring_store,
        wstring_storeIntoRange, Memory_alloc. rewrite Henc.
      change _u8.alignment with 1. fold len. rewrite Halloc.
      now rewrite Hview.
Qed.

Lemma string_lower_then_lift_utf16_witness :
  exists m' : Memory,
    lowerFlat (wstring asciiCodec) [] emptyMemory (JString [104; 105]) utf16
    = Ok ([num 1024; num 2], m')
    /\ liftFlat (wstring asciiCodec) m' (Array_values [num 1024; num 2])
         utf16
       = Ok (JString [104; 105], ArrayIterator []).
Proof.
  pose proof (string_lower_then_lift_utf16 asciiCodec utf16 [104; 105]
                emptyMemory 1024 1028 [] [] eq_refl) as H.
  cbv zeta in H.
  destruct H as (m' & L & _ & R);
    [repeat (apply Forall_cons; [lia|]); apply Forall_nil
    | reflexivity | lia | cbn; lia |].
  exists m'. split; [exact L|exact R].
Defined.

(** ** Function parameters *)






Lemma StorableFields_Confined (o : Options)
  (types : list ComponentModelType) (vs : list JType) :
  StorableFields o types vs -> Forall2 (Confined o) types vs.
Proof.
  induction 1 as [|T v types vs HT _ IH]; constructor; [|exact IH].
  destruct (Storable_StoredAs o T v _ HT) as (H1 & H2 & H3).
  repeat split; assumption.
Qed.

(** With more than 16 flat parameters [lowerParamValues] stores the
    parameter tuple and passes its address. *)
Lemma lowerParamValues_through_memory (o : Options)
  (name witName : string) (params : list CallableParameter)
  (returnType : option GenericComponentModelType) (vs : list JType)
  (m : Memory) (p h : Z) :
  let this := FunctionType.new name witName params returnType in
  let tuple := TupleType.new (map snd params) in
  StorableFields o (map snd params) vs ->
  16 < FunctionType.paramFlatTypes this ->
  allocHook m (alignment tuple) (size tuple) (heap m) = (p, h) ->
  0 <= p -> p mod alignment tuple = 0 ->
  p + layoutEnd 0 (map snd params) <= byteLength m ->
  exists m' : Memory,
    FunctionType.lowerParamValues this (JArray vs) m o JUndefined
    = Ok ([num p], m')
    /\ sameOutside
         {| raw := raw m; byteLength := byteLength m; heap := h;
            allocHook := allocHook m |} m' p
         (layoutEnd 0 (map snd params))
    /\ load tuple m' p o = Ok (JArray vs).
Proof.
  intros this tuple Hdom Hflat Halloc Hp Hal Hn. subst tuple.
  destruct (StoredAs_tuple o _ _ (StorableFields_Confined o _ _ Hdom))
    as (HS & _ & _).
  set (m1 := {| raw := raw m; byteLength := byteLength m; heap := h;
                allocHook := allocHook m |}).
  destruct (HS m1 p Hp Hal Hn) as (m' & S & O & L).
  assert (Hgt : (FunctionType.MAX_FLAT_PARAMS
                 <? FunctionType.paramFlatTypes this) = true).
  { apply Z.ltb_lt. exact Hflat. }
  exists m'. split; [|split].
  - unfold FunctionType.lowerParamValues. rewrite Hgt.
    cbn [Js.isUndefined negb FunctionType.paramTupleType this
           FunctionType.new].
    unfold Memory_alloc. rewrite Halloc. fold m1.
    cbn [bind]. rewrite S. reflexivity.
  - exact O.
  - apply L, agreeOn_refl.
Qed.





(** X8. [callService] counts the flat parameters even when they travel
    through memory: with more than 16 flat parameters and a result of
    more than one flat slot, the call that [callWasm] makes (the address
    of the parameters and the address of the result) is refused. *)
Theorem callService_refuses_parameters_passed_through_memory (o : Options)
  (name witName : string) (params : list CallableParameter)
  (R : ComponentModelType) (vs : list JType)
  (serviceFunction : ServiceFunction) (m : Memory) (p h : Z) :
  let this := FunctionType.new name witName params (Some R) in
  let tuple := TupleType.new (map snd params) in
  StorableFields o (map snd params) vs ->
  16 < FunctionType.paramFlatTypes this ->
  (1 < List.length (flatTypes R))%nat ->
  allocHook m (alignment tuple) (size tuple) (heap m) = (p, h) ->
  0 <= p -> p mod alignment tuple = 0 ->
  p + layoutEnd 0 (map snd params) <= byteLength m ->
  FunctionType.callWasm this (JArray vs)
    (fun flat memory =>
       FunctionType.callService this flat serviceFunction memory o)
    m o
  = Throw (ComponentModelError "Invalid number of parameters.").
Proof.
  intros this tuple Hdom Hflat Hret Halloc Hp Hal Hn.
  destruct (lowerParamValues_through_memory o name witName
              params (Some R) vs m p h Hdom Hflat Halloc Hp Hal Hn)
    as (m' & Hlow & _ & _).
  fold this in Hlow.
  assert (Hrf : 1 < FunctionType.returnFlatTypes this).
  { cbn [FunctionType.returnFlatTypes this FunctionType.new]. lia. }
  rewrite (callWasm_indirect_result this R) by (try reflexivity; exact Hrf).
  rewrite Hlow. cbn [bind].
  destruct (Memory_alloc m' (alignment R) (size R)) as [q m2].
  unfold FunctionType.callService, FunctionType.MAX_FLAT_RESULTS.
  replace (1 <? FunctionType.returnFlatTypes this) with true
    by (symmetry; apply Z.ltb_lt; exact Hrf).
  cbn [push app List.length].
  replace (Z.of_nat 2 =? FunctionType.paramFlatTypes this + 1) with false
    by (symmetry; apply Z.eqb_neq; lia).
  reflexivity.
Qed.

Lemma callService_refuses_parameters_passed_through_memory_witness :
  let f := FunctionType.new "f" "f" (repeat ("p"%string, u8) 17)
             (Some (TupleType.new [u8; u8])) in
  FunctionType.callWasm f (JArray (repeat (num 1) 17))
    (fun flat memory =>
       FunctionType.callService f flat
         (fun _ => Ok (JArray [num 5; num 5])) memory utf8)
    emptyMemory utf8
  = Throw (ComponentModelError "Invalid number of parameters.").
Proof.
  intros f.
  apply (callService_refuses_parameters_passed_through_memory utf8 "f" "f"
           (repeat ("p"%string, u8) 17) (TupleType.new [u8; u8])
           (repeat (num 1) 17) (fun _ => Ok (JArray [num 5; num 5]))
           emptyMemory 1024 1041).
  - cbn [repeat map snd].
    repeat (apply sts_cons; [apply st_u8; lia|]). apply sts_nil.
  - vm_compute. reflexivity.
  - cbn. lia.
  - reflexivity.
  - lia.
  - reflexivity.
  - vm_compute. discriminate.
Defined.

(** ** Range checks of the integer descriptors *)

Lemma range_check (lo hi : Z) (v : JType) :
  Js.lt v (num lo) || Js.gt v (num hi) || negb (Js.isInteger v)
  = negb (integerIn lo hi v).
Proof.
  destruct v as [n| | | | | | | | | | | |]; try apply orb_true_r.
  destruct n as [z| | | |]; try apply orb_true_r.
  fold (num z). rewrite Js_lt_num, Js_gt_num. cbn.
  destruct (Z.ltb_spec z lo); destruct (Z.leb_spec lo z); try lia;
    destruct (Z.ltb_spec hi z); destruct (Z.leb_spec z hi); try lia;
    reflexivity.
Qed.

Lemma nextValue_array (v : JType) (rest : list wasmType) :
  nextValue (ArrayIterator (v :: rest)) = Ok (v, ArrayIterator rest).
Proof. reflexivity. Qed.

(** X9. The unsigned descriptors of 8, 16 and 32 bits accept, on lowering
    and on lifting alike, exactly the integral numbers of their range;
    any other value (a fraction, NaN, a bigint, undefined) raises. *)
Theorem unsigned_flat_values_are_range_checked (T : ComponentModelType)
  (hi : Z) (msg : string) (v : JType) (result rest : list wasmType)
  (m : Memory) (o : Options) :
  In (T, hi, msg)
    [(u8, 255, "Invalid u8 value"); (u16, 65535, "Invalid u16 value");
     (u32, 4294967295, "Invalid u32 value")]%string ->
  lowerFlat T result m v o
  = (if integerIn 0 hi v then Ok (result ++ [v], m)
     else Throw (JsError msg))
  /\ liftFlat T m (Array_values (v :: rest)) o
     = (if integerIn 0 hi v then Ok (v, ArrayIterator rest)
        else Throw (JsError msg))
  /\ liftFlat T m (Array_values []) o = Throw (JsError msg).
Proof.
  intros [H|[H|[H|[]]]]; injection H as <- <- <-; (split; [|split]).
  - cbn [lowerFlat u8]. unfold _u8.lowerFlat, _u8.LOW_VALUE, _u8.HIGH_VALUE.
    rewrite range_check. now destruct (integerIn 0 255 v).
  - cbn [liftFlat u8 Array_values]. unfold _u8.liftFlat.
    rewrite nextValue_array. cbn [bind].
    unfold _u8.LOW_VALUE, _u8.HIGH_VALUE.
    rewrite range_check. now destruct (integerIn 0 255 v).
  - reflexivity.
  - cbn [lowerFlat u16]. unfold _u16.lowerFlat, _u16.LOW_VALUE,
      _u16.HIGH_VALUE.
    rewrite range_check. now destruct (integerIn 0 65535 v).
  - cbn [liftFlat u16 Array_values]. unfold _u16.liftFlat.
    rewrite nextValue_array. cbn [bind].
    unfold _u16.LOW_VALUE, _u16.HIGH_VALUE.
    rewrite range_check. now destruct (integerIn 0 65535 v).
  - reflexivity.
  - cbn [lowerFlat u32]. unfold _u32.lowerFlat, _u32.LOW_VALUE,
      _u32.HIGH_VALUE.
    rewrite range_check. now destruct (integerIn 0 4294967295 v).
  - cbn [liftFlat u32 Array_values]. unfold _u32.liftFlat.
    rewrite nextValue_array. cbn [bind].
    unfold _u32.LOW_VALUE, _u32.HIGH_VALUE.
    rewrite range_check. now destruct (integerIn 0 4294967295 v).
  - reflexivity.
Qed.

Lemma unsigned_flat_values_are_range_checked_witness :
  lowerFlat u8 [] emptyMemory (num 255) utf8 = Ok ([num 255], emptyMemory)
  /\ lowerFlat u8 [] emptyMemory (num 256) utf8
     = Throw (JsError "Invalid u8 value").
Proof.
  split.
  - exact (proj1 (unsigned_flat_values_are_range_checked u8 255
                    "Invalid u8 value" (num 255) [] [] emptyMemory utf8
                    (or_introl eq_refl))).
  - exact (proj1 (unsigned_flat_values_are_range_checked u8 255
                    "Invalid u8 value" (num 256) [] [] emptyMemory utf8
                    (or_introl eq_refl))).
Defined.

Lemma integerIn_num (lo hi : Z) (v : JType) :
  integerIn lo hi v = true -> exists z, v = num z /\ lo <= z <= hi.
Proof.
  destruct v as [n| | | | | | | | | | | |]; try discriminate.
  destruct n as [z| | | |]; try discriminate.
  cbn. intros H. apply andb_prop in H as [H1 H2].
  apply Z.leb_le in H1, H2. exists z. split; [reflexivity|lia].
Qed.

Lemma lower_signed (z n : Z) :
  0 < n -> - n <= 2 * z < n ->
  (if z <? 0 then Js_add (num z) (num n) else Ok (num z))
  = Ok (num (z mod n)).
Proof.
  intros Hn Hz. destruct (Z.ltb_spec z 0).
  - cbn [Js_add num Js.ToNumber NumberOps.add]. unfold num. do 3 f_equal.
    rewrite <- (Z_mod_plus_full z 1 n).
    rewrite Z.mod_small by lia. lia.
  - do 2 f_equal. symmetry. apply Z.mod_small. lia.
Qed.

Lemma lift_signed (w z : Z) :
  0 < w -> 0 <= z < 2 ^ w ->
  (if z <=? 2 ^ (w - 1) - 1 then Ok (num z)
   else Js_sub (num z) (num (2 ^ w)))
  = Ok (num (signed w z)).
Proof.
  intros Hw Hz. unfold signed.
  destruct (Z.leb_spec z (2 ^ (w - 1) - 1));
    destruct (Z.ltb_spec z (2 ^ (w - 1))); try lia; reflexivity.
Qed.

(** X10. The signed descriptors of 8, 16 and 32 bits put a value on the wire
    as the unsigned integer of the same bits: lowering accepts the
    integral numbers of the signed range and pushes them modulo 2^bits;
    lifting accepts the integral numbers of the unsigned range and reads
    them in two's complement. Any other value raises. *)
Theorem signed_flat_values_travel_as_unsigned (T : ComponentModelType)
  (bits : Z) (lowered lifted : string) (v : JType)
  (result rest : list wasmType) (m : Memory) (o : Options) :
  In (T, bits, lowered, lifted)
    [(s8, 8, "Invalid s8 value", "Invalid u8 value");
     (s16, 16, "Invalid s16 value", "Invalid s16 value");
     (s32, 32, "Invalid s32 value", "Invalid s32 value")]%string ->
  lowerFlat T result m v o
  = (if integerIn (- 2 ^ (bits - 1)) (2 ^ (bits - 1) - 1) v
     then Ok (result ++ [num (integerOf v mod 2 ^ bits)], m)
     else Throw (JsError lowered))
  /\ liftFlat T m (Array_values (v :: rest)) o
     = (if integerIn 0 (2 ^ bits - 1) v
        then Ok (num (signed bits (integerOf v)), ArrayIterator rest)
        else Throw (JsError lifted)).
Proof.
  intros [H|[H|[H|[]]]]; injection H as <- <- <- <-; split.
  - cbn [lowerFlat s8]. unfold _s8.lowerFlat, _s8.LOW_VALUE, _s8.HIGH_VALUE.
    rewrite (range_check (-128) 127).
    change (- 2 ^ (8 - 1)) with (-128). change (2 ^ (8 - 1) - 1) with 127.
    destruct (integerIn (-128) 127 v) eqn:E; [|reflexivity].
    apply integerIn_num in E as (z & -> & Hz). cbn [negb integerOf num].
    fold (num z). rewrite Js_lt_num.
    rewrite (lower_signed z 256) by lia. reflexivity.
  - cbn [liftFlat s8 Array_values]. unfold _s8.liftFlat.
    rewrite nextValue_array. cbn [bind].
    unfold _u8.LOW_VALUE, _u8.HIGH_VALUE, _s8.HIGH_VALUE.
    rewrite (range_check 0 255). change (2 ^ 8 - 1) with 255.
    destruct (integerIn 0 255 v) eqn:E; [|reflexivity].
    apply integerIn_num in E as (z & -> & Hz). cbn [negb integerOf num].
    fold (num z). rewrite Js_le_num.
    pose proof (lift_signed 8 z ltac:(lia) ltac:(change (2 ^ 8) with 256; lia))
      as L.
    change (2 ^ (8 - 1) - 1) with 127 in L. change (2 ^ 8) with 256 in L.
    destruct (z <=? 127); [injection L as <-; reflexivity|].
    rewrite L. reflexivity.
  - cbn [lowerFlat s16]. unfold _s16.lowerFlat, _s16.LOW_VALUE,
      _s16.HIGH_VALUE.
    rewrite (range_check (-32768) 32767).
    change (- 2 ^ (16 - 1)) with (-32768).
    change (2 ^ (16 - 1) - 1) with 32767.
    destruct (integerIn (-32768) 32767 v) eqn:E; [|reflexivity].
    apply integerIn_num in E as (z & -> & Hz). cbn [negb integerOf num].
    fold (num z). rewrite Js_lt_num.
    rewrite (lower_signed z 65536) by lia. reflexivity.
  - cbn [liftFlat s16 Array_values]. unfold _s16.liftFlat.
    rewrite nextValue_array. cbn [bind].
    unfold _u16.LOW_VALUE, _u16.HIGH_VALUE, _s16.HIGH_VALUE.
    rewrite (range_check 0 65535). change (2 ^ 16 - 1) with 65535.
    destruct (integerIn 0 65535 v) eqn:E; [|reflexivity].
    apply integerIn_num in E as (z & -> & Hz). cbn [negb integerOf num].
    fold (num z). rewrite Js_le_num.
    pose proof (lift_signed 16 z ltac:(lia)
                  ltac:(change (2 ^ 16) with 65536; lia)) as L.
    change (2 ^ (16 - 1) - 1) with 32767 in L.
    change (2 ^ 16) with 65536 in L.
    destruct (z <=? 32767); [injection L as <-; reflexivity|].
    rewrite L. reflexivity.
  - cbn [lowerFlat s32]. unfold _s32.lowerFlat, _s32.LOW_VALUE,
      _s32.HIGH_VALUE.
    rewrite (range_check (-2147483648) 2147483647).
    change (- 2 ^ (32 - 1)) with (-2147483648).
    change (2 ^ (32 - 1) - 1) with 2147483647.
    destruct (integerIn (-2147483648) 2147483647 v) eqn:E; [|reflexivity].
    apply integerIn_num in E as (z & -> & Hz). cbn [negb integerOf num].
    fold (num z). rewrite Js_lt_num.
    rewrite (lower_signed z 4294967296) by lia. reflexivity.
  - cbn [liftFlat s32 Array_values]. unfold _s32.liftFlat.
    rewrite nextValue_array. cbn [bind].
    unfold _u32.LOW_VALUE, _u32.HIGH_VALUE, _s32.HIGH_VALUE.
    rewrite (range_check 0 4294967295). change (2 ^ 32 - 1) with 4294967295.
    destruct (integerIn 0 4294967295 v) eqn:E; [|reflexivity].
    apply integerIn_num in E as (z & -> & Hz). cbn [negb integerOf num].
    fold (num z). rewrite Js_le_num.
    pose proof (lift_signed 32 z ltac:(lia)
                  ltac:(change (2 ^ 32) with 4294967296; lia)) as L.
    change (2 ^ (32 - 1) - 1) with 2147483647 in L.
    change (2 ^ 32) with 4294967296 in L.
    destruct (z <=? 2147483647); [injection L as <-; reflexivity|].
    rewrite L. reflexivity.
Qed.

Lemma signed_flat_values_travel_as_unsigned_witness :
  lowerFlat s8 [] emptyMemory (num (-1)) utf8 = Ok ([num 255], emptyMemory)
  /\ liftFlat s8 emptyMemory (Array_values [num 255]) utf8
     = Ok (num (-1), ArrayIterator []).
Proof.
  split.
  - exact (proj1 (signed_flat_values_travel_as_unsigned s8 8
                    "Invalid s8 value" "Invalid u8 value" (num (-1)) [] []
                    emptyMemory utf8 (or_introl eq_refl))).
  - exact (proj2 (signed_flat_values_travel_as_unsigned s8 8
                    "Invalid s8 value" "Invalid u8 value" (num 255) [] []
                    emptyMemory utf8 (or_introl eq_refl))).
Defined.

(** ** The 64-bit descriptors, bool, and accesses outside the buffer *)

(** X11. The 64-bit descriptors look at the sign only. [u64] lowers and
    lifts every non-negative bigint, also those above 2^64 - 1: its
    [HIGH_VALUE] is never consulted. [s64] checks both bounds on
    lowering, and on lifting accepts every non-negative bigint. *)
Theorem u64_upper_bound_is_never_checked (z : Z)
  (result rest : list wasmType) (m : Memory) (o : Options) :
  lowerFlat u64 result m (JBigInt z) o
  = (if z <? 0 then Throw (JsError "Invalid u64 value")
     else Ok (result ++ [JBigInt z], m))
  /\ liftFlat u64 m (Array_values (JBigInt z :: rest)) o
     = (if z <? 0 then Throw (JsError "Invalid u64 value")
        else Ok (JBigInt z, ArrayIterator rest))
  /\ lowerFlat s64 result m (JBigInt z) o
     = (if (z <? - 2 ^ 63) || (2 ^ 63 - 1 <? z)
        then Throw (JsError "Invalid s64 value")
        else Ok (result ++ [JBigInt (z mod 2 ^ 64)], m))
  /\ liftFlat s64 m (Array_values (JBigInt z :: rest)) o
     = (if z <? 0 then Throw (JsError "Invalid s64 value")
        else Ok (JBigInt (if z <=? 2 ^ 63 - 1 then z else z - 2 ^ 64),
                 ArrayIterator rest)).
Proof.
  split; [|split; [|split]].
  - cbn [lowerFlat u64]. unfold _u64.lowerFlat, _u64.LOW_VALUE.
    rewrite Js_lt_big. now destruct (z <? 0).
  - cbn [liftFlat u64 Array_values]. unfold _u64.liftFlat.
    rewrite nextValue_array. cbn [bind]. unfold _u64.LOW_VALUE.
    rewrite Js_lt_big. now destruct (z <? 0).
  - cbn [lowerFlat s64]. unfold _s64.lowerFlat, _s64.LOW_VALUE,
      _s64.HIGH_VALUE.
    rewrite Js_lt_big, Js_gt_big, Js_lt_big_num.
    change (- 2 ^ 63) with (-9223372036854775808).
    change (2 ^ 63 - 1) with 9223372036854775807.
    destruct (Z.ltb_spec z (-9223372036854775808)); [reflexivity|].
    destruct (Z.ltb_spec 9223372036854775807 z); [reflexivity|].
    cbn [orb]. change (2 ^ 64) with 18446744073709551616.
    destruct (Z.ltb_spec z 0).
    + cbn [Js_add bind]. unfold push. do 5 f_equal.
      rewrite <- (Z_mod_plus_full z 1 18446744073709551616).
      rewrite Z.mod_small by lia. lia.
    + cbn [bind]. unfold push. do 5 f_equal.
      symmetry. apply Z.mod_small. lia.
  - cbn [liftFlat s64 Array_values]. unfold _s64.liftFlat.
    rewrite nextValue_array. cbn [bind].
    unfold _u64.LOW_VALUE, _s64.HIGH_VALUE.
    rewrite Js_lt_big, Js_le_big.
    change (2 ^ 63 - 1) with 9223372036854775807.
    destruct (z <? 0); [reflexivity|].
    now destruct (z <=? 9223372036854775807).
Qed.

(** X12. A bool is the truthiness of the value handed in: any value is
    lowered to 1 or 0 and stored as the byte 1 or 0, and comes back as
    the boolean; on the wire every number that is not negative is read
    as true unless it is zero, and a negative one raises. *)
Theorem bool_is_the_truthiness_of_the_value (v : JType) (z : Z)
  (result rest : list wasmType) (m : Memory) (o : Options) :
  lowerFlat bool_ result m v o
  = Ok (result ++ [num (if Js.truthy v then 1 else 0)], m)
  /\ liftFlat bool_ m
       (Array_values (num (if Js.truthy v then 1 else 0) :: rest)) o
     = Ok (JBoolean (Js.truthy v), ArrayIterator rest)
  /\ liftFlat bool_ m (Array_values (num z :: rest)) o
     = (if z <? 0 then Throw (JsError "Invalid bool value")
        else Ok (JBoolean (negb (z =? 0)), ArrayIterator rest)).
Proof.
  split; [reflexivity|split].
  - now destruct (Js.truthy v).
  - cbn [liftFlat bool_ Array_values]. rewrite nextValue_array. cbn [bind].
    rewrite Js_lt_num, Js_strictEquals_num. reflexivity.
Qed.

(** X13. An access that does not lie within the buffer raises a RangeError,
    on load and on store, for every scalar descriptor. *)
Theorem scalar_access_outside_the_buffer_raises (T : ComponentModelType)
  (m : Memory) (p : ptr) (o : Options) :
  p < 0 \/ byteLength m < p + size T ->
  (In T (bool_ :: wchar :: numberScalars ++ bigintScalars) ->
   load T m p o = Throw RangeError)
  /\ (In T numberScalars ->
      forall x, store T m p (JNumber x) o = Throw RangeError)
  /\ (In T bigintScalars ->
      forall z, store T m p (JBigInt z) o = Throw RangeError)
  /\ (T = bool_ -> forall v, store T m p v o = Throw RangeError)
  /\ (T = wchar ->
      forall c, 0 <= c <= 55295 ->
        store T m p (JString [c]) o = Throw RangeError).
Proof.
  intros Hout.
  assert (G : forall n le, size T = Z.of_nat n ->
                DataView.getBits n m p le = Throw RangeError).
  { intros n le Hn. apply getBits_outOfBounds. lia. }
  assert (S : forall n bits le, size T = Z.of_nat n ->
                DataView.setBits n m p bits le = Throw RangeError).
  { intros n bits le Hn. unfold DataView.setBits, inBounds. rewrite <- Hn.
    destruct (Z.leb_spec 0 p);
      destruct (Z.leb_spec (p + size T) (byteLength m));
      try reflexivity; lia. }
  split; [|split; [|split; [|split]]].
  - cbn [In app numberScalars bigintScalars]. intros HT.
    repeat (destruct HT as [<-|HT]); try contradiction.
    + change (load bool_ m p o)
        with (b <- DataView.getBits 1 m p true ;;
              Ok (JBoolean (negb (Js.strictEquals (num b) (num 0))))).
      now rewrite G.
    + change (load wchar m p o)
        with (code <- (v <- DataView.getBits 4 m p true ;; Ok (num v)) ;;
              _wchar.fromCodePoint code).
      now rewrite G.
    + change (load u8 m p o)
        with (v <- DataView.getBits 1 m p true ;; Ok (num v)).
      now rewrite G.
    + change (load u16 m p o)
        with (v <- DataView.getBits 2 m p true ;; Ok (num v)).
      now rewrite G.
    + change (load u32 m p o)
        with (v <- DataView.getBits 4 m p true ;; Ok (num v)).
      now rewrite G.
    + change (load s8 m p o)
        with (v <- (b <- DataView.getBits 1 m p true ;; Ok (signed 8 b)) ;;
              Ok (num v)).
      now rewrite G.
    + change (load s16 m p o)
        with (v <- (b <- DataView.getBits 2 m p true ;; Ok (signed 16 b)) ;;
              Ok (num v)).
      now rewrite G.
    + change (load s32 m p o)
        with (v <- (b <- DataView.getBits 4 m p true ;; Ok (signed 32 b)) ;;
              Ok (num v)).
      now rewrite G.
    + change (load float32 m p o)
        with (v <- (b <- DataView.getBits 4 m p true ;;
                    Ok (Ieee.bitsToFloat32 b)) ;; Ok (JNumber v)).
      now rewrite G.
    + change (load float64 m p o)
        with (v <- (b <- DataView.getBits 8 m p true ;;
                    Ok (Ieee.bitsToFloat64 b)) ;; Ok (JNumber v)).
      now rewrite G.
    + change (load u64 m p o)
        with (v <- DataView.getBits 8 m p true ;; Ok (JBigInt v)).
      now rewrite G.
    + change (load s64 m p o)
        with (v <- (b <- DataView.getBits 8 m p true ;; Ok (signed 64 b)) ;;
              Ok (JBigInt v)).
      now rewrite G.
  - cbn [In numberScalars]. intros HT x.
    repeat (destruct HT as [<-|HT]); try contradiction.
    + change (store u8 m p (JNumber x) o)
        with (DataView.setBits 1 m p (Number.trunc x mod 2 ^ 8) true).
      now apply S.
    + change (store u16 m p (JNumber x) o)
        with (DataView.setBits 2 m p (Number.trunc x mod 2 ^ 16) true).
      now apply S.
    + change (store u32 m p (JNumber x) o)
        with (DataView.setBits 4 m p (Number.trunc x mod 2 ^ 32) true).
      now apply S.
    + change (store s8 m p (JNumber x) o)
        with (DataView.setBits 1 m p (Number.trunc x mod 2 ^ 8) true).
      now apply S.
    + change (store s16 m p (JNumber x) o)
        with (DataView.setBits 2 m p (Number.trunc x mod 2 ^ 16) true).
      now apply S.
    + change (store s32 m p (JNumber x) o)
        with (DataView.setBits 4 m p (Number.trunc x mod 2 ^ 32) true).
      now apply S.
    + change (store float32 m p (JNumber x) o)
        with (DataView.setBits 4 m p (Ieee.float32ToBits x) true).
      now apply S.
    + change (store float64 m p (JNumber x) o)
        with (DataView.setBits 8 m p (Ieee.float64ToBits x) true).
      now apply S.
  - cbn [In bigintScalars]. intros HT z.
    repeat (destruct HT as [<-|HT]); try contradiction.
    + change (store u64 m p (JBigInt z) o)
        with (DataView.setBits 8 m p (z mod 2 ^ 64) true).
      now apply S.
    + change (store s64 m p (JBigInt z) o)
        with (DataView.setBits 8 m p (z mod 2 ^ 64) true).
      now apply S.
  - intros -> v.
    change (store bool_ m p v o)
      with (DataView.setBits 1 m p
              ((if Js.truthy v then 1 else 0) mod 2 ^ 8) true).
    now apply S.
  - intros -> c Hc.
    change (store wchar m p (JString [c]) o)
      with (code <- _wchar.asCodePoint (JString [c]) ;;
            store u32 m p code o).
    rewrite wchar_asCodePoint_unit.
    destruct (Z.leb_spec c 55295); [|lia]. cbn [orb bind].
    change (store u32 m p (num c) o)
      with (DataView.setBits 4 m p (c mod 2 ^ 32) true).
    now apply S.
Qed.

Lemma scalar_access_outside_the_buffer_raises_witness :
  load u32 emptyMemory 65534 utf8 = Throw RangeError
  /\ store u32 emptyMemory 65534 (num 1) utf8 = Throw RangeError.
Proof.
  destruct (scalar_access_outside_the_buffer_raises u32 emptyMemory 65534
              utf8)
    as (L & S & _).
  - right. cbn. lia.
  - split.
    + apply L. do 4 right. left. reflexivity.
    + apply S. do 2 right. left. reflexivity.
Defined.

(** ** What store does not check *)

(** X14. [store] applies no range check to an integer: whatever the integer,
    the store succeeds and writes it modulo 2^bits, so that the load
    returns the wrapped value (read in two's complement by the signed
    descriptors). *)
Theorem integer_store_wraps_around (z : Z) (m : Memory) (p : ptr)
  (o : Options) :
  0 <= p -> p + 8 <= byteLength m ->
  Forall
    (fun '(T, v, w) =>
       exists m' : Memory,
         store T m p v o = Ok m' /\ load T m' p o = Ok w)
    [(u8, num z, num (z mod 2 ^ 8));
     (u16, num z, num (z mod 2 ^ 16));
     (u32, num z, num (z mod 2 ^ 32));
     (u64, JBigInt z, JBigInt (z mod 2 ^ 64));
     (s8, num z, num (signed 8 (z mod 2 ^ 8)));
     (s16, num z, num (signed 16 (z mod 2 ^ 16)));
     (s32, num z, num (signed 32 (z mod 2 ^ 32)));
     (s64, JBigInt z, JBigInt (signed 64 (z mod 2 ^ 64)))].
Proof.
  intros Hp Hn.
  assert (K : forall T v w n,
             StoredAsAnywhere T o v w n -> n <= 8 ->
             exists m', store T m p v o = Ok m' /\ load T m' p o = Ok w).
  { intros T v w n H Hn8.
    destruct (H m p Hp ltac:(lia)) as (m' & S & _ & L).
    exists m'. split; [exact S|]. apply L, agreeOn_refl. }
  repeat apply Forall_cons; [..|apply Forall_nil].
  - apply (K _ _ _ _ (Anywhere_u8 o z)). lia.
  - apply (K _ _ _ _ (Anywhere_u16 o z)). lia.
  - apply (K _ _ _ _ (Anywhere_u32 o z)). lia.
  - apply (K _ _ _ _ (Anywhere_u64 o z)). lia.
  - apply (K _ _ _ _ (Anywhere_s8 o z)). lia.
  - apply (K _ _ _ _ (Anywhere_s16 o z)). lia.
  - apply (K _ _ _ _ (Anywhere_s32 o z)). lia.
  - apply (K _ _ _ _ (Anywhere_s64 o z)). lia.
Qed.

Lemma integer_store_wraps_around_witness :
  exists m' : Memory,
    store u8 emptyMemory 0 (num 300) utf8 = Ok m'
    /\ load u8 m' 0 utf8 = Ok (num 44).
Proof.
  pose proof (integer_store_wraps_around 300 emptyMemory 0 utf8
                ltac:(lia) ltac:(cbn; lia)) as H.
  inversion H as [|? ? H1 _]. exact H1.
Defined.

(** X15. An enumeration checks its range on the way in only: lowering and
    storing pass the value to the discriminant as it is, so a value
    above the number of cases that the discriminant can hold is lowered
    without complaint, and refused when it is lifted. *)
Theorem enum_range_is_checked_on_lift_only (cases : Z) (e : EnumType.t)
  (v : Z) (result rest : list wasmType) (m : Memory) (o : Options) :
  EnumType.new cases = Ok e ->
  cases < v <= 255 ->
  lowerFlat (EnumType.asType e) result m (num v) o
  = Ok (result ++ [num v], m)
  /\ liftFlat (EnumType.asType e) m (Array_values (num v :: rest)) o
     = Throw (ComponentModelError "Enumeration value out of range").
Proof.
  intros Hnew Hv.
  destruct (EnumType_new_discriminant cases e Hnew) as [Hcases Hd].
  assert (Hpos : 0 < cases).
  { rewrite discriminantType_eq in Hd.
    destruct (Z.leb_spec cases 0); [discriminate|assumption]. }
  assert (HD : EnumType.discriminant e = u8).
  { rewrite discriminantType_eq in Hd.
    destruct (Z.leb_spec cases 0); [discriminate|].
    destruct (Z.leb_spec cases 256); [|lia]. now injection Hd. }
  split.
  - cbn [lowerFlat EnumType.asType]. unfold EnumType.lowerFlat.
    rewrite HD. apply u8_lowerFlat_num. lia.
  - cbn [liftFlat EnumType.asType]. unfold EnumType.liftFlat.
    rewrite HD.
    erewrite (u8_liftFlat_next v); [|reflexivity|lia].
    cbn [bind]. rewrite EnumType_assertRange_num, Hcases.
    destruct (Z.ltb_spec v 0); [lia|].
    destruct (Z.ltb_spec cases v); [reflexivity|lia].
Qed.

Lemma enum_range_is_checked_on_lift_only_witness :
  let e := {| EnumType.discriminant := u8; EnumType.cases := 3 |} in
  EnumType.new 3 = Ok e
  /\ lowerFlat (EnumType.asType e) [] emptyMemory (num 7) utf8
     = Ok ([num 7], emptyMemory)
  /\ liftFlat (EnumType.asType e) emptyMemory (Array_values [num 7]) utf8
     = Throw (ComponentModelError "Enumeration value out of range").
Proof.
  intros e. split; [reflexivity|].
  apply (enum_range_is_checked_on_lift_only 3 e 7 [] [] emptyMemory utf8);
    [reflexivity|lia].
Defined.

(** ** option and string: refused values *)

Lemma readOver_zeros (flat : list wasmTypeName) (rest : list wasmType) :
  forLoop (Z.of_nat (List.length flat))
    (fun values => '(_, values) <- next values ;; Ok values)
    (ArrayIterator (map zeroOf flat ++ rest))
  = Ok (ArrayIterator rest).
Proof.
  apply (forLoop_reads _ _ (map zeroOf flat)).
  - apply reads_array.
  - now rewrite length_map.
Qed.

(** X16. With unpacked options ([keepOption] off) an option of an option
    cannot tell "none" from "some(none)": both wire forms are lifted to
    [undefined], and [undefined] is lowered as "none". *)
Theorem unpacked_option_of_option_loses_some_none (T : ComponentModelType)
  (o : Options) (m : Memory) (result rest : list wasmType) :
  keepOption_set o = false ->
  let OO := OptionType.new (OptionType.new T) in
  let zeros := map zeroOf (flatTypes T) in
  liftFlat OO m (Array_values (num 0 :: num 0 :: zeros ++ rest)) o
  = Ok (JUndefined, ArrayIterator rest)
  /\ liftFlat OO m (Array_values (num 1 :: num 0 :: zeros ++ rest)) o
     = Ok (JUndefined, ArrayIterator rest)
  /\ lowerFlat OO result m JUndefined o
     = Ok (result ++ num 0 :: num 0 :: zeros, m).
Proof.
  intros Hk OO zeros.
  assert (Hinner : forall tail,
    liftFlat (OptionType.new T) m
      (ArrayIterator (num 0 :: zeros ++ tail)) o
    = Ok (JUndefined, ArrayIterator tail)).
  { intros tail. cbn [liftFlat OptionType.new]. unfold OptionType.liftFlat.
    erewrite (u8_liftFlat_next 0); [|reflexivity|lia].
    cbn [bind]. change (Js.strictEquals (num 0) option_.none) with true.
    cbv iota. unfold zeros. rewrite readOver_zeros. cbn [bind].
    now rewrite Hk. }
  split; [|split].
  - unfold OO. cbn [liftFlat OptionType.new Array_values].
    unfold OptionType.liftFlat at 1.
    erewrite (u8_liftFlat_next 0); [|reflexivity|lia].
    cbn [bind]. change (Js.strictEquals (num 0) option_.none) with true.
    cbv iota.
    change (flatTypes (OptionType.new T)) with (i32 :: flatTypes T).
    change (num 0 :: zeros ++ rest)
      with (map zeroOf (i32 :: flatTypes T) ++ rest).
    rewrite readOver_zeros. cbn [bind]. now rewrite Hk.
  - unfold OO. cbn [liftFlat OptionType.new Array_values].
    unfold OptionType.liftFlat at 1.
    erewrite (u8_liftFlat_next 1); [|reflexivity|lia].
    cbn [bind]. change (Js.strictEquals (num 1) option_.none) with false.
    cbv iota.
    change (OptionType.liftFlat T m (ArrayIterator (num 0 :: zeros ++ rest)) o)
      with (liftFlat (OptionType.new T) m
              (ArrayIterator (num 0 :: zeros ++ rest)) o).
    rewrite Hinner. cbn [bind]. now rewrite Hk.
  - unfold OO. cbn [lowerFlat OptionType.new]. unfold OptionType.lowerFlat.
    unfold OptionType.asOptionValue. cbn [option_.isOption Js.isUndefined].
    rewrite Hk. cbn [bind Js_case option_._ctor].
    change option_.none with (num 0).
    rewrite u8_lowerFlat_num by lia. cbn [bind].
    change (Js.strictEquals (num 0) (num 0)) with true. cbv iota.
    change (flatTypes (OptionType.new T)) with (i32 :: flatTypes T).
    rewrite <- app_assoc. reflexivity.
Qed.

Lemma unpacked_option_of_option_loses_some_none_witness :
  let OO := OptionType.new (OptionType.new u8) in
  liftFlat OO emptyMemory (Array_values [num 0; num 0; num 0]) utf8
  = Ok (JUndefined, ArrayIterator [])
  /\ liftFlat OO emptyMemory (Array_values [num 1; num 0; num 0]) utf8
     = Ok (JUndefined, ArrayIterator []).
Proof.
  intros OO.
  destruct (unpacked_option_of_option_loses_some_none u8 utf8 emptyMemory
              [] [] eq_refl)
    as (A & B & _).
  split; [exact A|exact B].
Defined.





(** ** variant: the shape and the order of the cases *)

Lemma joinFlatType_comm (a b : wasmTypeName) :
  VariantType.joinFlatType a b = VariantType.joinFlatType b a.
Proof. destruct a, b; reflexivity. Qed.

Lemma joinFlatType_assoc (a b c : wasmTypeName) :
  VariantType.joinFlatType (VariantType.joinFlatType a b) c
  = VariantType.joinFlatType a (VariantType.joinFlatType b c).
Proof. destruct a, b, c; reflexivity. Qed.

Lemma joinInto_nil_r (a : list wasmTypeName) :
  VariantType.joinInto a [] = a.
Proof. destruct a; reflexivity. Qed.

Lemma joinInto_comm (a : list wasmTypeName) :
  forall b, VariantType.joinInto a b = VariantType.joinInto b a.
Proof.
  induction a as [|x a IH]; intros [|y b]; cbn [VariantType.joinInto];
    try reflexivity.
  now rewrite joinFlatType_comm, IH.
Qed.

Lemma joinInto_assoc (a : list wasmTypeName) :
  forall b c,
    VariantType.joinInto (VariantType.joinInto a b) c
    = VariantType.joinInto a (VariantType.joinInto b c).
Proof.
  induction a as [|x a IH]; intros [|y b] [|z c];
    cbn [VariantType.joinInto]; try reflexivity.
  now rewrite joinFlatType_assoc, IH.
Qed.

Lemma joinInto_length (a : list wasmTypeName) :
  forall b,
    List.length (VariantType.joinInto a b)
    = Nat.max (List.length a) (List.length b).
Proof.
  induction a as [|x a IH]; intros [|y b]; cbn [VariantType.joinInto
    List.length]; try reflexivity.
  now rewrite IH.
Qed.

Lemma flatLoop_fold (variants : list (option GenericComponentModelType)) :
  forall (start : Z) (flat : list wasmTypeName),
    fst (VariantType.flatLoop flat (VariantType.makeCases variants start))
    = fold_left VariantType.joinInto (caseFlatTypes variants) flat.
Proof.
  induction variants as [|c variants IH]; intros start flat;
    cbn [VariantType.makeCases VariantType.flatLoop caseFlatTypes flat_map].
  - reflexivity.
  - destruct c as [ty|]; cbn [VariantCase.create VariantCase.type app
      fold_left].
    + specialize (IH (start + 1)
                    (VariantType.joinInto flat (flatTypes ty))).
      destruct (VariantType.flatLoop
                  (VariantType.joinInto flat (flatTypes ty))
                  (VariantType.makeCases variants (start + 1))).
      exact IH.
    + specialize (IH (start + 1) flat).
      destruct (VariantType.flatLoop flat
                  (VariantType.makeCases variants (start + 1))).
      exact IH.
Qed.

Lemma fold_joinInto_perm (l l' : list (list wasmTypeName)) :
  Permutation l l' ->
  forall flat,
    fold_left VariantType.joinInto l flat
    = fold_left VariantType.joinInto l' flat.
Proof.
  induction 1 as [|x l l' _ IH|x y l|l l' l'' _ IH1 _ IH2]; intros flat;
    cbn [fold_left].
  - reflexivity.
  - apply IH.
  - f_equal. rewrite !joinInto_assoc. f_equal. apply joinInto_comm.
  - now rewrite IH1.
Qed.

Lemma caseFlatTypes_perm
  (variants variants' : list (option GenericComponentModelType)) :
  Permutation variants variants' ->
  Permutation (caseFlatTypes variants) (caseFlatTypes variants').
Proof.
  intros H. unfold caseFlatTypes.
  induction H as [|x l l' _ IH|x y l|l l' l'' _ IH1 _ IH2];
    cbn [flat_map].
  - constructor.
  - now apply Permutation_app_head.
  - rewrite !app_assoc. apply Permutation_app_tail.
    destruct x, y; cbn; try apply Permutation_refl. apply perm_swap.
  - now transitivity (flat_map
      (fun c => match c with Some ty => [flatTypes ty] | None => [] end) l').
Qed.

Lemma VariantType_new_flatTypes
  (variants : list (option GenericComponentModelType))
  (ctor : JType -> JType -> JType) (kind : ComponentModelTypeKind)
  (V : VariantType.t) :
  VariantType.new variants ctor kind = Ok V ->
  exists d,
    VariantType.discriminantType (Z.of_nat (List.length variants)) = Ok d
    /\ VariantType.discriminant V = d
    /\ VariantType.flatTypes V
       = flatTypes d ++ fold_left VariantType.joinInto
                          (caseFlatTypes variants) [].
Proof.
  unfold VariantType.new. rewrite makeCases_length.
  destruct (VariantType.discriminantType (Z.of_nat (List.length variants)))
    as [d|err]; [|discriminate].
  cbn [bind]. unfold VariantType.flatTypes_of.
  pose proof (flatLoop_fold variants 0 []) as Hf.
  destruct (VariantType.flatLoop [] (VariantType.makeCases variants 0))
    as [flat cases'].
  intros [= <-]. exists d. cbn [fst] in Hf. subst flat.
  repeat split.
Qed.

Lemma fold_max_perm (A : Type) (f : Z -> A -> Z) (l l' : list A) :
  (forall r a b, f (f r a) b = f (f r b) a) ->
  Permutation l l' ->
  forall acc, fold_left f l acc = fold_left f l' acc.
Proof.
  intros Hf.
  induction 1 as [|x l l' _ IH|x y l|l l' l'' _ IH1 _ IH2]; intros acc;
    cbn [fold_left].
  - reflexivity.
  - apply IH.
  - now rewrite Hf.
  - now rewrite IH1.
Qed.

Lemma makeCases_types (variants : list (option GenericComponentModelType)) :
  forall start,
    map VariantCase.type (VariantType.makeCases variants start) = variants.
Proof.
  induction variants as [|c variants IH]; intros start;
    cbn [VariantType.makeCases map]; [reflexivity|].
  now rewrite IH.
Qed.

Lemma fold_cases_types (f : Z -> option GenericComponentModelType -> Z)
  (cases : list VariantCase.t) :
  forall acc,
    fold_left (fun result c => f result (VariantCase.type c)) cases acc
    = fold_left f (map VariantCase.type cases) acc.
Proof.
  induction cases as [|c cases IH]; intros acc; cbn [fold_left map];
    [reflexivity|apply IH].
Qed.

(** X19. The wire shape of a variant does not depend on the order in which
    its cases are declared: two variants whose cases are a permutation
    of each other have the same flat types, size and alignment. *)
Theorem variant_shape_does_not_depend_on_case_order
  (variants variants' : list (option GenericComponentModelType))
  (ctor ctor' : JType -> JType -> JType)
  (kind kind' : ComponentModelTypeKind) (V V' : VariantType.t) :
  Permutation variants variants' ->
  VariantType.new variants ctor kind = Ok V ->
  VariantType.new variants' ctor' kind' = Ok V' ->
  flatTypes (VariantType.asType V) = flatTypes (VariantType.asType V')
  /\ size (VariantType.asType V) = size (VariantType.asType V')
  /\ alignment (VariantType.asType V) = alignment (VariantType.asType V').
Proof.
  intros Hperm Hnew Hnew'.
  destruct (VariantType_new_flatTypes _ _ _ _ Hnew) as (d & Hd & HVd & Hflat).
  destruct (VariantType_new_flatTypes _ _ _ _ Hnew')
    as (d' & Hd' & HVd' & Hflat').
  rewrite <- (Permutation_length Hperm) in Hd'.
  assert (ED : VariantType.discriminant V' = VariantType.discriminant V)
    by congruence.
  destruct (VariantType_new_layout _ _ _ _ Hnew) as (HA & HS & HAl).
  destruct (VariantType_new_layout _ _ _ _ Hnew') as (HA' & HS' & HAl').
  assert (EA : VariantType.maxAlignment V = VariantType.maxAlignment V').
  { rewrite HA, HA'. unfold VariantType.maxCaseAlignment.
    rewrite (fold_cases_types
               (fun result ty => match ty with
                                 | Some ty => Z.max result (alignment ty)
                                 | None => result
                                 end)),
      (fold_cases_types
         (fun result ty => match ty with
                           | Some ty => Z.max result (alignment ty)
                           | None => result
                           end)).
    rewrite !makeCases_types.
    apply fold_max_perm; [|exact Hperm].
    intros r [a|] [b|]; lia. }
  assert (ES : VariantType.maxCaseSize (VariantType.makeCases variants 0)
               = VariantType.maxCaseSize
                   (VariantType.makeCases variants' 0)).
  { unfold VariantType.maxCaseSize.
    rewrite (fold_cases_types
               (fun result ty => match ty with
                                 | Some ty => Z.max result (size ty)
                                 | None => result
                                 end)),
      (fold_cases_types
         (fun result ty => match ty with
                           | Some ty => Z.max result (size ty)
                           | None => result
                           end)).
    rewrite !makeCases_types.
    apply fold_max_perm; [|exact Hperm].
    intros r [a|] [b|]; lia. }
  cbn [flatTypes size alignment VariantType.asType].
  split; [|split].
  - rewrite Hflat, Hflat'. rewrite <- HVd, <- HVd', ED. f_equal.
    apply fold_joinInto_perm. now apply caseFlatTypes_perm.
  - rewrite HS, HS', ED, EA, ES. reflexivity.
  - rewrite HAl, HAl', ED, EA. reflexivity.
Qed.

Lemma variant_shape_does_not_depend_on_case_order_witness :
  exists V V' : VariantType.t,
    VariantType.new [Some u8; Some u64; None] JVariantCase kind_variant
    = Ok V
    /\ VariantType.new [None; Some u64; Some u8] JVariantCase kind_variant
       = Ok V'
    /\ flatTypes (VariantType.asType V) = flatTypes (VariantType.asType V')
    /\ size (VariantType.asType V) = size (VariantType.asType V')
    /\ alignment (VariantType.asType V)
       = alignment (VariantType.asType V').
Proof.
  eexists. eexists. split; [reflexivity|]. split; [reflexivity|].
  eapply (variant_shape_does_not_depend_on_case_order
            [Some u8; Some u64; None] [None; Some u64; Some u8]
            JVariantCase JVariantCase kind_variant kind_variant);
    [|reflexivity|reflexivity].
  apply perm_trans with [Some u64; Some u8; None].
  - apply perm_swap.
  - apply perm_trans with [Some u64; None; Some u8].
    + apply perm_skip, perm_swap.
    + apply perm_swap.
Defined.

Lemma fold_joinInto_length (l : list (list wasmTypeName)) :
  forall flat,
    List.length (fold_left VariantType.joinInto l flat)
    = fold_left Nat.max (map (@List.length wasmTypeName) l)
        (List.length flat).
Proof.
  induction l as [|x l IH]; intros flat; cbn [fold_left map];
    [reflexivity|].
  now rewrite IH, joinInto_length.
Qed.

(** X20. A variant takes one flat slot for the discriminant and then as many
    as its longest case; the flat types of every case fit, slot by
    slot, into the slots after the discriminant. *)
Theorem variant_flat_types_cover_every_case
  (variants : list (option GenericComponentModelType))
  (ctor : JType -> JType -> JType) (kind : ComponentModelTypeKind)
  (V : VariantType.t) :
  VariantType.new variants ctor kind = Ok V ->
  List.length (flatTypes (VariantType.asType V))
  = S (fold_left Nat.max
         (map (@List.length wasmTypeName) (caseFlatTypes variants)) 0%nat)
  /\ forall (i : nat) (T : ComponentModelType),
      nth_error variants i = Some (Some T) ->
      fits (flatTypes T) (skipn 1 (flatTypes (VariantType.asType V))).
Proof.
  intros Hnew.
  destruct (VariantType_new_flatTypes _ _ _ _ Hnew) as (d & Hd & HVd & Hflat).
  assert (Hd1 : exists t, flatTypes d = [t]).
  { rewrite discriminantType_eq in Hd.
    destruct (Z.of_nat (List.length variants) <=? 0); [discriminate|].
    destruct (Z.of_nat (List.length variants) <=? 256);
      [injection Hd as <-; now exists i32|].
    destruct (Z.of_nat (List.length variants) <=? 65536);
      [injection Hd as <-; now exists i32|].
    destruct (Z.of_nat (List.length variants) <=? 16777216);
      [injection Hd as <-; now exists i32|discriminate]. }
  destruct Hd1 as [t Ht].
  cbn [flatTypes VariantType.asType]. split.
  - rewrite Hflat, Ht. cbn [app List.length].
    now rewrite fold_joinInto_length.
  - intros i T Hi.
    destruct (VariantType_new_case variants ctor kind V i (Some T) Hnew Hi)
      as (d' & flat & c & Hd' & _ & _ & Hflat' & _ & _ & Hfits).
    assert (d' = d) by congruence. subst d'.
    rewrite Hflat', Ht. cbn [app skipn].
    now destruct (Hfits T eq_refl).
Qed.

Lemma variant_flat_types_cover_every_case_witness :
  exists V : VariantType.t,
    VariantType.new [Some u8; Some (TupleType.new [u64; float32])]
      JVariantCase kind_variant
    = Ok V
    /\ List.length (flatTypes (VariantType.asType V)) = 3%nat
    /\ fits (flatTypes u8) (skipn 1 (flatTypes (VariantType.asType V))).
Proof.
  eexists. split; [reflexivity|].
  match goal with
  | |- _ /\ fits _ (skipn 1 (flatTypes (VariantType.asType ?V))) =>
      destruct (variant_flat_types_cover_every_case
                  [Some u8; Some (TupleType.new [u64; float32])]
                  JVariantCase kind_variant V eq_refl)
        as (L & F)
  end.
  split; [exact L|exact (F 0%nat u8 eq_refl)].
Defined.

(** X21. [align p a] is the least multiple of [a] that is not below [p]. *)
Theorem align_is_the_least_multiple_not_below (p a : Z) :
  0 < a ->
  align p a mod a = 0
  /\ p <= align p a
  /\ forall q, p <= q -> q mod a = 0 -> align p a <= q.
Proof.
  intros Ha. split; [now apply align_multiple|split].
  - now apply align_ge.
  - intros q Hq Hmod.
    pose proof (align_ge p a Ha) as [_ Hlt].
    pose proof (align_multiple p a Ha) as Hm.
    destruct (Z.le_gt_cases (align p a) q) as [|Hgt]; [assumption|].
    exfalso.
    apply Z.mod_divide in Hm; [|lia]. apply Z.mod_divide in Hmod; [|lia].
    destruct Hm as [k Hk]. destruct Hmod as [j Hj].
    assert (j < k) by nia.
    assert ((j + 1) * a <= k * a) by (apply Z.mul_le_mono_nonneg_r; lia).
    lia.
Qed.

Lemma align_is_the_least_multiple_not_below_witness :
  align 5 4 = 8 /\ align 5 4 mod 4 = 0 /\ 5 <= align 5 4.
Proof.
  split; [reflexivity|].
  destruct (align_is_the_least_multiple_not_below 5 4 ltac:(lia))
    as (H1 & H2 & _).
  split; assumption.
Defined.

(** ** record and tuple: where the fields lie *)

Lemma laidOut_offsetsFrom (fields : list TypedField) :
  Forall (fun T => 0 < alignment T) (map type fields) ->
  forall start,
    map offset fields = offsetsFrom start (map type fields) ->
    laidOut start fields.
Proof.
  induction fields as [|f fields IH]; intros Hok start Hoffs;
    cbn [laidOut]; [exact I|].
  cbn [map offsetsFrom] in Hoffs, Hok. injection Hoffs as Hf Hrest.
  inversion Hok as [|? ? Ha Hok']; subst.
  rewrite Hf. split; [|split].
  - now apply align_ge.
  - now apply align_multiple.
  - apply IH; assumption.
Qed.

Lemma sumOfSizes_le_layoutEnd (types : list ComponentModelType) :
  Forall (fun T => 0 < alignment T) types ->
  forall start,
    start + fold_right (fun T total => size T + total) 0 types
    <= layoutEnd start types.
Proof.
  induction 1 as [|T types Ha _ IH]; intros start;
    cbn [fold_right layoutEnd]; [lia|].
  specialize (IH (align start (alignment T) + size T)).
  pose proof (align_ge start (alignment T) Ha). lia.
Qed.

Lemma sumOfSizes_types (fields : list TypedField) :
  sumOfSizes fields
  = fold_right (fun T total => size T + total) 0 (map type fields).
Proof.
  induction fields as [|f fields IH]; cbn; [reflexivity|].
  unfold sumOfSizes in IH. now rewrite IH.
Qed.

(** X22. In a record and in a tuple the fields do not overlap: each field
    starts at a multiple of its alignment, at or after the end of the
    field before it. The [size] of the descriptor is never more than the
    end of the last field, and it is less as soon as a field is
    padded. *)
Theorem record_and_tuple_fields_do_not_overlap
  (fields : list (string * GenericComponentModelType)) :
  Forall (fun T => 0 < alignment T) (map snd fields) ->
  laidOut 0 (map RecordField.typed (RecordType.layout 0 fields))
  /\ laidOut 0 (TupleType.layout 0 (map snd fields))
  /\ size (RecordType.new fields) <= layoutEnd 0 (map snd fields)
  /\ size (TupleType.new (map snd fields)) <= layoutEnd 0 (map snd fields).
Proof.
  intros Hok. split; [|split; [|split]].
  - apply laidOut_offsetsFrom.
    + now rewrite RecordType_layout_types.
    + now rewrite RecordType_layout_offsets, RecordType_layout_types.
  - apply laidOut_offsetsFrom.
    + now rewrite TupleType_layout_types.
    + now rewrite TupleType_layout_offsets, TupleType_layout_types.
  - rewrite RecordType_size, sumOfSizes_types, RecordType_layout_types.
    apply (sumOfSizes_le_layoutEnd _ Hok 0).
  - rewrite TupleType_size, sumOfSizes_types, TupleType_layout_types.
    apply (sumOfSizes_le_layoutEnd _ Hok 0).
Qed.

Lemma record_and_tuple_fields_do_not_overlap_witness :
  laidOut 0 (TupleType.layout 0 [u8; u32; u16])
  /\ size (TupleType.new [u8; u32; u16]) = 7
  /\ layoutEnd 0 [u8; u32; u16] = 10.
Proof.
  destruct (record_and_tuple_fields_do_not_overlap
              [("a", u8); ("b", u32); ("c", u16)]%string)
    as (_ & H & _).
  - repeat constructor.
  - split; [exact H|split; reflexivity].
Defined.

Lemma tuple2_store (T1 T2 : ComponentModelType) (v1 v2 : JType)
  (m : Memory) (p : ptr) (o : Options) :
  store (TupleType.new [T1; T2]) m p (JArray [v1; v2]) o
  = (m1 <- store T1 m (p + align 0 (alignment T1)) v1 o ;;
     m2 <- store T2 m1
             (p + align (align 0 (alignment T1) + size T1) (alignment T2))
             v2 o ;;
     Ok m2).
Proof. reflexivity. Qed.

Lemma tuple2_load (T1 T2 : ComponentModelType) (m : Memory) (p : ptr)
  (o : Options) :
  load (TupleType.new [T1; T2]) m p o
  = (x <- load T1 m (p + align 0 (alignment T1)) o ;;
     y <- load T2 m
            (p + align (align 0 (alignment T1) + size T1) (alignment T2))
            o ;;
     Ok (JArray [x; y])).
Proof.
  cbn [load TupleType.new BaseRecordType.new]. unfold BaseRecordType.load.
  cbn [TupleType.layout BaseRecordType.loadFields TupleField.create type
         offset].
  destruct (load T1 m (p + align 0 (alignment T1)) o); [|reflexivity].
  cbn [bind].
  destruct (load T2 m _ o); reflexivity.
Qed.

Lemma u8_store_eq (m : Memory) (p z : Z) (o : Options) :
  inBounds m p 1 = true ->
  store u8 m p (num z) o
  = Ok (withRaw m (poke (raw m) p [z mod 256])).
Proof.
  intros H. cbn [store u8]. unfold _u8.store, DataView.setUint8,
    DataView.setInt, DataView.setBits.
  cbn [JsE.ToNumber num bind Js.ToNumber Number.trunc].
  change (Z.of_nat 1) with 1. rewrite H. cbn [ordered toLE].
  change (2 ^ (8 * 1)) with 256. now rewrite Z.mod_mod by lia.
Qed.

Lemma u32_store_eq (m : Memory) (p z : Z) (o : Options) :
  inBounds m p 4 = true ->
  store u32 m p (num z) o
  = Ok (withRaw m (poke (raw m) p (toLE 4 (z mod 2 ^ 32)))).
Proof.
  intros H. cbn [store u32]. unfold _u32.store, DataView.setUint32,
    DataView.setInt, DataView.setBits.
  cbn [JsE.ToNumber num bind Js.ToNumber Number.trunc].
  change (Z.of_nat 4) with 4. rewrite H. reflexivity.
Qed.

Lemma u8_load_eq (m : Memory) (p : Z) (o : Options) :
  inBounds m p 1 = true ->
  load u8 m p o = Ok (num (raw m p)).
Proof.
  intros H. cbn [load u8]. unfold _u8.load, DataView.getUint8,
    DataView.getBits.
  change (Z.of_nat 1) with 1. rewrite H. cbn [bind ordered bytesAt fromLE].
  now rewrite Z.mul_0_r, Z.add_0_r.
Qed.

Lemma u32_load_eq (m : Memory) (p : Z) (o : Options) :
  inBounds m p 4 = true ->
  load u32 m p o = Ok (num (fromLE (bytesAt (raw m) p 4))).
Proof.
  intros H. cbn [load u32]. unfold _u32.load, DataView.getUint32,
    DataView.getBits.
  change (Z.of_nat 4) with 4. now rewrite H.
Qed.

(** X23. Because the size of a record or tuple leaves the padding out, the
    field that follows a padded record in an enclosing record is placed
    inside it: in a tuple of (a tuple of u8 and u32) and u8, the last
    field is stored over the second byte of the u32, which is read back
    changed. *)
Theorem field_after_a_padded_record_overwrites_it (a b c : Z) (m : Memory)
  (p : ptr) (o : Options) :
  0 <= a <= 255 -> 0 <= b <= 4294967295 -> 0 <= c <= 255 ->
  0 <= p -> p + 8 <= byteLength m ->
  size paddedInside = 6
  /\ exists m' : Memory,
      store paddedInside m p (JArray [JArray [num a; num b]; num c]) o
      = Ok m'
      /\ load paddedInside m' p o
         = Ok (JArray
                 [JArray [num a;
                          num (b - 256 * ((b / 256) mod 256) + 256 * c)];
                  num c]).
Proof.
  intros Ha Hb Hc Hp Hn. split; [reflexivity|].
  assert (B : forall (mm : Memory) q n,
                byteLength mm = byteLength m ->
                p <= q -> q + n <= p + 8 -> inBounds mm q n = true).
  { intros mm q n Hmm Hq Hqn. unfold inBounds. rewrite Hmm.
    apply andb_true_intro. split; apply Z.leb_le; lia. }
  unfold paddedInside.
  set (m1 := withRaw m (poke (raw m) p [a mod 256])).
  set (m2 := withRaw m1 (poke (raw m1) (p + 4) (toLE 4 (b mod 2 ^ 32)))).
  set (m3 := withRaw m2 (poke (raw m2) (p + 5) [c mod 256])).
  exists m3. split.
  - rewrite tuple2_store, tuple2_store.
    change (alignment (TupleType.new [u8; u32])) with 4.
    change (size (TupleType.new [u8; u32])) with 5.
    change (alignment u8) with 1. change (alignment u32) with 4.
    change (size u8) with 1.
    change (align 0 4) with 0. change (align 0 1) with 0.
    change (align (0 + 1) 4) with 4. change (align (0 + 5) 1) with 5.
    rewrite !Z.add_0_r.
    rewrite u8_store_eq by (apply B; [reflexivity|lia|lia]).
    fold m1. cbn [bind].
    rewrite u32_store_eq by (apply B; [reflexivity|lia|lia]).
    fold m2. cbn [bind].
    rewrite u8_store_eq by (apply B; [reflexivity|lia|lia]).
    reflexivity.
  - rewrite tuple2_load, tuple2_load.
    change (alignment (TupleType.new [u8; u32])) with 4.
    change (size (TupleType.new [u8; u32])) with 5.
    change (alignment u8) with 1. change (alignment u32) with 4.
    change (size u8) with 1.
    change (align 0 4) with 0. change (align 0 1) with 0.
    change (align (0 + 1) 4) with 4. change (align (0 + 5) 1) with 5.
    rewrite !Z.add_0_r.
    rewrite !u8_load_eq by (apply B; [reflexivity|lia|lia]).
    rewrite u32_load_eq by (apply B; [reflexivity|lia|lia]).
    cbn [bind].
    assert (R0 : raw m3 p = a).
    { unfold m3, m2, m1. cbn [raw withRaw poke toLE].
      repeat match goal with
        | |- context [Z.eqb ?x ?y] => destruct (Z.eqb_spec x y); try lia
        end.
      apply Z.mod_small. lia. }
    assert (R5 : raw m3 (p + 5) = c).
    { unfold m3. cbn [raw withRaw poke]. rewrite Z.eqb_refl.
      apply Z.mod_small. lia. }
    assert (R4 : fromLE (bytesAt (raw m3) (p + 4) 4)
                 = b - 256 * ((b / 256) mod 256) + 256 * c).
    { unfold m3, m2, m1. cbn [raw withRaw poke toLE bytesAt fromLE].
      repeat match goal with
        | |- context [Z.eqb ?x ?y] => destruct (Z.eqb_spec x y); try lia
        end.
      rewrite (Z.mod_small b) by (change (2 ^ 32) with 4294967296; lia).
      rewrite (Z.mod_small c) by lia.
      pose proof (Z.div_mod b 256 ltac:(lia)) as E1.
      pose proof (Z.div_mod (b / 256) 256 ltac:(lia)) as E2.
      pose proof (Z.div_mod (b / 256 / 256) 256 ltac:(lia)) as E3.
      assert (b / 256 / 256 / 256 < 256).
      { apply Z.div_lt_upper_bound; [lia|].
        apply Z.div_lt_upper_bound; [lia|].
        apply Z.div_lt_upper_bound; lia. }
      assert (0 <= b / 256 / 256 / 256).
      { repeat apply Z.div_pos; lia. }
      rewrite (Z.mod_small (b / 256 / 256 / 256) 256) by lia.
      lia. }
    rewrite R0, R4, R5. reflexivity.
Qed.

Lemma field_after_a_padded_record_overwrites_it_witness :
  exists m' : Memory,
    store paddedInside emptyMemory 0
      (JArray [JArray [num 1; num 67305985]; num 9]) utf8
    = Ok m'
    /\ load paddedInside m' 0 utf8
       = Ok (JArray [JArray [num 1; num 67307777]; num 9]).
Proof.
  destruct (field_after_a_padded_record_overwrites_it 1 67305985 9
              emptyMemory 0 utf8)
    as (_ & H); try lia; [cbn; lia|].
  exact H.
Defined.

(** ** 32-bit integers and bit masks *)

Lemma isInt32_shiftr (x : Z) :
  isInt32 x <-> Z.shiftr x 31 = 0 \/ Z.shiftr x 31 = -1.
Proof.
  unfold isInt32. rewrite Z.shiftr_div_pow2 by lia.
  change (2 ^ 31) with 2147483648.
  pose proof (Z.div_mod x 2147483648 ltac:(lia)) as E.
  pose proof (Z.mod_pos_bound x 2147483648 ltac:(lia)) as B.
  split; intros H; lia.
Qed.

Lemma isInt32_lor (x y : Z) : isInt32 x -> isInt32 y -> isInt32 (Z.lor x y).
Proof.
  rewrite !isInt32_shiftr, Z.shiftr_lor.
  intros [-> | ->] [-> | ->]; cbn; auto.
Qed.

Lemma isInt32_land (x y : Z) :
  isInt32 x -> isInt32 y -> isInt32 (Z.land x y).
Proof.
  rewrite !isInt32_shiftr, Z.shiftr_land.
  intros [-> | ->] [-> | ->]; cbn; auto.
Qed.

Lemma isInt32_lnot (x : Z) : isInt32 x -> isInt32 (Z.lnot x).
Proof. unfold isInt32, Z.lnot. lia. Qed.

Lemma Js_ToInt32_isInt32 (v : JType) : isInt32 (Js.ToInt32 v).
Proof.
  unfold Js.ToInt32, ToInt32, ToUint32, isInt32.
  apply (signed_range 32); [lia|].
  apply Z.mod_pos_bound. lia.
Qed.

Lemma Js_ToInt32_num (x : Z) : isInt32 x -> Js.ToInt32 (num x) = x.
Proof.
  intros Hx. unfold Js.ToInt32, ToInt32, ToUint32. cbn [Js.ToNumber num
    Number.trunc].
  apply (signed_of_mod 32); [lia|exact Hx].
Qed.

Lemma land_lor_same (x m : Z) : Z.land (Z.lor x m) m = m.
Proof.
  apply Z.bits_inj'. intros i Hi.
  rewrite Z.land_spec, Z.lor_spec.
  destruct (Z.testbit x i), (Z.testbit m i); reflexivity.
Qed.

Lemma land_lnot_same (x m : Z) : Z.land (Z.land x (Z.lnot m)) m = 0.
Proof.
  apply Z.bits_inj'. intros i Hi.
  rewrite !Z.land_spec, Z.lnot_spec, Z.bits_0 by assumption.
  destruct (Z.testbit x i), (Z.testbit m i); reflexivity.
Qed.

Lemma land_lor_other (x m g : Z) :
  Z.land m g = 0 -> Z.land (Z.lor x m) g = Z.land x g.
Proof.
  intros H. apply Z.bits_inj'. intros i Hi.
  assert (Hb : Z.testbit (Z.land m g) i = false) by (rewrite H; apply Z.bits_0).
  rewrite Z.land_spec in Hb.
  rewrite !Z.land_spec, Z.lor_spec.
  destruct (Z.testbit x i), (Z.testbit m i), (Z.testbit g i);
    try reflexivity; discriminate.
Qed.

Lemma land_lnot_other (x m g : Z) :
  Z.land m g = 0 -> Z.land (Z.land x (Z.lnot m)) g = Z.land x g.
Proof.
  intros H. apply Z.bits_inj'. intros i Hi.
  assert (Hb : Z.testbit (Z.land m g) i = false) by (rewrite H; apply Z.bits_0).
  rewrite Z.land_spec in Hb.
  rewrite !Z.land_spec, Z.lnot_spec by assumption.
  destruct (Z.testbit x i), (Z.testbit m i), (Z.testbit g i);
    try reflexivity; discriminate.
Qed.

(** The mask of the flag at position [i]: bit [i mod 32], as the signed
    32-bit value that [1 << (i & 31)] gives. *)
Lemma mask_bit (i : Z) :
  0 <= i ->
  Js.shl 1 (Z.land i 31) = signed 32 (2 ^ (i mod 32))
  /\ isInt32 (Js.shl 1 (Z.land i 31))
  /\ Js.shl 1 (Z.land i 31) <> 0.
Proof.
  intros Hi. unfold Js.shl.
  change 31 with (Z.ones 5). rewrite Z.land_ones by lia.
  change (2 ^ 5) with 32.
  pose proof (Z.mod_pos_bound i 32 ltac:(lia)) as B.
  rewrite (Z.mod_small (i mod 32) 32) by lia.
  rewrite Z.shiftl_1_l.
  assert (Hlt : 0 < 2 ^ (i mod 32) < 2 ^ 32).
  { split; [apply Z.pow_pos_nonneg; lia|].
    apply Z.pow_lt_mono_r; lia. }
  rewrite (Z.mod_small (2 ^ (i mod 32))) by lia.
  split; [reflexivity|split].
  - apply (signed_range 32); lia.
  - unfold signed. destruct (Z.ltb_spec (2 ^ (i mod 32)) (2 ^ (32 - 1)));
      [lia|].
    assert (2 ^ (i mod 32) < 2 ^ 32) by lia. lia.
Qed.

Lemma masks_disjoint (k l : Z) :
  0 <= k < 32 -> 0 <= l < 32 -> k <> l ->
  Z.land (signed 32 (2 ^ k)) (signed 32 (2 ^ l)) = 0.
Proof.
  intros Hk Hl Hne.
  assert (K : forall a, 0 <= a < 32 ->
            forall i, 0 <= i < 32 ->
              Z.testbit (signed 32 (2 ^ a)) i = (i =? a)).
  { intros a Ha i Hi'.
    assert (E : signed 32 (2 ^ a) mod 2 ^ 32 = 2 ^ a).
    { apply signed_mod; [lia|].
      split; [apply Z.pow_nonneg; lia|apply Z.pow_lt_mono_r; lia]. }
    rewrite <- (Z.mod_pow2_bits_low (signed 32 (2 ^ a)) 32 i) by lia.
    rewrite E. rewrite Z.pow2_bits_eqb by lia. apply Z.eqb_sym. }
  assert (I1 := signed_range 32 (2 ^ k) ltac:(lia)
                  ltac:(split; [apply Z.pow_nonneg; lia
                               |apply Z.pow_lt_mono_r; lia])).
  assert (I2 := signed_range 32 (2 ^ l) ltac:(lia)
                  ltac:(split; [apply Z.pow_nonneg; lia
                               |apply Z.pow_lt_mono_r; lia])).
  pose proof (isInt32_land _ _ I1 I2) as I3.
  assert (E : Z.land (signed 32 (2 ^ k)) (signed 32 (2 ^ l)) mod 2 ^ 32 = 0).
  { apply Z.bits_inj'. intros i Hi.
    rewrite Z.bits_0.
    destruct (Z.ltb_spec i 32).
    - rewrite Z.mod_pow2_bits_low by lia.
      rewrite Z.land_spec, !K by lia.
      destruct (Z.eqb_spec i k); destruct (Z.eqb_spec i l); try reflexivity.
      lia.
    - now rewrite Z.mod_pow2_bits_high by lia. }
  unfold isInt32 in I3.
  change (2 ^ 31) with 2147483648 in I3.
  change (2 ^ 32) with 4294967296 in E.
  pose proof (Z.div_mod (Z.land (signed 32 (2 ^ k)) (signed 32 (2 ^ l)))
                4294967296 ltac:(lia)) as D.
  rewrite E in D.
  set (q := Z.land (signed 32 (2 ^ k)) (signed 32 (2 ^ l)) / 4294967296)
    in *.
  lia.
Qed.

(** ** flags: layout and accessors *)

Lemma num32Flags_bounds (n : Z) :
  0 <= n ->
  32 * (FlagsType.num32Flags_of n - 1) < n <= 32 * FlagsType.num32Flags_of n.
Proof.
  intros Hn. unfold FlagsType.num32Flags_of.
  pose proof (Z.div_mod (n + 31) 32 ltac:(lia)) as E.
  pose proof (Z.mod_pos_bound (n + 31) 32 ltac:(lia)) as B. lia.
Qed.

(** The form of the value by the number of flags. *)
Lemma FlagsType_type_by_count (names : list string) :
  let n := Z.of_nat (List.length names) in
  let F := FlagsType.new names in
  32 * (FlagsType.num32Flags_of n - 1) < n <= 32 * FlagsType.num32Flags_of n
  /\ (n = 0 -> FlagsType.type F = (Empty, None))
  /\ (1 <= n <= 8 -> FlagsType.type F = (Single, Some u8))
  /\ (9 <= n <= 16 -> FlagsType.type F = (Single, Some u16))
  /\ (17 <= n <= 32 -> FlagsType.type F = (Single, Some u32))
  /\ (32 < n -> FlagsType.type F = (Array, Some u32)).
Proof.
  intros n F.
  pose proof (num32Flags_bounds n ltac:(lia)) as Hw.
  set (words := FlagsType.num32Flags_of n) in *.
  cbn [FlagsType.type F FlagsType.new]. fold n.
  split; [exact Hw|].
  unfold FlagsType.size_of. fold words.
  split; [|split; [|split; [|split]]]; intros H.
  - subst n. rewrite H. reflexivity.
  - destruct (Z.eqb_spec n 0); [lia|].
    destruct (Z.leb_spec n 8); [reflexivity|lia].
  - destruct (Z.eqb_spec n 0); [lia|].
    destruct (Z.leb_spec n 8); [lia|].
    destruct (Z.leb_spec n 16); [reflexivity|lia].
  - destruct (Z.eqb_spec n 0); [lia|].
    destruct (Z.leb_spec n 8); [lia|].
    destruct (Z.leb_spec n 16); [lia|].
    assert (words = 1) as -> by lia. reflexivity.
  - destruct (Z.eqb_spec n 0); [lia|].
    destruct (Z.leb_spec n 8); [lia|].
    destruct (Z.leb_spec n 16); [lia|].
    unfold FlagsType.getType.
    destruct (Z.eqb_spec (4 * words) 0); [lia|].
    destruct (Z.eqb_spec (4 * words) 1); [lia|].
    destruct (Z.eqb_spec (4 * words) 2); [lia|].
    destruct (Z.eqb_spec (4 * words) 4); [lia|]. reflexivity.
Qed.

(** X24. The layout of a flags descriptor by the number [n] of its flags:
    nothing for none, one byte up to 8, two bytes up to 16, one 32-bit
    word up to 32 and as many 32-bit words as needed beyond; one flat
    [i32] per started group of 32 flags (so none without flags, and one
    also for the one- and two-byte forms). *)
Theorem flags_layout_by_number_of_flags (names : list string) :
  let n := Z.of_nat (List.length names) in
  let F := FlagsType.new names in
  let words := FlagsType.num32Flags_of n in
  flatTypes (FlagsType.asType F) = repeat i32 (Z.to_nat words)
  /\ 32 * (words - 1) < n <= 32 * words
  /\ (n = 0 ->
      FlagsType.type F = (Empty, None) /\ size (FlagsType.asType F) = 0
      /\ alignment (FlagsType.asType F) = 1)
  /\ (1 <= n <= 8 ->
      FlagsType.type F = (Single, Some u8) /\ size (FlagsType.asType F) = 1
      /\ alignment (FlagsType.asType F) = 1)
  /\ (9 <= n <= 16 ->
      FlagsType.type F = (Single, Some u16)
      /\ size (FlagsType.asType F) = 2
      /\ alignment (FlagsType.asType F) = 2)
  /\ (17 <= n <= 32 ->
      FlagsType.type F = (Single, Some u32)
      /\ size (FlagsType.asType F) = 4
      /\ alignment (FlagsType.asType F) = 4)
  /\ (32 < n ->
      FlagsType.type F = (Array, Some u32)
      /\ size (FlagsType.asType F) = 4 * words
      /\ alignment (FlagsType.asType F) = 4).
Proof.
  intros n F words.
  pose proof (num32Flags_bounds n ltac:(lia)) as Hw. fold words in Hw.
  cbn [flatTypes size alignment FlagsType.asType FlagsType.flatTypes
         FlagsType.size FlagsType.alignment FlagsType.type F FlagsType.new].
  fold n. unfold FlagsType.flatTypes_of, FlagsType.alignment_of.
  fold words.
  split; [reflexivity|split; [exact Hw|]].
  assert (S0 : n = 0 -> FlagsType.size_of n = 0).
  { intros ->. reflexivity. }
  assert (S1 : 1 <= n <= 8 -> FlagsType.size_of n = 1).
  { intros H. unfold FlagsType.size_of.
    destruct (Z.eqb_spec n 0); [lia|].
    destruct (Z.leb_spec n 8); [reflexivity|lia]. }
  assert (S2 : 9 <= n <= 16 -> FlagsType.size_of n = 2).
  { intros H. unfold FlagsType.size_of.
    destruct (Z.eqb_spec n 0); [lia|].
    destruct (Z.leb_spec n 8); [lia|].
    destruct (Z.leb_spec n 16); [reflexivity|lia]. }
  assert (S3 : 17 <= n -> FlagsType.size_of n = 4 * words).
  { intros H. unfold FlagsType.size_of.
    destruct (Z.eqb_spec n 0); [lia|].
    destruct (Z.leb_spec n 8); [lia|].
    destruct (Z.leb_spec n 16); [lia|reflexivity]. }
  split; [|split; [|split; [|split]]]; intros H.
  - rewrite (S0 H). subst n. rewrite H. repeat split.
  - rewrite (S1 H). destruct (Z.leb_spec n 8); [|lia]. repeat split.
  - rewrite (S2 H). destruct (Z.leb_spec n 8); [lia|].
    destruct (Z.leb_spec n 16); [|lia]. repeat split.
  - rewrite (S3 ltac:(lia)). assert (words = 1) as -> by lia.
    destruct (Z.leb_spec n 8); [lia|].
    destruct (Z.leb_spec n 16); [lia|]. repeat split.
  - rewrite (S3 ltac:(lia)).
    destruct (Z.leb_spec n 8); [lia|].
    destruct (Z.leb_spec n 16); [lia|].
    split; [|split; reflexivity].
    unfold FlagsType.getType.
    destruct (Z.eqb_spec (4 * words) 0); [lia|].
    destruct (Z.eqb_spec (4 * words) 1); [lia|].
    destruct (Z.eqb_spec (4 * words) 2); [lia|].
    destruct (Z.eqb_spec (4 * words) 4); [lia|]. reflexivity.
Qed.

Lemma makeFields_nth (names : list string) :
  forall (start : Z) (i : nat),
    nth_error (FlagsType.makeFields names start) i
    = option_map
        (fun n => FlagField.create n (Js.ushr (start + Z.of_nat i) 5)
                    (Js.shl 1 (Z.land (start + Z.of_nat i) 31)))
        (nth_error names i).
Proof.
  induction names as [|n names IH]; intros start i.
  - now destruct i.
  - destruct i as [|i]; cbn [FlagsType.makeFields nth_error option_map].
    + now rewrite Z.add_0_r.
    + rewrite IH.
      now replace (start + 1 + Z.of_nat i) with (start + Z.of_nat (S i))
        by lia.
Qed.

Lemma makeFields_names (names : list string) :
  forall start,
    map FlagField.name (FlagsType.makeFields names start) = names.
Proof.
  induction names as [|n names IH]; intros start;
    cbn [FlagsType.makeFields map]; [reflexivity|].
  now rewrite IH.
Qed.

Lemma find_by_name (l : list FlagField.t) (f : FlagField.t) :
  NoDup (map FlagField.name l) ->
  In f l ->
  find (fun g => String.eqb (FlagField.name g) (FlagField.name f)) l
  = Some f.
Proof.
  induction l as [|g l IH]; intros Hnd Hin; [contradiction|].
  cbn [map] in Hnd. inversion Hnd as [|? ? Hnot Hnd']; subst.
  cbn [find]. destruct Hin as [->|Hin].
  - now rewrite String.eqb_refl.
  - destruct (String.eqb_spec (FlagField.name g) (FlagField.name f))
      as [E|_].
    + exfalso. apply Hnot. rewrite E. now apply in_map.
    + now apply IH.
Qed.

Lemma FlagsType_field (names : list string) (i : nat) (name : string) :
  NoDup names ->
  nth_error names i = Some name ->
  FlagsType.field (FlagsType.new names) name
  = Some (FlagField.create name (Js.ushr (Z.of_nat i) 5)
            (Js.shl 1 (Z.land (Z.of_nat i) 31))).
Proof.
  intros Hnd Hi. unfold FlagsType.field.
  cbn [FlagsType.fields FlagsType.new].
  set (f := FlagField.create name (Js.ushr (Z.of_nat i) 5)
              (Js.shl 1 (Z.land (Z.of_nat i) 31))).
  change name with (FlagField.name f).
  apply find_by_name.
  - rewrite map_rev, makeFields_names. now apply NoDup_rev.
  - apply in_rev. rewrite rev_involutive.
    apply (nth_error_In _ i). rewrite makeFields_nth, Hi. reflexivity.
Qed.

Lemma Js_nth_setNth_same (bits : list JType) :
  forall (i : nat) (v : JType),
    (i < List.length bits)%nat -> Js_nth (Js_setNth bits i v) i = v.
Proof.
  induction bits as [|b bits IH]; intros i v Hi; cbn in Hi; [lia|].
  destruct i as [|i]; cbn [Js_setNth]; [reflexivity|].
  unfold Js_nth in *. cbn [nth]. apply IH. lia.
Qed.

Lemma Js_nth_setNth_other (bits : list JType) :
  forall (i j : nat) (v : JType),
    i <> j -> Js_nth (Js_setNth bits i v) j = Js_nth bits j.
Proof.
  induction bits as [|b bits IH]; intros i j v Hne; [reflexivity|].
  destruct i as [|i], j as [|j]; cbn [Js_setNth]; try reflexivity;
    try congruence.
  unfold Js_nth in *. cbn [nth]. apply IH. congruence.
Qed.

Lemma get_after_set_same (word : JType) (mask : Z) (b : bool) :
  isInt32 mask -> mask <> 0 ->
  negb (Js.strictEquals (Js.bitand (wordAfterSet word mask b) (num mask))
          (num 0))
  = b.
Proof.
  intros Hm Hne. unfold wordAfterSet, Js.bitand, Js.bitor, Js.bitnot.
  rewrite !(Js_ToInt32_num mask Hm).
  pose proof (Js_ToInt32_isInt32 word) as Hw.
  destruct b.
  - fold (num (Z.lor (Js.ToInt32 word) mask)).
    rewrite Js_ToInt32_num by now apply isInt32_lor.
    rewrite land_lor_same. fold (num mask). rewrite Js_strictEquals_num.
    destruct (Z.eqb_spec mask 0); [contradiction|reflexivity].
  - fold (num (Z.lnot mask)).
    rewrite (Js_ToInt32_num (Z.lnot mask)) by now apply isInt32_lnot.
    fold (num (Z.land (Js.ToInt32 word) (Z.lnot mask))).
    rewrite Js_ToInt32_num
      by (apply isInt32_land; [assumption|now apply isInt32_lnot]).
    rewrite land_lnot_same. reflexivity.
Qed.

Lemma get_after_set_other (word : JType) (mask other : Z) (b : bool) :
  isInt32 mask -> isInt32 other -> Z.land mask other = 0 ->
  Js.bitand (wordAfterSet word mask b) (num other)
  = Js.bitand word (num other).
Proof.
  intros Hm Ho Hd. unfold wordAfterSet, Js.bitand, Js.bitor, Js.bitnot.
  rewrite !(Js_ToInt32_num mask Hm), !(Js_ToInt32_num other Ho).
  pose proof (Js_ToInt32_isInt32 word) as Hw.
  destruct b.
  - fold (num (Z.lor (Js.ToInt32 word) mask)).
    rewrite Js_ToInt32_num by now apply isInt32_lor.
    now rewrite land_lor_other.
  - fold (num (Z.lnot mask)).
    rewrite (Js_ToInt32_num (Z.lnot mask)) by now apply isInt32_lnot.
    fold (num (Z.land (Js.ToInt32 word) (Z.lnot mask))).
    rewrite Js_ToInt32_num
      by (apply isInt32_land; [assumption|now apply isInt32_lnot]).
    now rewrite land_lnot_other.
Qed.

Lemma ushr_5 (i : Z) : 0 <= i < 2 ^ 32 -> Js.ushr i 5 = i / 32.
Proof.
  intros Hi. unfold Js.ushr. rewrite Z.mod_small by exact Hi.
  change (5 mod 32) with 5. now rewrite Z.shiftr_div_pow2 by lia.
Qed.

Lemma FlagsType_set_eq (this : FlagsType.t) (flags : JType) (name : string)
  (f : FlagField.t) (b : bool) :
  FlagsType.field this name = Some f ->
  FlagsType.set this flags name b
  = match flags with
    | JSingleFlags _bits bits =>
        JSingleFlags _bits (wordAfterSet bits (FlagField.mask f) b)
    | JArrayFlags bits =>
        JArrayFlags
          (Js_setNth bits (Z.to_nat (FlagField.index f))
             (wordAfterSet (Js_nth bits (Z.to_nat (FlagField.index f)))
                (FlagField.mask f) b))
    | _ => flags
    end.
Proof.
  intros Hf. unfold FlagsType.set. rewrite Hf.
  destruct flags; reflexivity.
Qed.

(** X25. What was written through the setter of a flag is what its getter
    returns, and the getters of the other flags return what they
    returned before. *)
Theorem flags_getter_returns_what_the_setter_set (names : list string)
  (i j : nat) (name other : string) (b : bool) (flags : JType) :
  let F := FlagsType.new names in
  NoDup names ->
  Z.of_nat (List.length names) < 2 ^ 32 ->
  nth_error names i = Some name ->
  nth_error names j = Some other ->
  i <> j ->
  flagsShape F flags ->
  FlagsType.get F (FlagsType.set F flags name b) name = JBoolean b
  /\ FlagsType.get F (FlagsType.set F flags name b) other
     = FlagsType.get F flags other.
Proof.
  intros F Hnd Hlen Hi Hj Hne Hshape.
  assert (Hi' : (i < List.length names)%nat)
    by (apply nth_error_Some; now rewrite Hi).
  assert (Hj' : (j < List.length names)%nat)
    by (apply nth_error_Some; now rewrite Hj).
  pose proof (FlagsType_field names i name Hnd Hi) as Ff.
  pose proof (FlagsType_field names j other Hnd Hj) as Fg.
  fold F in Ff, Fg.
  destruct (mask_bit (Z.of_nat i) ltac:(lia)) as (Mi & Ii & Ni).
  destruct (mask_bit (Z.of_nat j) ltac:(lia)) as (Mj & Ij & Nj).
  rewrite (ushr_5 (Z.of_nat i)) in Ff by lia.
  rewrite (ushr_5 (Z.of_nat j)) in Fg by lia.
  set (mi := Js.shl 1 (Z.land (Z.of_nat i) 31)) in *.
  set (mj := Js.shl 1 (Z.land (Z.of_nat j) 31)) in *.
  rewrite (FlagsType_set_eq F flags name _ b Ff).
  cbn [FlagField.mask FlagField.index FlagField.create].
  pose proof (FlagsType_type_by_count names) as L.
  cbv zeta in L. fold F in L.
  destruct L as (Hw & L0 & L1 & L2 & L3 & L4).
  set (n := Z.of_nat (List.length names)) in *.
  pose proof (Z.mod_pos_bound (Z.of_nat i) 32 ltac:(lia)) as Bi.
  pose proof (Z.mod_pos_bound (Z.of_nat j) 32 ltac:(lia)) as Bj.
  pose proof (Z.div_mod (Z.of_nat i) 32 ltac:(lia)) as Di.
  pose proof (Z.div_mod (Z.of_nat j) 32 ltac:(lia)) as Dj.
  unfold flagsShape in Hshape.
  destruct (Z.leb_spec n 32) as [Hsmall|Hbig].
  - (* a number of bits *)
    assert (Hty : fst (FlagsType.type F) = Single).
    { destruct (Z.leb_spec n 8); [now rewrite (L1 ltac:(lia))|].
      destruct (Z.leb_spec n 16); [now rewrite (L2 ltac:(lia))|].
      now rewrite (L3 ltac:(lia)). }
    rewrite Hty in Hshape. destruct Hshape as (_bits & bits & ->).
    unfold FlagsType.get. rewrite Ff, Fg.
    cbn [FlagField.mask FlagField.create]. split.
    + now rewrite get_after_set_same.
    + rewrite get_after_set_other; try assumption; [reflexivity|].
      rewrite Mi, Mj. apply masks_disjoint; lia.
  - (* an array of words *)
    assert (Hty : fst (FlagsType.type F) = Array)
      by now rewrite (L4 Hbig).
    rewrite Hty in Hshape. destruct Hshape as (words & -> & Hwords).
    cbn [FlagsType.num32Flags F FlagsType.new] in Hwords. fold n in Hwords.
    assert (Hidx : (Z.to_nat (Z.of_nat i / 32) < List.length words)%nat).
    { rewrite Hwords. apply Z2Nat.inj_lt; lia. }
    unfold FlagsType.get. rewrite Ff, Fg.
    cbn [FlagField.mask FlagField.index FlagField.create]. split.
    + rewrite Js_nth_setNth_same by exact Hidx.
      now rewrite get_after_set_same.
    + destruct (Nat.eq_dec (Z.to_nat (Z.of_nat i / 32))
                  (Z.to_nat (Z.of_nat j / 32))) as [E|E].
      * rewrite <- E. rewrite Js_nth_setNth_same by exact Hidx.
        rewrite get_after_set_other; try assumption; [reflexivity|].
        rewrite Mi, Mj. apply masks_disjoint; try lia.
        all: apply Z2Nat.inj in E; lia.
      * now rewrite Js_nth_setNth_other by exact E.
Qed.

Lemma flags_getter_returns_what_the_setter_set_witness :
  let F := FlagsType.new ["a"; "b"]%string in
  FlagsType.get F (FlagsType.set F (FlagsType.create F) "a" true) "a"
  = JBoolean true
  /\ FlagsType.get F (FlagsType.set F (FlagsType.create F) "a" true) "b"
     = FlagsType.get F (FlagsType.create F) "b".
Proof.
  intros F.
  apply (flags_getter_returns_what_the_setter_set ["a"; "b"]%string
           0%nat 1%nat "a" "b" true (FlagsType.create F)).
  - repeat constructor; cbn; intuition discriminate.
  - cbn. lia.
  - reflexivity.
  - reflexivity.
  - discriminate.
  - vm_compute. eauto.
Defined.

Lemma lowerWords_u32 (words : list JType) :
  forall (result : list wasmType) (m : Memory) (o : Options),
    FlagsType.lowerWords u32 result m words o
    = if forallb (integerIn 0 4294967295) words
      then Ok (result ++ words, m)
      else Throw (JsError "Invalid u32 value").
Proof.
  induction words as [|w words IH]; intros result m o;
    cbn [FlagsType.lowerWords forallb].
  - now rewrite app_nil_r.
  - cbn [lowerFlat u32]. unfold _u32.lowerFlat, _u32.LOW_VALUE,
      _u32.HIGH_VALUE.
    rewrite range_check.
    destruct (integerIn 0 4294967295 w); cbn [negb bind andb];
      [|reflexivity].
    rewrite IH. unfold push. rewrite <- app_assoc. reflexivity.
Qed.

Lemma liftWords_u32 (words : list JType) :
  forallb (integerIn 0 4294967295) words = true ->
  forall (m : Memory) (rest : list wasmType) (o : Options),
    FlagsType.liftWords u32 m (ArrayIterator (words ++ rest)) o
      (List.length words)
    = Ok (words, ArrayIterator rest).
Proof.
  induction words as [|w words IH]; intros Hall m rest o;
    cbn [FlagsType.liftWords List.length app]; [reflexivity|].
  cbn [forallb] in Hall. apply andb_prop in Hall as [Hw Hall].
  cbn [liftFlat u32]. unfold _u32.liftFlat.
  rewrite nextValue_array. cbn [bind].
  unfold _u32.LOW_VALUE, _u32.HIGH_VALUE. rewrite range_check, Hw.
  cbn [negb bind]. rewrite (IH Hall). reflexivity.
Qed.

(** X26. Beyond 32 flags the value is an array of words, lowered and lifted
    word by word as [u32]: the words must all be integers from 0 to
    2^32 - 1. A value fresh from [create], whose words are holes, cannot
    be lowered; neither can a value on which the flag at position 31
    was set, since [|=] leaves the word negative. *)
Theorem flags_words_must_be_unsigned_to_be_lowered (names : list string)
  (words : list JType) (name : string) (result rest : list wasmType)
  (m : Memory) (o : Options) :
  let F := FlagsType.new names in
  (32 < List.length names)%nat ->
  NoDup names ->
  nth_error names 31 = Some name ->
  List.length words = Z.to_nat (FlagsType.num32Flags F) ->
  lowerFlat (FlagsType.asType F) result m (JArrayFlags words) o
  = (if forallb (integerIn 0 4294967295) words
     then Ok (result ++ words, m)
     else Throw (JsError "Invalid u32 value"))
  /\ (forallb (integerIn 0 4294967295) words = true ->
      liftFlat (FlagsType.asType F) m (Array_values (words ++ rest)) o
      = Ok (JArrayFlags words, ArrayIterator rest))
  /\ lowerFlat (FlagsType.asType F) result m (FlagsType.create F) o
     = Throw (JsError "Invalid u32 value")
  /\ lowerFlat (FlagsType.asType F) result m
       (FlagsType.set F (JArrayFlags words) name true) o
     = Throw (JsError "Invalid u32 value").
Proof.
  intros F Hn Hnd H31 Hwords.
  pose proof (FlagsType_type_by_count names) as L.
  cbv zeta in L. fold F in L.
  destruct L as (Hw & _ & _ & _ & _ & L4).
  pose proof (L4 ltac:(lia)) as Hty.
  assert (Hlow : forall flags ws,
    Js_bits flags = JArray ws ->
    lowerFlat (FlagsType.asType F) result m flags o
    = (if forallb (integerIn 0 4294967295) ws
       then Ok (result ++ ws, m)
       else Throw (JsError "Invalid u32 value"))).
  { intros flags ws Hb. cbn [lowerFlat FlagsType.asType].
    unfold FlagsType.lowerFlat, FlagsType.storageType. rewrite Hty.
    cbn [fst snd bind]. rewrite Hb. cbn [FlagsType.iterable bind].
    apply lowerWords_u32. }
  cbn [FlagsType.num32Flags F FlagsType.new] in Hwords.
  set (k := FlagsType.num32Flags_of (Z.of_nat (List.length names))) in *.
  split; [|split; [|split]].
  - now apply Hlow.
  - intros Hall. cbn [liftFlat FlagsType.asType].
    unfold FlagsType.liftFlat, FlagsType.storageType. rewrite Hty.
    cbn [fst snd bind FlagsType.num32Flags F FlagsType.new]. fold k.
    rewrite <- Hwords. cbn [Array_values].
    rewrite (liftWords_u32 words Hall). reflexivity.
  - unfold FlagsType.create. rewrite Hty. cbn [fst].
    unfold FlagsType.createArray.
    rewrite (Hlow (JArrayFlags
                     (repeat JUndefined (Z.to_nat (FlagsType.num32Flags F))))
               _ eq_refl).
    cbn [FlagsType.num32Flags F FlagsType.new]. fold k.
    destruct (Z.to_nat k) as [|k'] eqn:Ek; [lia|]. reflexivity.
  - pose proof (FlagsType_field names 31 name Hnd H31) as Ff. fold F in Ff.
    rewrite (FlagsType_set_eq F _ name _ true Ff).
    cbn [FlagField.mask FlagField.index FlagField.create].
    change (Js.ushr (Z.of_nat 31) 5) with 0.
    change (Js.shl 1 (Z.land (Z.of_nat 31) 31)) with (-2147483648).
    change (Z.to_nat 0) with 0%nat.
    erewrite Hlow; [|reflexivity].
    destruct words as [|w words']; [cbn in Hwords; lia|].
    cbn [Js_setNth forallb Js_nth nth wordAfterSet].
    unfold Js.bitor.
    assert (Hneg : Z.lor (Js.ToInt32 w) (Js.ToInt32 (num (-2147483648))) < 0).
    { apply Z.lor_neg. right. now vm_compute. }
    unfold integerIn at 1.
    destruct (Z.leb_spec 0 (Z.lor (Js.ToInt32 w)
                              (Js.ToInt32 (num (-2147483648))))); [lia|].
    reflexivity.
Qed.

Lemma flags_words_must_be_unsigned_to_be_lowered_witness :
  let F := FlagsType.new manyFlags in
  lowerFlat (FlagsType.asType F) [] emptyMemory
    (JArrayFlags [num 1; num 1]) utf8
  = Ok ([num 1; num 1], emptyMemory)
  /\ lowerFlat (FlagsType.asType F) [] emptyMemory (FlagsType.create F) utf8
     = Throw (JsError "Invalid u32 value").
Proof.
  intros F.
  destruct (flags_words_must_be_unsigned_to_be_lowered manyFlags
              [num 1; num 1] "`" [] [] emptyMemory utf8)
    as (A & _ & B & _).
  - cbn. lia.
  - unfold manyFlags. cbn [seq map].
    repeat (apply NoDup_cons;
            [let H := fresh in
             intros H; cbn in H;
             repeat (destruct H as [H|H]; [discriminate H|]); exact H|]).
    apply NoDup_nil.
  - reflexivity.
  - reflexivity.
  - split; [exact A|exact B].
Defined.

(** ** Typed arrays *)

Lemma TypedArrayKind_eqb_refl (k : TypedArrayKind) :
  TypedArrayKind_eqb k k = true.
Proof. now destruct k. Qed.

Lemma BYTES_PER_ELEMENT_pos (k : TypedArrayKind) :
  0 < BYTES_PER_ELEMENT k.
Proof. destruct k; cbn; lia. Qed.

Lemma TypedArrays_bytes_length (m : Memory) (a : TypedArray) :
  0 <= TypedArrays.length a ->
  Z.of_nat (List.length (TypedArrays.bytes m a)) = TypedArrays.byteLength a.
Proof.
  intros Hlen. destruct a as [k off n|k bs];
    cbn [TypedArrays.bytes TypedArrays.byteLength TypedArrays.length
           TypedArrays.kind] in *.
  - pose proof (BYTES_PER_ELEMENT_pos k).
    assert (L : forall r p c, List.length (bytesAt r p c) = c).
    { intros r p c. revert p. induction c as [|c IH]; intros p; cbn;
        [reflexivity|now rewrite IH]. }
    rewrite L. rewrite Z2Nat.id by nia. reflexivity.
  - pose proof (BYTES_PER_ELEMENT_pos k) as Hk.
    pose proof (Z.mul_div_le (Z.of_nat (List.length bs))
                  (BYTES_PER_ELEMENT k) Hk) as E.
    rewrite Z.mul_comm in E.
    pose proof (Z.div_pos (Z.of_nat (List.length bs)) (BYTES_PER_ELEMENT k)
                  ltac:(lia) Hk) as P.
    assert (0 <= Z.of_nat (List.length bs) / BYTES_PER_ELEMENT k
                 * BYTES_PER_ELEMENT k) by (apply Z.mul_nonneg_nonneg; lia).
    rewrite length_firstn. unfold TypedArrays.byteLength; cbn [TypedArrays.length TypedArrays.kind]. set (t := Z.of_nat (Datatypes.length bs) / BYTES_PER_ELEMENT k * BYTES_PER_ELEMENT k) in *. clearbody t. lia.
Qed.

Lemma TypeArrayType_lowerFlat_eq (K : TypedArrayKind) (a : Z)
  (value : TypedArray) (m : Memory) (p h : Z) (o : Options)
  (result : list wasmType) :
  TypedArrays.kind value = K ->
  allocHook m a (TypedArrays.byteLength value) (heap m) = (p, h) ->
  TypeArrayType.lowerFlat K a result m value o
  = if viewInBounds m (BYTES_PER_ELEMENT K) p (TypedArrays.length value)
    then Ok (result ++ [num p; num (TypedArrays.length value)],
             {| raw := poke (raw m) p (TypedArrays.bytes m value);
                byteLength := byteLength m; heap := h;
                allocHook := allocHook m |})
    else Throw RangeError.
Proof.
  intros HK Halloc.
  unfold TypeArrayType.lowerFlat, TypeArrayType.storeIntoRange,
    Memory_alloc, TypedArrays.onMemory.
  rewrite Halloc.
  change (viewInBounds _ (BYTES_PER_ELEMENT K) p (TypedArrays.length value))
    with (viewInBounds m (BYTES_PER_ELEMENT K) p (TypedArrays.length value)).
  destruct (viewInBounds m (BYTES_PER_ELEMENT K) p
              (TypedArrays.length value)); [|reflexivity].
  cbn [bind]. rewrite HK, TypedArrayKind_eqb_refl.
  destruct value; reflexivity.
Qed.

Lemma viewInBounds_eq (m : Memory) (e p n : Z) :
  0 <= p -> 0 <= n -> p + n * e <= byteLength m ->
  viewInBounds m e p n = (p mod e =? 0).
Proof.
  intros Hp Hn Hb. unfold viewInBounds.
  destruct (Z.leb_spec 0 p); [|lia]. destruct (Z.leb_spec 0 n); [|lia].
  destruct (Z.leb_spec (p + n * e) (byteLength m)); [|lia].
  now rewrite andb_true_r.
Qed.

(** X27. A typed array lowered into memory that the allocator hands out
    inside the buffer, at a multiple of the element size, is lifted from
    the pointer and length pushed as a view on that memory which shows
    the bytes of the array; the lowering raises a RangeError when the
    address is not a multiple of the element size. *)
Theorem typed_array_lower_then_lift (K : TypedArrayKind) (a : Z)
  (value : TypedArray) (m : Memory) (p h : Z) (o : Options)
  (result rest : list wasmType) :
  TypedArrays.kind value = K ->
  0 <= TypedArrays.length value ->
  allocHook m a (TypedArrays.byteLength value) (heap m) = (p, h) ->
  0 <= p -> p + TypedArrays.byteLength value <= byteLength m ->
  if p mod BYTES_PER_ELEMENT K =? 0
  then
    exists m' : Memory,
      TypeArrayType.lowerFlat K a result m value o
      = Ok (result ++ [num p; num (TypedArrays.length value)], m')
      /\ (forall x, x < p \/ p + TypedArrays.byteLength value <= x ->
            raw m' x = raw m x)
      /\ TypeArrayType.liftFlat K m'
           (Array_values
              ([num p; num (TypedArrays.length value)] ++ rest)) o
         = Ok (OnMemory K p (TypedArrays.length value), ArrayIterator rest)
      /\ TypedArrays.bytes m'
           (OnMemory K p (TypedArrays.length value))
         = TypedArrays.bytes m value
  else
    TypeArrayType.lowerFlat K a result m value o = Throw RangeError.
Proof.
  intros HK Hlen Halloc Hp Hn.
  pose proof (BYTES_PER_ELEMENT_pos K) as Hbpe.
  pose proof (TypedArrays_bytes_length m value Hlen) as Hbytes.
  rewrite (TypeArrayType_lowerFlat_eq K a value m p h o result HK Halloc).
  unfold TypedArrays.byteLength in Hn, Hbytes |- *. rewrite HK in Hn, Hbytes |- *.
  rewrite (viewInBounds_eq m _ p _ Hp Hlen Hn).
  destruct (Z.eqb_spec (p mod BYTES_PER_ELEMENT K) 0) as [Hal|Hal];
    [|reflexivity].
  eexists. split; [reflexivity|split; [|split]].
  - intros x Hx. cbn [raw]. apply poke_outside. lia.
  - unfold TypeArrayType.liftFlat. cbn -[viewInBounds].
    unfold TypeArrayType.loadFromRange, TypedArrays.onMemory.
    rewrite (viewInBounds_eq _ _ p _ Hp Hlen) by exact Hn.
    destruct (Z.eqb_spec (p mod BYTES_PER_ELEMENT K) 0); [|contradiction].
    reflexivity.
  - cbn [TypedArrays.bytes raw]. apply bytesAt_poke.
    apply Nat2Z.inj. rewrite Z2Nat.id by nia. exact Hbytes.
Qed.

Lemma typed_array_lower_then_lift_witness :
  exists m' : Memory,
    TypeArrayType.lowerFlat Uint16Array 2 [] emptyMemory
      (OnBuffer Uint16Array [1; 2; 3; 4]) utf8
    = Ok ([num 1024; num 2], m')
    /\ TypeArrayType.liftFlat Uint16Array m'
         (Array_values [num 1024; num 2]) utf8
       = Ok (OnMemory Uint16Array 1024 2, ArrayIterator [])
    /\ TypedArrays.bytes m' (OnMemory Uint16Array 1024 2) = [1; 2; 3; 4].
Proof.
  destruct (typed_array_lower_then_lift Uint16Array 2
              (OnBuffer Uint16Array [1; 2; 3; 4]) emptyMemory 1024 1028
              utf8 [] [])
    as (m' & L & _ & R & B);
    [reflexivity | cbn; lia | reflexivity | lia | cbn; lia |].
  exists m'. split; [exact L|split; [exact R|exact B]].
Defined.

(** X28. Every subclass but [Float64ArrayType] asks the allocator for the
    alignment of its elements, so an allocator that honours the request
    is enough for the lowering to succeed. [Float64ArrayType] asks for
    the alignment 4 of [float32]: when the address it is given is not a
    multiple of 8 its lowering raises a RangeError. *)
Theorem float64_array_is_allocated_with_alignment_4 (K : TypedArrayKind)
  (a : Z) (value : TypedArray) (m : Memory) (p h : Z) (o : Options)
  (result : list wasmType) :
  In (K, a) TypeArrayType.subclasses ->
  TypedArrays.kind value = K ->
  0 <= TypedArrays.length value ->
  allocHook m a (TypedArrays.byteLength value) (heap m) = (p, h) ->
  0 <= p -> p mod a = 0 ->
  p + TypedArrays.byteLength value <= byteLength m ->
  (K <> Float64Array ->
   exists m' : Memory,
     TypeArrayType.lowerFlat K a result m value o
     = Ok (result ++ [num p; num (TypedArrays.length value)], m'))
  /\ (K = Float64Array ->
      a = 4
      /\ (p mod 8 <> 0 ->
          TypeArrayType.lowerFlat K a result m value o = Throw RangeError)).
Proof.
  intros Hin HK Hlen Halloc Hp Hal Hn.
  rewrite (TypeArrayType_lowerFlat_eq K a value m p h o result HK Halloc).
  unfold TypedArrays.byteLength in Hn. rewrite HK in Hn.
  rewrite (viewInBounds_eq m _ p _ Hp Hlen Hn).
  cbn [TypeArrayType.subclasses In] in Hin.
  repeat (destruct Hin as [Hin|Hin];
          [injection Hin as <- <-;
           match type of Hal with
           | _ mod ?x = 0 =>
               let y := eval vm_compute in x in change x with y in Hal
           end;
           (split;
            [intros Hne; try congruence;
             cbn [BYTES_PER_ELEMENT]; rewrite Hal;
             eexists; reflexivity
            |intros HF; try discriminate HF])|]);
    try contradiction.
  split; [reflexivity|]. intros H8. cbn [BYTES_PER_ELEMENT].
  destruct (Z.eqb_spec (p mod 8) 0); [contradiction|reflexivity].
Qed.

Lemma float64_array_is_allocated_with_alignment_4_witness :
  bumpAlloc 4 16 1028 = (1028, 1044)
  /\ TypeArrayType.lowerFlat Float64Array 4 []
       {| raw := fun _ => 0; byteLength := 65536; heap := 1028;
          allocHook := bumpAlloc |}
       (OnMemory Float64Array 0 2) utf8
     = Throw RangeError.
Proof.
  split; [reflexivity|].
  refine (proj2 (proj2 (float64_array_is_allocated_with_alignment_4
            Float64Array 4 (OnMemory Float64Array 0 2)
            {| raw := fun _ => 0; byteLength := 65536; heap := 1028;
               allocHook := bumpAlloc |} 1028 1044 utf8 [] _ _ _ _ _ _ _)
          eq_refl) _);
    try reflexivity; try (cbn; lia).
  cbn. do 9 right. left. reflexivity.
Defined.
